(** * BATS: sparse factorizations of column matrices (LEUP, PLEU, UELP, PUEL)
      and the EL/L commutation relation.

    Shallow embedding of [include/linalg/sparse_fact.h] together with the
    parts of the sparse vector / column matrix interface it relies on. *)

From Stdlib Require Import ZArith NArith Field Lia.
From stdpp Require Import base option list gmap sorting.

(** ** Field contract

    The template parameter [val_type] of the column type: addition,
    subtraction, multiplication, inverse, exact equality, zero and one. *)

Class Field (F : Type) := MkField {
  Fzero : F;
  Fone : F;
  Fadd : F -> F -> F;
  Fmul : F -> F -> F;
  Fsub : F -> F -> F;
  Fopp : F -> F;
  Fdiv : F -> F -> F;
  Finv : F -> F;
  Feq_dec :: EqDecision F;
  Fth : field_theory Fzero Fone Fadd Fmul Fsub Fopp Fdiv Finv eq
}.

Declare Scope F_scope.
Delimit Scope F_scope with F.
Notation "0" := Fzero : F_scope.
Notation "1" := Fone : F_scope.
Infix "+" := Fadd : F_scope.
Infix "*" := Fmul : F_scope.
Infix "-" := Fsub : F_scope.
Infix "/" := Fdiv : F_scope.
Notation "- x" := (Fopp x) : F_scope.

(** *** The prime field with five elements ([ModP<int, 5>]) *)

Inductive F5 : Type := r0 | r1 | r2 | r3 | r4.

Definition F5_to_nat (x : F5) : nat :=
  match x with r0 => 0 | r1 => 1 | r2 => 2 | r3 => 3 | r4 => 4 end.

Definition F5_of_nat (k : nat) : F5 :=
  match k mod 5 with
  | 0 => r0 | 1 => r1 | 2 => r2 | 3 => r3 | _ => r4
  end.

Definition F5_add (x y : F5) : F5 := F5_of_nat (F5_to_nat x + F5_to_nat y).
Definition F5_mul (x y : F5) : F5 := F5_of_nat (F5_to_nat x * F5_to_nat y).
Definition F5_opp (x : F5) : F5 := F5_of_nat (5 - F5_to_nat x).
Definition F5_sub (x y : F5) : F5 := F5_add x (F5_opp y).
Definition F5_inv (x : F5) : F5 :=
  match x with r0 => r0 | r1 => r1 | r2 => r3 | r3 => r2 | r4 => r4 end.
Definition F5_div (x y : F5) : F5 := F5_mul x (F5_inv y).

#[global] Instance F5_eq_dec : EqDecision F5.
Proof. intros x y; unfold Decision; decide equality. Defined.

Lemma F5_field_theory :
  field_theory r0 r1 F5_add F5_mul F5_sub F5_opp F5_div F5_inv eq.
Proof.
  constructor; [constructor | | | ].
  - intros []; reflexivity.
  - intros [] []; reflexivity.
  - intros [] [] []; reflexivity.
  - intros []; reflexivity.
  - intros [] []; reflexivity.
  - intros [] [] []; reflexivity.
  - intros [] [] []; reflexivity.
  - intros [] []; reflexivity.
  - intros []; reflexivity.
  - discriminate.
  - intros [] []; reflexivity.
  - intros [] H; try reflexivity; exfalso; apply H; reflexivity.
Qed.

#[global] Instance F5_Field : Field F5 :=
  MkField F5 r0 r1 F5_add F5_mul F5_sub F5_opp F5_div F5_inv F5_eq_dec
          F5_field_theory.

(** ** Sparse vectors and column matrices *)

(** A sparse vector is its [indval] sequence of (index, value) pairs. *)
Abbreviation SparseVector F := (list (nat * F)).

Record ColumnMatrix (F : Type) : Type := MkMat {
  nrow : nat;
  ncol : nat;
  col : list (SparseVector F)
}.
Arguments MkMat {F} _ _ _.
Arguments nrow {F} _.
Arguments ncol {F} _.
Arguments col {F} _.

(** [struct SparseFact]: the four factors. *)
Record SparseFact (F : Type) : Type := MkFact {
  fL : ColumnMatrix F;
  fE : ColumnMatrix F;
  fU : ColumnMatrix F;
  fP : ColumnMatrix F
}.
Arguments MkFact {F} _ _ _ _.
Arguments fL {F} _.
Arguments fE {F} _.
Arguments fU {F} _.
Arguments fP {F} _.

Section Definitions.

Context {F : Type} {FF : Field F}.

Local Open Scope F_scope.

(** *** Sparse vector primitives *)

(** Modelled from the spec: the sparse lookup of one entry of a column
    ([sparse_vector.h] is not among the sources).  The value stored at
    index [i], zero when no entry is stored there. *)
Fixpoint getval (v : SparseVector F) (i : nat) : F :=
  match v with
  | [] => 0
  | (k, x) :: v' => if k =? i then x else getval v' i
  end.

(** Modelled from the spec: [SparseVector::lower_bound] -- the first stored
    entry whose index is at least [i0], [None] standing for [nzend()]. *)
Definition lower_bound (v : SparseVector F) (i0 : nat) : option (nat * F) :=
  List.find (fun e => i0 <=? e.1) v.

(** Adds [c] at index [i] of a sorted vector, keeping the order and
    dropping the entry when the sum is zero. *)
Fixpoint add_entry (i : nat) (c : F) (v : SparseVector F) : SparseVector F :=
  match v with
  | [] => if decide (c = 0) then [] else [(i, c)]
  | (k, w) :: v' =>
      if i <? k then (if decide (c = 0) then v else (i, c) :: v)
      else if i =? k then
        (if decide (w + c = 0) then v' else (k, w + c) :: v')
      else (k, w) :: add_entry i c v'
  end.

(** Modelled from the spec: [SparseVector::axpy(a, x, first, last)] --
    adds [a * x], restricted to the indices in the half-open range
    [first, last), into [y], maintaining sorted order and dropping any
    resulting zero entries. *)
Definition axpy (a : F) (x : SparseVector F) (first last : nat)
    (y : SparseVector F) : SparseVector F :=
  fold_left
    (fun acc e =>
       if (first <=? e.1) && (e.1 <? last) then add_entry e.1 (a * e.2) acc
       else acc)
    x y.

(** Modelled from the spec: [SparseVector::axpy(x, coeff, pivs)] -- the
    deferred list of (scalar, pivot-row) operations applied at once: the
    [k]-th recorded operation adds [coeff[k] * x[pivs[k]]] at index [k]. *)
Fixpoint axpy_hist_from (k : nat) (x : SparseVector F) (coeff : list F)
    (pivs : list nat) (y : SparseVector F) : SparseVector F :=
  match coeff, pivs with
  | c :: coeff', p :: pivs' =>
      axpy_hist_from (S k) x coeff' pivs' (add_entry k (c * getval x p) y)
  | _, _ => y
  end.

Definition axpy_hist (x : SparseVector F) (coeff : list F) (pivs : list nat)
    (y : SparseVector F) : SparseVector F :=
  axpy_hist_from 0 x coeff pivs y.

(** *** Column matrix primitives *)

(** Column access [A[j]].  Reading past the last column is undefined in
    the source; the model reads an empty column there. *)
Definition mcol (A : ColumnMatrix F) (j : nat) : SparseVector F :=
  col A !!! j.

(** Entry access [A(i, j)]. *)
Definition get (A : ColumnMatrix F) (i j : nat) : F := getval (mcol A j) i.

(** Assignment to column [j]. *)
Definition set_col (A : ColumnMatrix F) (j : nat) (v : SparseVector F)
    : ColumnMatrix F :=
  MkMat (nrow A) (ncol A) (<[j := v]> (col A)).

(** Modelled from the spec: [swap_cols] exchanges two owned columns. *)
Definition swap_cols (A : ColumnMatrix F) (j j2 : nat) : ColumnMatrix F :=
  MkMat (nrow A) (ncol A) (<[j2 := mcol A j]> (<[j := mcol A j2]> (col A))).

(** Modelled from the spec: [identity(n)]. *)
Definition identity (n : nat) : ColumnMatrix F :=
  MkMat n n ((fun j => [(j, 1)]) <$> seq 0 n).

(** The sparse column with value [f i] at every index [i < m] where it is
    not zero. *)
Definition sv_of_fun (m : nat) (f : nat -> F) : SparseVector F :=
  omap (fun i => if decide (f i = 0) then None else Some (i, f i)) (seq 0 m).

Definition of_fun (m n : nat) (f : nat -> nat -> F) : ColumnMatrix F :=
  MkMat m n ((fun j => sv_of_fun m (fun i => f i j)) <$> seq 0 n).

(** Modelled from the spec: [transpose()] / [T()]. *)
Definition T (A : ColumnMatrix F) : ColumnMatrix F :=
  of_fun (ncol A) (nrow A) (fun i j => get A j i).

(** Modelled from the spec: [J_conjugation()], the conjugation that
    reverses both the row and the column ordering. *)
Definition J_conjugation (A : ColumnMatrix F) : ColumnMatrix F :=
  of_fun (nrow A) (ncol A)
         (fun i j => get A (nrow A - 1 - i) (ncol A - 1 - j)).

(** Modelled from the spec: the matrix product -- each output column is
    the linear combination of the columns of the left matrix weighted by
    the nonzero entries of the right column, pruning zeros. *)
Definition mul_col (A : ColumnMatrix F) (x : SparseVector F)
    : SparseVector F :=
  fold_left (fun acc e => axpy e.2 (mcol A e.1) 0 (nrow A) acc) x [].

Definition mmul (A B : ColumnMatrix F) : ColumnMatrix F :=
  MkMat (nrow A) (ncol B) (mul_col A <$> col B).

(** Modelled from the spec: [row_scale(coeff)] multiplies every stored
    entry of row [i], across all columns, by [coeff[i]]; a row without a
    coefficient is a read outside [coeff] ([None]). *)
Definition scale_entries (coeff : list F) (v : SparseVector F)
    : option (SparseVector F) :=
  mapM (fun e : nat * F => c ← coeff !! e.1; Some (e.1, c * e.2)) v.

Definition row_scale (coeff : list F) (A : ColumnMatrix F)
    : option (ColumnMatrix F) :=
  cols ← mapM (scale_entries coeff) (col A);
  Some (MkMat (nrow A) (ncol A) cols).

(** Products in the four orderings of [SparseFact]. *)
Definition LEUP_prod (X : SparseFact F) : ColumnMatrix F :=
  mmul (mmul (mmul (fL X) (fE X)) (fU X)) (fP X).
Definition PLEU_prod (X : SparseFact F) : ColumnMatrix F :=
  mmul (mmul (mmul (fP X) (fL X)) (fE X)) (fU X).
Definition UELP_prod (X : SparseFact F) : ColumnMatrix F :=
  mmul (mmul (mmul (fU X) (fE X)) (fL X)) (fP X).
Definition PUEL_prod (X : SparseFact F) : ColumnMatrix F :=
  mmul (mmul (mmul (fP X) (fU X)) (fE X)) (fL X).

(** *** The pivot map of the reduction kernel

    [std::map<size_t, std::vector<size_t>>]: row index to the columns whose
    current pivot lies in that row.  [p2c[r]] default-constructs an empty
    bucket when the key is absent. *)

Definition bucket (p2c : gmap nat (list nat)) (r : nat) : list nat :=
  default [] (p2c !! r).

(** [update_pivot]: update pivot for column [j], looking past row [i0]. *)
Definition update_pivot (A : ColumnMatrix F) (p2c : gmap nat (list nat))
    (j i0 : nat) : gmap nat (list nat) :=
  match lower_bound (mcol A j) i0 with
  | Some piv => <[piv.1 := bucket p2c piv.1 ++ [j]]> p2c
  | None => p2c
  end.

(** Erases the first occurrence of [j] (the [erase(it); break;] loop). *)
Fixpoint erase_first (j : nat) (cs : list nat) : list nat :=
  match cs with
  | [] => []
  | c :: cs' => if decide (c = j) then cs' else c :: erase_first j cs'
  end.

(** [delete_pivot]. *)
Definition delete_pivot (A : ColumnMatrix F) (p2c : gmap nat (list nat))
    (j i0 : nat) : gmap nat (list nat) :=
  match lower_bound (mcol A j) i0 with
  | Some piv => <[piv.1 := erase_first j (bucket p2c piv.1)]> p2c
  | None => p2c
  end.

(** [get_pivots]. *)
Definition get_pivots (A : ColumnMatrix F) : gmap nat (list nat) :=
  fold_left (fun p2c j => update_pivot A p2c j 0) (seq 0 (ncol A)) ∅.

(** *** [LEUP_inplace] *)

(** The local state of [LEUP_inplace]: the bundle, the pivot map, the
    recorded pivots and coefficients, and the two cursors. *)
Record LEUP_state : Type := MkState {
  sL : ColumnMatrix F;
  sE : ColumnMatrix F;
  sU : ColumnMatrix F;
  sP : ColumnMatrix F;
  sp2c : gmap nat (list nat);
  spivs : list nat;
  scoeff : list F;
  si : nat;
  sj : nat
}.

(** One turn of the loop over the columns sharing pivot row [i]
    (the bucket [p2c[i]] past its first entry): the Schur complement
    update of column [jj] and the refresh of its pivot. *)
Definition schur_update (m i j : nat) (a11 : F)
    (acc : ColumnMatrix F * gmap nat (list nat)) (jj : nat)
    : ColumnMatrix F * gmap nat (list nat) :=
  let c := get acc.1 i jj / a11 in
  let E' := set_col acc.1 jj (axpy (- c) (mcol acc.1 j) (i + 1) m (mcol acc.1 jj)) in
  (E', update_pivot E' acc.2 jj (i + 1)).

(** The branch [p2c.count(i) > 0] of the main loop, first half: the pivot
    column [j2] (the first entry of the bucket [p2c[i]]) is brought to
    position [j] when it is not already there. *)
Definition swap_pivot (s : LEUP_state) (j2 : nat) : LEUP_state :=
  if decide (j2 = sj s) then s
  else
    (* delete previous pivot for j, swap, update pivot for j2 *)
    let p2c' := delete_pivot (sE s) (sp2c s) (sj s) (si s) in
    let E' := swap_cols (sE s) (sj s) j2 in
    MkState (sL s) E' (sU s) (swap_cols (sP s) (sj s) j2)
            (update_pivot E' p2c' j2 (si s))
            (spivs s) (scoeff s) (si s) (sj s).

(** Second half: the lazy update of U, the Schur complement over the rest
    of the bucket, the record in L, and the cleared column of E.  The inner
    loop runs over the bucket as it is after the swap: [update_pivot] is
    called with [i + 1] and so never touches bucket [i] while it is being
    traversed. *)
Definition eliminate (m : nat) (s : LEUP_state) : LEUP_state :=
  let i := si s in
  let j := sj s in
  let U1 := set_col (sU s) j
              (axpy_hist (mcol (sE s) j) (scoeff s) (spivs s) (mcol (sU s) j)) in
  let a11 := get (sE s) i j in
  let EP :=
    fold_left (schur_update m i j a11) (tail (bucket (sp2c s) i))
              (sE s, sp2c s) in
  let L1 := set_col (sL s) i
              (axpy (Finv a11) (mcol EP.1 j) (i + 1) m (mcol (sL s) i)) in
  let E3 := set_col EP.1 j [(i, a11)] in
  MkState L1 E3 U1 (sP s) (delete i EP.2) (spivs s ++ [i])
          (scoeff s ++ [Finv a11]) (i + 1) (j + 1).

(** [cs] is the bucket [p2c[i]]; [p2c[i][0]] is its first entry (reading
    the front of an empty bucket is undefined in the source; the model
    reads column 0 there). *)
Definition pivot_step (m : nat) (s : LEUP_state) (cs : list nat)
    : LEUP_state :=
  eliminate m (swap_pivot s (hd 0%nat cs)).

(** The branch without a pivot in row [i]. *)
Definition skip_row (s : LEUP_state) : LEUP_state :=
  MkState (sL s) (sE s) (sU s) (sP s) (sp2c s) (spivs s) (scoeff s)
          (si s + 1) (sj s).

(** [while (i < m && j < n)].  The row cursor advances in every turn, so
    [m] turns exhaust the loop ([fuel] is instantiated with [m]). *)
Fixpoint LEUP_loop (fuel m n : nat) (s : LEUP_state) : LEUP_state :=
  match fuel with
  | O => s
  | S fuel' =>
      if (si s <? m) && (sj s <? n) then
        match sp2c s !! si s with
        | Some cs => LEUP_loop fuel' m n (pivot_step m s cs)
        | None => LEUP_loop fuel' m n (skip_row s)
        end
      else s
  end.

(** One turn of the final loop [while (j < n)]: the lazy update of column
    [j] of U, then column [j] of E is cleared. *)
Definition finish_col (coeff : list F) (pivs : list nat)
    (EU : ColumnMatrix F * ColumnMatrix F) (j : nat)
    : ColumnMatrix F * ColumnMatrix F :=
  (set_col EU.1 j [],
   set_col EU.2 j (axpy_hist (mcol EU.1 j) coeff pivs (mcol EU.2 j))).

Definition LEUP_inplace (X : SparseFact F) : SparseFact F :=
  let m := nrow (fE X) in
  let n := ncol (fE X) in
  let s := LEUP_loop m m n
             (MkState (fL X) (fE X) (fU X) (fP X) (get_pivots (fE X))
                      [] [] 0 0) in
  let '(E', U') :=
    fold_left (finish_col (scoeff s) (spivs s)) (seq (sj s) (n - sj s))
              (sE s, sU s) in
  MkFact (sL s) E' U' (T (sP s)).

Definition LEUP (A : ColumnMatrix F) : SparseFact F :=
  LEUP_inplace
    (MkFact (identity (nrow A)) A (identity (ncol A)) (identity (ncol A))).

(** *** The three dual factorizations *)

Definition PLEU_inplace (X : SparseFact F) : SparseFact F :=
  let X1 := LEUP_inplace (MkFact (fL X) (T (fE X)) (fU X) (fP X)) in
  (* E and P are transposed, L and U are swapped, then both transposed *)
  MkFact (T (fU X1)) (T (fE X1)) (T (fL X1)) (T (fP X1)).

Definition PLEU (A : ColumnMatrix F) : SparseFact F :=
  let X1 := LEUP (T A) in
  MkFact (T (fU X1)) (T (fE X1)) (T (fL X1)) (T (fP X1)).

Definition UELP_inplace (X : SparseFact F) : SparseFact F :=
  let X1 := LEUP_inplace (MkFact (fL X) (J_conjugation (fE X)) (fU X) (fP X)) in
  MkFact (J_conjugation (fU X1)) (J_conjugation (fE X1))
         (J_conjugation (fL X1)) (J_conjugation (fP X1)).

Definition UELP (A : ColumnMatrix F) : SparseFact F :=
  let X1 := LEUP (J_conjugation A) in
  MkFact (J_conjugation (fU X1)) (J_conjugation (fE X1))
         (J_conjugation (fL X1)) (J_conjugation (fP X1)).

(** [PUEL_inplace] conjugates, then transposes. *)
Definition PUEL_inplace (X : SparseFact F) : SparseFact F :=
  let X1 :=
    LEUP_inplace (MkFact (fL X) (T (J_conjugation (fE X))) (fU X) (fP X)) in
  MkFact (T (J_conjugation (fL X1))) (T (J_conjugation (fE X1)))
         (T (J_conjugation (fU X1))) (T (J_conjugation (fP X1))).

(** [PUEL] transposes, then conjugates, on the way out. *)
Definition PUEL (A : ColumnMatrix F) : SparseFact F :=
  let X1 := LEUP (T (J_conjugation A)) in
  MkFact (J_conjugation (T (fL X1))) (J_conjugation (T (fE X1)))
         (J_conjugation (T (fU X1))) (J_conjugation (T (fP X1))).

(** *** EL commutation

    In the commutation routines two operands of independent dimensions
    meet, so every read or write of a [std::vector] is checked here:
    [None] stands for an access outside the vector. *)

(** [pivot_ind]: the pivot of column [j]; [Some None] is [bats::NO_IND]. *)
Definition pivot_ind (E : ColumnMatrix F) (j : nat) : option (option nat) :=
  v ← col E !! j; Some (fst <$> head v).

(** [coeff[i] = x]. *)
Definition write (coeff : list F) (i : nat) (x : F) : option (list F) :=
  if decide (i < length coeff) then Some (<[i := x]> coeff) else None.

(** [cnt] turns of [coeff[i++] = val_type(1)]. *)
Fixpoint fill_ones (cnt : nat) (coeff : list F) (i : nat)
    : option (list F) :=
  match cnt with
  | O => Some coeff
  | S cnt' => coeff' ← write coeff i 1; fill_ones cnt' coeff' (i + 1)
  end.

(** The main loop of [extract_row_scale].  The column cursor advances in
    every turn that does not leave the loop, so [n] turns exhaust it.  The
    result is the matrix, the coefficients and the row cursor. *)
Fixpoint extract_loop (fuel m n : nat) (E : ColumnMatrix F) (coeff : list F)
    (i j : nat) : option (ColumnMatrix F * list F * nat) :=
  match fuel with
  | O => Some (E, coeff, i)
  | S fuel' =>
      if (i <? m) && (j <? n) then
        v ← col E !! j;
        match v with
        | [] =>
            (* the end of the non-zero columns: fill and break *)
            coeff' ← fill_ones (m - i) coeff i;
            Some (E, coeff', Nat.max i m)
        | (r, a) :: v' =>
            coeff1 ← fill_ones (r - i) coeff i;
            let i1 := Nat.max i r in
            coeff2 ← write coeff1 i1 a;
            extract_loop fuel' m n (set_col E j ((r, 1) :: v')) coeff2
                         (i1 + 1) (j + 1)
        end
      else Some (E, coeff, i)
  end.

(** [extract_row_scale]: the normalized matrix and the row scaling. *)
Definition extract_row_scale (E : ColumnMatrix F)
    : option (ColumnMatrix F * list F) :=
  let m := nrow E in
  let n := ncol E in
  '(E', coeff, i) ← extract_loop n m n E (replicate m 0) 0 0;
  coeff' ← fill_ones (m - i) coeff i;
  Some (E', coeff').

(** The inner loop of [EL_L_commute]: the entries of [L[ell]] are appended
    to the cleared column with their index sent through [idx_map], up to
    the first entry whose image is [NO_IND]. *)
Fixpoint remap_entries (idx_map : list (option nat)) (v acc : SparseVector F)
    : option (SparseVector F) :=
  match v with
  | [] => Some acc
  | (k, x) :: v' =>
      o ← idx_map !! k;
      match o with
      | None => Some acc
      | Some r => remap_entries idx_map v' (acc ++ [(r, x)])
      end
  end.

(** The loop over the columns [ell] of EL, leaving at the first [NO_IND]. *)
Fixpoint commute_cols (L : ColumnMatrix F) (idx_map : list (option nat))
    (ells : list nat) (Lt : ColumnMatrix F) : option (ColumnMatrix F) :=
  match ells with
  | [] => Some Lt
  | ell :: ells' =>
      o ← idx_map !! ell;
      match o with
      | None => Some Lt
      | Some j_ell =>
          _ ← col Lt !! j_ell;
          v ← col L !! ell;
          w ← remap_entries idx_map v [];
          commute_cols L idx_map ells' (set_col Lt j_ell w)
      end
  end.

(** [EL_L_commute]: produce matrix Ltilde so Ltilde * EL = EL * L. *)
Definition EL_L_commute (E L : ColumnMatrix F) : option (ColumnMatrix F) :=
  '(EL, coeff) ← extract_row_scale E;
  let m := nrow EL in
  let n := ncol EL in
  idx_map ← mapM (pivot_ind EL) (seq 0 n);
  Ltilde ← commute_cols L idx_map (seq 0 n) (identity m);
  row_scale coeff Ltilde.

(** [L_EL_commute]: produce matrix Ltilde so L * EL = EL * Ltilde. *)
Definition L_EL_commute (L EL : ColumnMatrix F) : option (ColumnMatrix F) :=
  Lt ← EL_L_commute (J_conjugation (T EL)) (J_conjugation (T L));
  Some (J_conjugation (T Lt)).

(** *** Shape predicates and the data-model invariant *)

(** The sparse-vector invariant under row count [m]: indices strictly
    increasing and below [m], no stored zero. *)
Fixpoint sv_wf_from (lo m : nat) (v : SparseVector F) : bool :=
  match v with
  | [] => true
  | (k, x) :: v' =>
      (lo <=? k) && (k <? m) && negb (bool_decide (x = 0))
      && sv_wf_from (S k) m v'
  end.

Definition sv_wf (m : nat) (v : SparseVector F) : bool := sv_wf_from 0 m v.

(** The column-matrix invariant: one column per declared column, each a
    well-formed sparse vector bounded by the row count. *)
Definition mat_wf (A : ColumnMatrix F) : bool :=
  (length (col A) =? ncol A) && forallb (sv_wf (nrow A)) (col A).

(** Modelled from the spec: [is_upper] -- every column's nonzero indices
    are at most its column index; [is_lower] is the dual. *)
Definition is_upper (A : ColumnMatrix F) : bool :=
  forallb (fun jv : nat * SparseVector F =>
             forallb (fun e : nat * F => e.1 <=? jv.1) jv.2)
          (imap (fun j v => (j, v)) (col A)).

Definition is_lower (A : ColumnMatrix F) : bool :=
  forallb (fun jv : nat * SparseVector F =>
             forallb (fun e : nat * F => jv.1 <=? e.1) jv.2)
          (imap (fun j v => (j, v)) (col A)).

(** Unit diagonal of a square matrix. *)
Definition unit_diag (A : ColumnMatrix F) : bool :=
  (nrow A =? ncol A)
  && forallb (fun j => bool_decide (get A j j = 1)) (seq 0 (ncol A)).

Definition lower_unitriangular (A : ColumnMatrix F) : bool :=
  is_lower A && unit_diag A.

Definition upper_unitriangular (A : ColumnMatrix F) : bool :=
  is_upper A && unit_diag A.

(** Modelled from the spec: [is_pivot_matrix] -- exactly one nonzero entry
    per row and per column, each equal to the multiplicative identity. *)
Definition is_pivot_matrix (A : ColumnMatrix F) : bool :=
  forallb (fun v : SparseVector F =>
             match v with
             | [(_, x)] => bool_decide (x = 1)
             | _ => false
             end) (col A)
  && forallb (fun i =>
                length (filter (fun v : SparseVector F => getval v i <> 0)
                               (col A)) =? 1)
             (seq 0 (nrow A)).

(** Strictly increasing list of indices. *)
Fixpoint increasing_from (lo : nat) (l : list nat) : bool :=
  match l with
  | [] => true
  | k :: l' => (lo <=? k) && increasing_from (S k) l'
  end.

(** The pivot rows of the nonzero columns, in column order. *)
Definition pivot_rows (A : ColumnMatrix F) : list nat :=
  omap (fun v : SparseVector F => fst <$> head v) (col A).


(** Modelled from the spec: [is_EL] -- among nonzero columns, the
    lowest-index nonzero entry (the pivot) of column [j] occurs at a row
    strictly increasing in [j].  (The clause that pivot-less columns are
    entirely zero holds of every matrix: a column without a lowest-index
    entry has no entry.) *)
Definition is_EL (A : ColumnMatrix F) : bool :=
  increasing_from 0 (pivot_rows A).

(** Modelled from the spec: EU is the transposed dual of EL; ELhat and
    EUhat are the row/column-reversed (conjugate) duals of EL and EU. *)
Definition is_EU (A : ColumnMatrix F) : bool := is_EL (T A).
Definition is_ELhat (A : ColumnMatrix F) : bool := is_EL (J_conjugation A).
Definition is_EUhat (A : ColumnMatrix F) : bool := is_EU (J_conjugation A).

(** The shape of the E factor the kernel builds, which the commutation
    routines assume: each nonzero column holds its pivot alone, pivot rows
    strictly increase, and the zero columns come last. *)
Fixpoint pivots_only_from (lo : nat) (cols : list (SparseVector F)) : bool :=
  match cols with
  | [] => true
  | [(k, _)] :: cols' => (lo <=? k) && pivots_only_from (S k) cols'
  | [] :: cols' => forallb (fun v : SparseVector F => bool_decide (v = [])) cols'
  | _ :: _ => false
  end.

Definition EL_pivots_only (A : ColumnMatrix F) : bool :=
  pivots_only_from 0 (col A).

(** The shape tests of one factorization bundle, [isE] being the echelon
    shape its E factor carries. *)
Definition shape_ok (isE : ColumnMatrix F -> bool) (X : SparseFact F) : bool :=
  lower_unitriangular (fL X) && upper_unitriangular (fU X)
  && is_pivot_matrix (fP X) && isE (fE X).

(** Entry-wise reading of the triangular and permutation shapes. *)
Definition lowerP (X : ColumnMatrix F) : Prop :=
  forall r c, get X r c <> 0 -> (c <= r)%nat.

Definition upperP (X : ColumnMatrix F) : Prop :=
  forall r c, get X r c <> 0 -> (r <= c)%nat.

Definition diagP (X : ColumnMatrix F) : Prop :=
  forall c, (c < ncol X)%nat -> get X c c = 1.

Definition perm_matrix (n : nat) (X : ColumnMatrix F) (sigma tau : nat -> nat)
    : Prop :=
  (forall c, (c < n)%nat -> (sigma c < n)%nat)
  /\ (forall c, (c < n)%nat -> (tau c < n)%nat)
  /\ (forall c, (c < n)%nat -> tau (sigma c) = c)
  /\ (forall c, (c < n)%nat -> sigma (tau c) = c)
  /\ (forall r c, (r < n)%nat -> (c < n)%nat ->
        get X r c = if decide (r = sigma c) then 1 else 0).

(** The pivot row of a column, [None] for an empty column. *)
Definition col_pivot (v : SparseVector F) : option nat := fst <$> head v.

(** A column with its pivot value set to one. *)
Definition norm1 (v : SparseVector F) : SparseVector F :=
  match v with
  | [] => []
  | (r, _) :: v' => (r, 1) :: v'
  end.

(** What [extract_row_scale] is to achieve on [E]: it returns, every
    pivot of the normalized matrix is one, rows without pivot get the
    coefficient one, and scaling the rows of the normalized matrix by the
    coefficients gives [E] back. *)
Definition row_scale_round_trip (E : ColumnMatrix F) : Prop :=
  exists E' coeff,
    extract_row_scale E = Some (E', coeff)
    /\ (forall c r a v, col E' !! c = Some ((r, a) :: v) -> a = 1)
    /\ (forall r, (r < nrow E)%nat ->
          (forall c, col_pivot (mcol E c) <> Some r) -> coeff !! r = Some 1)
    /\ row_scale coeff E' = Some E.

(** The sum of [f k] over [k < n]: the entry of a product read densely. *)
Fixpoint fsum (n : nat) (f : nat -> F) : F :=
  match n with
  | O => 0
  | S n' => fsum n' f + f n'
  end.

(** *** Loop invariants of the reduction kernel *)

(** The exchange of two column indices. *)
Definition sw (j j2 c : nat) : nat :=
  if decide (c = j) then j2 else if decide (c = j2) then j else c.

(** Row of the pivot of a column, looking past row [i]. *)
Definition lbrow (v : SparseVector F) (i : nat) : option nat :=
  fst <$> lower_bound v i.

(** Entry [(t, c)] of the product of the first [np] columns of E with U. *)
Definition Xfin (E U : ColumnMatrix F) (np t c : nat) : F :=
  fsum np (fun k => get E t k * get U k c).

(** The pivot map holds exactly the unfinished columns, each once, in the
    bucket of the row of its pivot past row [i]. *)
Record P2C (n : nat) (E : ColumnMatrix F) (p2c : gmap nat (list nat))
    (i j : nat) : Prop := MkP2C {
  p2c_nodup : forall r, NoDup (bucket p2c r);
  p2c_nonempty : forall r, p2c !! r <> Some [];
  p2c_mem : forall r c,
    c ∈ bucket p2c r <->
    ((j <= c < n)%nat /\ lbrow (mcol E c) i = Some r)
}.

(** The pivot map after the pivot column has been brought to position [j]:
    the rest of bucket [i] holds exactly the other columns with an entry
    in row [i]. *)
Record PostSwap (n : nat) (E : ColumnMatrix F) (p2c : gmap nat (list nat))
    (i j : nat) : Prop := MkPostSwap {
  ps_pivot : get E i j <> 0;
  ps_nonempty : forall r, p2c !! r <> Some [];
  ps_tl_nodup : NoDup (tail (bucket p2c i));
  ps_tl_mem : forall c,
    c ∈ tail (bucket p2c i) <-> ((j < c < n)%nat /\ get E i c <> 0);
  ps_other_nodup : forall r, r <> i -> NoDup (bucket p2c r);
  ps_other_mem : forall r c,
    r <> i ->
    (c ∈ bucket p2c r <-> ((j < c < n)%nat /\ lbrow (mcol E c) i = Some r))
}.

(** The invariant of both loops of [LEUP_inplace] on input [A]: [sigma] is
    the column permutation accumulated in P and [tau] its inverse. *)
Record Inv (A : ColumnMatrix F) (sigma tau : nat -> nat) (s : LEUP_state)
    : Prop := MkInv {
  inv_L_wf : mat_wf (sL s) = true;
  inv_L_nrow : nrow (sL s) = nrow A;
  inv_L_ncol : ncol (sL s) = nrow A;
  inv_E_wf : mat_wf (sE s) = true;
  inv_E_nrow : nrow (sE s) = nrow A;
  inv_E_ncol : ncol (sE s) = ncol A;
  inv_U_wf : mat_wf (sU s) = true;
  inv_U_nrow : nrow (sU s) = ncol A;
  inv_U_ncol : ncol (sU s) = ncol A;
  inv_P_len : length (col (sP s)) = ncol A;
  inv_P_nrow : nrow (sP s) = ncol A;
  inv_P_ncol : ncol (sP s) = ncol A;
  inv_i : (si s <= nrow A)%nat;
  inv_j : (sj s <= ncol A)%nat;
  inv_np : (length (spivs s) <= sj s)%nat;
  inv_coeff_len : length (scoeff s) = length (spivs s);
  inv_pivs_lt : forall k,
    (k < length (spivs s))%nat -> (nth k (spivs s) O < si s)%nat;
  inv_pivs_inc : forall k k',
    (k < k' < length (spivs s))%nat ->
    (nth k (spivs s) O < nth k' (spivs s) O)%nat;
  inv_Efin : forall c,
    (c < length (spivs s))%nat ->
    exists a, mcol (sE s) c = [(nth c (spivs s) O, a)]
              /\ nth c (scoeff s) 0 = Finv a;
  inv_Ezero : forall c,
    (length (spivs s) <= c < sj s)%nat -> mcol (sE s) c = [];
  inv_Eact : forall c r,
    (sj s <= c < ncol A)%nat -> (r < si s)%nat -> get (sE s) r c <> 0 ->
    In r (spivs s);
  inv_Uid : forall c,
    (sj s <= c < ncol A)%nat -> mcol (sU s) c = [(c, 1)];
  inv_Udiag : forall c, (c < ncol A)%nat -> get (sU s) c c = 1;
  inv_Uup : forall k c,
    get (sU s) k c <> 0 ->
    (k <= c)%nat /\ (k = c \/ (k < length (spivs s))%nat);
  inv_Lid : forall r,
    (r < nrow A)%nat -> ~ In r (spivs s) -> mcol (sL s) r = [(r, 1)];
  inv_Ldiag : forall r, (r < nrow A)%nat -> get (sL s) r r = 1;
  inv_Llow : forall r c, get (sL s) r c <> 0 -> (c <= r)%nat;
  inv_perm_col : forall c,
    (c < ncol A)%nat -> mcol (sP s) c = [(sigma c, 1)];
  inv_sigma_lt : forall c, (c < ncol A)%nat -> (sigma c < ncol A)%nat;
  inv_tau_lt : forall c, (c < ncol A)%nat -> (tau c < ncol A)%nat;
  inv_tau_sigma : forall c, (c < ncol A)%nat -> tau (sigma c) = c;
  inv_sigma_tau : forall c, (c < ncol A)%nat -> sigma (tau c) = c;
  inv_main_fin : forall c r,
    (c < sj s)%nat -> (r < nrow A)%nat ->
    get A r (sigma c)
    = fsum (nrow A)
        (fun t => get (sL s) r t
                  * Xfin (sE s) (sU s) (length (spivs s)) t c);
  inv_main_act : forall c r,
    (sj s <= c < ncol A)%nat -> (r < nrow A)%nat ->
    get A r (sigma c)
    = fsum (nrow A) (fun t => get (sL s) r t * get (sE s) t c)
}.

(** The data-model invariant on all four matrices of a factorization. *)
Definition fact_wf (X : SparseFact F) : bool :=
  mat_wf (fL X) && mat_wf (fE X) && mat_wf (fU X) && mat_wf (fP X).

(** Row scaling of a sparse vector as [row_scale] computes it when every
    index has a coefficient. *)
Definition scaled (coeff : list F) (v : SparseVector F) : SparseVector F :=
  (fun e : nat * F => (e.1, nth e.1 coeff 0 * e.2)) <$> v.

(** Whether every read [EL_L_commute] makes of [L] for an [E] with [n]
    columns is in range: [L] stores at least [n] columns, and each of the
    first [n] holds row indices below [n] only. *)
Definition readable_by (n : nat) (L : ColumnMatrix F) : bool :=
  (n <=? length (col L))
  && forallb (fun v : SparseVector F =>
                forallb (fun e : nat * F => e.1 <? n) v)
             (take n (col L)).

(** Eager rejection of operands whose row or column counts do not match. *)
Definition rejects_mismatch (E L : ColumnMatrix F) : Prop :=
  nrow L <> ncol E \/ ncol L <> ncol E -> EL_L_commute E L = None.

(** The contract of [EL_L_commute] on the operands [E] and [L]. *)
Definition commutes_unitriangular (E L : ColumnMatrix F) : Prop :=
  exists Lt, EL_L_commute E L = Some Lt
             /\ lower_unitriangular Lt = true
             /\ mmul Lt E = mmul E L.

(** Whether every pivot of [E] is one. *)
Definition unit_pivots (E : ColumnMatrix F) : bool :=
  forallb (fun v : SparseVector F =>
             match v with
             | [] => true
             | (_, a) :: _ => bool_decide (a = 1)
             end)
          (col E).

(** What [EL_L_commute] achieves on a pivot-only [E]: it returns, and the
    returned matrix times the normalized [E] is [E] times [L]. *)
Definition commutes_normalized (E L : ColumnMatrix F) : Prop :=
  exists E' coeff R,
    extract_row_scale E = Some (E', coeff)
    /\ EL_L_commute E L = Some R
    /\ mmul R E' = mmul E L.

(** Whether every access of one turn of the branch [p2c.count(i) > 0] is
    defined: the bucket has a front [p2c[i][0]], the columns [j], [j2] and
    [*jj] of E, P and U and the column [i] of L exist, and the pivot
    [a11], which is inverted, is not zero. *)
Definition step_defined (s : LEUP_state) (cs : list nat) : bool :=
  match cs with
  | [] => false
  | j2 :: _ =>
      let s1 := swap_pivot s j2 in
      let nE := length (col (sE s)) in
      (sj s <? nE) && (j2 <? nE)
      && (sj s <? length (col (sP s))) && (j2 <? length (col (sP s)))
      && (sj s <? length (col (sU s)))
      && (si s <? length (col (sL s)))
      && negb (bool_decide (get (sE s1) (si s) (sj s) = 0))
      && forallb (fun jj => jj <? nE) (tail (bucket (sp2c s1) (si s)))
  end.

(** The main loop of [LEUP_inplace] once more, stopping with [None] at the
    first turn with an undefined access. *)
Fixpoint LEUP_loop_checked (fuel m n : nat) (s : LEUP_state)
    : option LEUP_state :=
  match fuel with
  | O => Some s
  | S fuel' =>
      if (si s <? m) && (sj s <? n) then
        match sp2c s !! si s with
        | Some cs =>
            if step_defined s cs
            then LEUP_loop_checked fuel' m n (pivot_step m s cs)
            else None
        | None => LEUP_loop_checked fuel' m n (skip_row s)
        end
      else Some s
  end.


End Definitions.

(** ** Dense integer matrices *)

(** Modelled from the spec: the dense matrix type [A<Dense<int>>] and
    [matmul] of [naive_dense.h], which is not among the sources.  The data
    is listed row by row, and [int] arithmetic wraps around at 32 bits. *)
Record Dense : Type := MkDense {
  d_rows : nat;
  d_cols : nat;
  d_data : list Z
}.

Definition int_wrap (z : Z) : Z := ((z + 2 ^ 31) mod 2 ^ 32 - 2 ^ 31)%Z.

Definition d_get (a : Dense) (i j : nat) : Z :=
  nth (i * d_cols a + j) (d_data a) 0%Z.

Definition matmul (a b : Dense) : Dense :=
  MkDense (d_rows a) (d_cols b)
    (flat_map
       (fun i =>
          map (fun j =>
                 fold_left
                   (fun acc k => int_wrap (acc + int_wrap (d_get a i k * d_get b k j)))
                   (seq 0 (d_cols a)) 0%Z)
              (seq 0 (d_cols b)))
       (seq 0 (d_rows a))).

(** ** Simplicial complexes and cellular maps

    Shallow embedding of the classes [SimplicialComplex] and [CellularMap].
    A [size_t] is an [N] below [2^64]; a simplex is the vector of its
    vertices. *)

Module Simplicial.

(** [std::numeric_limits<size_t>::max()], the value of [NO_IND]. *)
Definition SIZE_MAX : N := (2 ^ 64 - 1)%N.

(** [x + 1] on [size_t]. *)
Definition size_succ (x : N) : N := ((x + 1) mod 2 ^ 64)%N.

(** [std::sort] on a vector of [size_t]. *)
Definition sort (s : list N) : list N := merge_sort N.le s.

(** The private members: the number of 0-cells, [spx_list[k][i]] the
    [i]-th simplex of dimension [k + 1], and the reverse maps. *)
Record SimplicialComplex : Type := MkCpx {
  ncells0 : N;
  spx_list : list (list (list N));
  spx_to_idx : list (gmap (list N) N)
}.

(** [SimplicialComplex(maxdim)]. *)
Definition new (maxdim : nat) : SimplicialComplex :=
  MkCpx 0 (replicate maxdim []) (replicate maxdim ∅).

(** [find_idx]: [None] is an out-of-range vector access, [Some None] is
    [NO_IND].  On the empty vector [s.size() - 1] wraps to [SIZE_MAX] and
    [spx_to_idx[dim-1]] is out of range. *)
Definition find_idx (X : SimplicialComplex) (s : list N)
    : option (option N) :=
  match s with
  | [] => None
  | [v] => Some (if (v <? ncells0 X)%N then Some v else None)
  | _ :: _ :: _ =>
      m ← spx_to_idx X !! (length s - 2)%nat; Some (m !! s)
  end.

Definition set_ncells0 (X : SimplicialComplex) (n : N)
    : bool * SimplicialComplex :=
  (true, MkCpx n (spx_list X) (spx_to_idx X)).

(** [add_unsafe]: adds a simplex to the complex without doing any
    checks. *)
Definition add_unsafe (X : SimplicialComplex) (s : list N)
    : option (bool * SimplicialComplex) :=
  match s with
  | [] => None
  | [v] =>
      Some (true, MkCpx (N.max (size_succ v) (ncells0 X))
                        (spx_list X) (spx_to_idx X))
  | _ :: _ :: _ =>
      let d := (length s - 2)%nat in
      l ← spx_list X !! d;
      m ← spx_to_idx X !! d;
      Some (true,
            MkCpx (ncells0 X)
                  (<[d := l ++ [s]]> (spx_list X))
                  (<[d := <[s := N.of_nat (length l)]> m]> (spx_to_idx X)))
  end.

(** [while (spx_list.size() < dim)]: both vectors get one empty entry per
    turn. *)
Definition grow (dim : nat) (X : SimplicialComplex) : SimplicialComplex :=
  let k := (dim - length (spx_list X))%nat in
  MkCpx (ncells0 X) (spx_list X ++ replicate k [])
        (spx_to_idx X ++ replicate k ∅).

(** [add]: add simplex to complex with appropriate checks.  On the empty
    vector [dim] is [SIZE_MAX] and the loop that adds dimensions does not
    come to an end within memory: no result. *)
Definition add (X : SimplicialComplex) (s : list N)
    : option (bool * SimplicialComplex) :=
  match s with
  | [] => None
  | [v] =>
      Some (true, MkCpx (N.max (size_succ v) (ncells0 X))
                        (spx_list X) (spx_to_idx X))
  | _ :: _ :: _ =>
      let dim := (length s - 1)%nat in
      let s' := sort s in
      let X1 := grow dim X in
      m ← spx_to_idx X1 !! (dim - 1)%nat;
      match m !! s' with
      | Some _ => Some (false, X1)
      | None => add_unsafe X1 s'
      end
  end.

(** [skeleton0]: return 0-skeleton of cell. *)
Definition skeleton0 (X : SimplicialComplex) (dim : nat) (i : N)
    : option (list N) :=
  match dim with
  | O => Some [i]
  | S d => l ← spx_list X !! d; l !! N.to_nat i
  end.

Definition ncells (X : SimplicialComplex) (dim : nat) : option N :=
  match dim with
  | O => Some (ncells0 X)
  | S d => l ← spx_list X !! d; Some (N.of_nat (length l))
  end.

Definition maxdim (X : SimplicialComplex) : nat := length (spx_list X).

(** The two inner loops of [boundary]: the entries [0 .. k2 - 1] and
    [k2 + 1 .. dim] of the simplex, the face that skips index [k2]. *)
Definition face (dim : nat) (s : list N) (k2 : nat) : list N :=
  take k2 s ++ take (dim - k2) (drop (k2 + 1) s).

(** The loop over the faces, [k] counting up from zero: the face skips
    index [dim - k], and [coeff] changes sign in every turn. *)
Fixpoint boundary_loop (dim : nat) (s : list N) (k cnt : nat) (coeff : Z)
    : list (list N * Z) :=
  match cnt with
  | O => []
  | S cnt' =>
      (face dim s (dim - k), coeff)
      :: boundary_loop dim s (k + 1) cnt' (- coeff)
  end.

(** The value of [coeff] in turn [k]. *)
Definition sign (k : nat) : Z := if Nat.even k then (-1)%Z else 1%Z.

(** The faces of [s] with their coefficients, [int coeff = -1] first. *)
Definition boundary_faces (dim : nat) (s : list N) : list (list N * Z) :=
  boundary_loop dim s 0 (dim + 1) (-1).

(** [boundary(dim, i)]: the vectors [bdr_ind] and [bdr_val] handed to the
    sparse vector constructor, [NO_IND] for a face [find_idx] does not
    find.  No result when a read of [spx_list[dim-1][i][j]] or an access
    of [find_idx] is out of range; in dimension zero the loops read
    nothing and [find_idx] is called on the empty face. *)
Definition boundary (X : SimplicialComplex) (dim : nat) (i : N)
    : option (list N * list Z) :=
  s ← match dim with
       | O => Some []
       | S d =>
           l ← spx_list X !! d;
           s ← l !! N.to_nat i;
           if (length s <? dim + 1)%nat then None else Some s
       end;
  bdr_ind ← mapM (fun fc : list N * Z =>
                    o ← find_idx X fc.1; Some (default SIZE_MAX o))
                 (boundary_faces dim s);
  Some (bdr_ind, (boundary_faces dim s).*2).

(** [boundary(dim)]: one column per cell of dimension [dim]. *)
Definition boundary_matrix (X : SimplicialComplex) (dim : nat)
    : option (list (list N * list Z)) :=
  n ← ncells X dim;
  mapM (fun i => boundary X dim (N.of_nat i)) (seq 0 (N.to_nat n)).

(** The coefficient of the simplex [g] in a formal sum of simplices. *)
Fixpoint coef (g : list N) (L : list (list N * Z)) : Z :=
  match L with
  | [] => 0
  | (f, c) :: L' => ((if decide (f = g) then c else 0) + coef g L')%Z
  end.

(** The boundary of a formal sum of simplices of dimension [dim]. *)
Definition boundary_sum (dim : nat) (L : list (list N * Z))
    : list (list N * Z) :=
  flat_map (fun fc : list N * Z =>
              map (fun gc : list N * Z => (gc.1, (fc.2 * gc.2)%Z))
                  (boundary_faces dim fc.1))
           L.

(** The representation invariant the checked [add] keeps: per dimension
    the reverse map is the inverse of the list, which has no duplicate and
    holds sorted simplices of the right size. *)
Definition cpx_ok (X : SimplicialComplex) : Prop :=
  length (spx_to_idx X) = length (spx_list X)
  /\ forall d l m,
       spx_list X !! d = Some l -> spx_to_idx X !! d = Some m ->
       (forall s i, m !! s = Some i <-> l !! N.to_nat i = Some s)
       /\ (forall s, s ∈ l -> length s = (d + 2)%nat /\ Sorted N.le s).

End Simplicial.

Module Cellular.

Section CellularMap.

(** The matrix type [map_type] and its default-constructed value. *)
Context {M : Type} (empty_matrix : M).

(** [cell_map]: the image of the k-cells, one matrix per dimension. *)
Definition CellularMap : Type := list M.

(** [CellularMap(dim)]: allocate for dim dimensions.  Sizes and indices
    of the vector are natural numbers: a vector holds fewer than [2^64]
    entries. *)
Definition new (dim : nat) : CellularMap := replicate (dim + 1) empty_matrix.

Definition _resize (dim : nat) (cell_map : CellularMap) : CellularMap :=
  resize dim empty_matrix cell_map.

Definition _safe_resize (dim : nat) (cell_map : CellularMap) : CellularMap :=
  if length cell_map <=? dim then _resize dim cell_map else cell_map.

(** The non-const [operator[]]: the vector after [_safe_resize(k)] and the
    entry [cell_map[k]] it refers to, [None] when [k] is out of range. *)
Definition at_ (cell_map : CellularMap) (k : nat) : CellularMap * option M :=
  let cell_map' := _safe_resize k cell_map in
  (cell_map', cell_map' !! k).

(** [maxdim]: [cell_map.size() - 1] on [size_t]. *)
Definition maxdim (cell_map : CellularMap) : N :=
  ((N.of_nat (length cell_map) + 2 ^ 64 - 1) mod 2 ^ 64)%N.

(** [M[k] = x]: the assignment through the reference [operator[]] returns;
    no result when the reference is out of range. *)
Definition assign (cell_map : CellularMap) (k : nat) (x : M)
    : option CellularMap :=
  let '(cell_map', r) := at_ cell_map k in
  match r with
  | Some _ => Some (<[k := x]> cell_map')
  | None => None
  end.

(** [identity(X)]: the identity map of a complex with top dimension
    [maxk] and [ncells k] cells in dimension [k]; [identity_matrix] is
    [map_type::identity]. *)
Definition identity (identity_matrix : N -> M) (ncells : nat -> N)
    (maxk : nat) : option CellularMap :=
  fold_left
    (fun acc k => cm ← acc; assign cm k (identity_matrix (ncells k)))
    (seq 0 (maxk + 1)) (Some (new maxk)).

End CellularMap.

End Cellular.

(** ** Concrete matrices over F5 used as examples *)

(** The 3 x 3 matrix with rows (2 3 4), (1 2 3), (3 0 2). *)
Definition A33 : ColumnMatrix F5 :=
  MkMat 3 3 [[(0, r2); (1, r1); (2, r3)]; [(0, r3); (1, r2)];
             [(0, r4); (1, r3); (2, r2)]]%nat.

(** A 3 x 4 matrix of rank two whose first column is zero. *)
Definition A34 : ColumnMatrix F5 :=
  MkMat 3 4 [[]; [(1, r2); (2, r1)]; [(1, r1); (2, r3)];
             [(0, r1); (1, r4)]]%nat.

(** A 2 x 2 EL-shaped matrix with an entry below the pivot of its first
    column. *)
Definition E_below : ColumnMatrix F5 :=
  MkMat 2 2 [[(0, r1); (1, r1)]; [(1, r2)]]%nat.

(** A 1 x 2 EL-shaped matrix whose zero column comes first. *)
Definition E_gap : ColumnMatrix F5 := MkMat 1 2 [[]; [(0, r2)]]%nat.

(** The E factor of [LEUP A34]: pivots alone, zero columns last. *)
Definition E34 : ColumnMatrix F5 :=
  MkMat 3 4 [[(0, r1)]; [(1, r2)]; []; []]%nat.

(** A 3 x 2 EL-shaped matrix with pivot rows 0 and 2, and a
    lower-unitriangular 2 x 2 matrix. *)
Definition E32 : ColumnMatrix F5 :=
  MkMat 3 2 [[(0, r2)]; [(2, r3)]]%nat.
Definition L22 : ColumnMatrix F5 :=
  MkMat 2 2 [[(0, r1); (1, r4)]; [(1, r1)]]%nat.

(** A 2 x 3 matrix whose transposed conjugate is EL-shaped. *)
Definition E23 : ColumnMatrix F5 :=
  MkMat 2 3 [[]; [(0, r2)]; [(1, r3)]]%nat.

(** A 2 x 1 EL-shaped matrix, to be paired with a 3 x 3 operand. *)
Definition E21 : ColumnMatrix F5 := MkMat 2 1 [[(0, r1)]]%nat.

(** The 1 x 1 matrix (2). *)
Definition E11 : ColumnMatrix F5 := MkMat 1 1 [[(0, r2)]]%nat.

(** [E32] with its pivots set to one, a 2 x 3 matrix whose transposed
    conjugate is that matrix, a lower-unitriangular 3 x 3 matrix, and a
    2 x 3 matrix without entries. *)
Definition E32u : ColumnMatrix F5 := MkMat 3 2 [[(0, r1)]; [(2, r1)]]%nat.
Definition E23u : ColumnMatrix F5 :=
  MkMat 2 3 [[(0, r1)]; []; [(1, r1)]]%nat.
Definition L33 : ColumnMatrix F5 :=
  MkMat 3 3 [[(0, r1); (1, r2)]; [(1, r1)]; [(2, r1)]]%nat.
Definition Z23 : ColumnMatrix F5 := MkMat 2 3 [[]; []; []].

(** A complex with the one edge (1, 2), as [add] builds it from
    [SimplicialComplex(1)]. *)
Definition edge_cpx : Simplicial.SimplicialComplex :=
  Simplicial.MkCpx 0 [[[1; 2]]]%N [<[ [1; 2]%N := 0%N ]> ∅].

(** The matrix of the dense product scenario and its expected square. *)
Definition a1 : Dense :=
  MkDense 3 3 [2; 3; 4;  1; 2; 3;  8; 5; 2]%Z.
Definition a2 : Dense :=
  MkDense 3 3 [39; 32; 25;  28; 22; 16;  37; 44; 51]%Z.

(** * Properties *)

Section Theory.

Context {F : Type} {FF : Field F}.

Local Open Scope F_scope.

Add Field BatsField : Fth.

(** ** Field facts *)

Lemma Fmul_inv_r (a : F) : a <> 0 -> a * Finv a = 1.
Proof. intros Ha. field. exact Ha. Qed.

Lemma Fone_neq_zero : (1 : F) <> 0.
Proof. exact (F_1_neq_0 Fth). Qed.

Lemma Fmul_integral (a b : F) : a * b = 0 -> a = 0 \/ b = 0.
Proof.
  intros Hab. destruct (decide (a = 0)) as [Ha | Ha]; [by left | right].
  assert (b = Finv a * (a * b)) as -> by (field; exact Ha).
  rewrite Hab. ring.
Qed.

Lemma Fmul_neq_0 (a b : F) : a <> 0 -> b <> 0 -> a * b <> 0.
Proof. intros Ha Hb Hab. destruct (Fmul_integral _ _ Hab); contradiction. Qed.

Lemma Finv_neq_0 (a : F) : a <> 0 -> Finv a <> 0.
Proof.
  intros Ha Hi. apply Fone_neq_zero.
  rewrite <- (Fmul_inv_r a Ha), Hi. ring.
Qed.

(** ** Finite sums *)

Lemma fsum_ext n (f g : nat -> F) :
  (forall k, (k < n)%nat -> f k = g k) -> fsum n f = fsum n g.
Proof.
  induction n as [|n IH]; intros H; simpl; [done|].
  rewrite IH by (intros; apply H; lia). rewrite H by lia. done.
Qed.

Lemma fsum_zero n (f : nat -> F) :
  (forall k, (k < n)%nat -> f k = 0) -> fsum n f = 0.
Proof.
  induction n as [|n IH]; intros H; simpl; [done|].
  rewrite IH by (intros; apply H; lia). rewrite H by lia. ring.
Qed.

Lemma fsum_add n (f g : nat -> F) :
  fsum n (fun k => f k + g k) = fsum n f + fsum n g.
Proof. induction n as [|n IH]; simpl; [ring | rewrite IH; ring]. Qed.

Lemma fsum_scal_l n a (f : nat -> F) :
  fsum n (fun k => a * f k) = a * fsum n f.
Proof. induction n as [|n IH]; simpl; [ring | rewrite IH; ring]. Qed.

Lemma fsum_scal_r n a (f : nat -> F) :
  fsum n (fun k => f k * a) = fsum n f * a.
Proof. induction n as [|n IH]; simpl; [ring | rewrite IH; ring]. Qed.

Lemma fsum_single n k0 (f : nat -> F) :
  (k0 < n)%nat -> (forall k, (k < n)%nat -> k <> k0 -> f k = 0) ->
  fsum n f = f k0.
Proof.
  induction n as [|n IH]; intros Hk H; [lia|]. simpl.
  destruct (decide (k0 = n)) as [-> | Hne].
  - rewrite fsum_zero by (intros; apply H; lia). ring.
  - rewrite IH by (intros; try apply H; lia). rewrite (H n) by lia. ring.
Qed.

Lemma fsum_swap n m (f : nat -> nat -> F) :
  fsum n (fun i => fsum m (fun j => f i j))
  = fsum m (fun j => fsum n (fun i => f i j)).
Proof.
  induction n as [|n IH]; simpl.
  - symmetry. by apply fsum_zero.
  - rewrite IH, <- fsum_add. done.
Qed.

Lemma fsum_shift n (f : nat -> F) :
  fsum (S n) f = f O + fsum n (fun k => f (S k)).
Proof.
  induction n as [|n IH]; [simpl; ring|].
  change (fsum (S (S n)) f) with (fsum (S n) f + f (S n)).
  rewrite IH. simpl. ring.
Qed.

Lemma fsum_rev n (f : nat -> F) :
  fsum n (fun k => f (n - 1 - k)%nat) = fsum n f.
Proof.
  induction n as [|n IH]; [done|].
  rewrite fsum_shift. simpl fsum at 2.
  replace (S n - 1 - 0)%nat with n by lia.
  rewrite <- IH.
  rewrite (fsum_ext n (fun k => f (S n - 1 - S k)%nat)
                      (fun k => f (n - 1 - k)%nat)).
  - ring.
  - intros k Hk. f_equal. lia.
Qed.

(** ** Sparse vectors: the invariant and the entry lookup *)

Lemma sv_wf_from_cons lo m k x (v : SparseVector F) :
  sv_wf_from lo m ((k, x) :: v) = true <->
  (lo <= k)%nat /\ (k < m)%nat /\ x <> 0 /\ sv_wf_from (S k) m v = true.
Proof.
  simpl. rewrite !andb_true_iff, Nat.leb_le, Nat.ltb_lt, negb_true_iff,
    bool_decide_eq_false. tauto.
Qed.

Lemma sv_wf_from_weaken lo lo' m m' (v : SparseVector F) :
  sv_wf_from lo m v = true -> (lo' <= lo)%nat -> (m <= m')%nat ->
  sv_wf_from lo' m' v = true.
Proof.
  destruct v as [|[k x] v]; intros H Hlo Hm; [done|].
  apply sv_wf_from_cons in H as (?&?&?&H). apply sv_wf_from_cons.
  repeat split; try lia; try done.
  clear -H Hm. revert k H. induction v as [|[k' x'] v IH]; intros k H; [done|].
  apply sv_wf_from_cons in H as (?&?&?&H). apply sv_wf_from_cons.
  repeat split; try lia; try done. by apply IH.
Qed.

Lemma getval_below lo m (v : SparseVector F) i :
  sv_wf_from lo m v = true -> (i < lo)%nat -> getval v i = 0.
Proof.
  revert lo. induction v as [|[k x] v IH]; intros lo H Hi; [done|].
  apply sv_wf_from_cons in H as (?&?&?&H). simpl.
  destruct (Nat.eqb_spec k i); [lia|]. apply (IH (S k)); [done | lia].
Qed.

Lemma getval_above lo m (v : SparseVector F) i :
  sv_wf_from lo m v = true -> (m <= i)%nat -> getval v i = 0.
Proof.
  revert lo. induction v as [|[k x] v IH]; intros lo H Hi; [done|].
  apply sv_wf_from_cons in H as (?&?&?&H). simpl.
  destruct (Nat.eqb_spec k i); [lia|]. by apply (IH (S k)).
Qed.

Lemma getval_elem lo m (v : SparseVector F) i x :
  sv_wf_from lo m v = true -> (i, x) ∈ v -> getval v i = x /\ x <> 0.
Proof.
  revert lo. induction v as [|[k y] v IH]; intros lo H Hin.
  - by apply not_elem_of_nil in Hin.
  - apply sv_wf_from_cons in H as (?&?&?&H). simpl.
    apply elem_of_cons in Hin as [Heq | Hin].
    + inversion Heq; subst. by rewrite Nat.eqb_refl.
    + destruct (Nat.eqb_spec k i) as [-> | Hne].
      * destruct (IH _ H Hin) as [Hg Hx].
        rewrite (getval_below _ _ _ _ H) in Hg by lia. congruence.
      * by apply (IH (S k)).
Qed.

Lemma getval_nonzero_elem (v : SparseVector F) i :
  getval v i <> 0 -> (i, getval v i) ∈ v.
Proof.
  induction v as [|[k y] v IH]; simpl; [done|].
  destruct (Nat.eqb_spec k i) as [-> | Hne]; intros H.
  - apply list_elem_of_here.
  - apply list_elem_of_further. by apply IH.
Qed.

(** Two well-formed sparse vectors with the same entries are equal. *)
Lemma sv_ext lo m lo' m' (v w : SparseVector F) :
  sv_wf_from lo m v = true -> sv_wf_from lo' m' w = true ->
  (forall i, getval v i = getval w i) -> v = w.
Proof.
  revert lo lo' w. induction v as [|[k x] v IH]; intros lo lo' w Hv Hw He.
  - destruct w as [|[k' x'] w]; [done|].
    apply sv_wf_from_cons in Hw as (?&?&Hx&?).
    specialize (He k'). simpl in He. rewrite Nat.eqb_refl in He. congruence.
  - apply sv_wf_from_cons in Hv as (?&?&Hx&Hv).
    destruct w as [|[k' x'] w].
    { specialize (He k). simpl in He. rewrite Nat.eqb_refl in He. congruence. }
    apply sv_wf_from_cons in Hw as (?&?&Hx'&Hw).
    destruct (lt_eq_lt_dec k k') as [[Hlt | ->] | Hgt].
    + specialize (He k). simpl in He. rewrite Nat.eqb_refl in He.
      destruct (Nat.eqb_spec k' k); [lia|].
      rewrite (getval_below _ _ _ _ Hw) in He by lia. congruence.
    + pose proof (He k') as Hk. simpl in Hk. rewrite Nat.eqb_refl in Hk.
      subst x'. f_equal. apply (IH _ _ _ Hv Hw). intros i.
      destruct (decide (i = k')) as [-> | Hne].
      * rewrite (getval_below _ _ _ _ Hv), (getval_below _ _ _ _ Hw) by lia.
        done.
      * specialize (He i). simpl in He.
        destruct (Nat.eqb_spec k' i); [lia | done].
    + specialize (He k'). simpl in He. rewrite Nat.eqb_refl in He.
      destruct (Nat.eqb_spec k k'); [lia|].
      rewrite (getval_below _ _ _ _ Hv) in He by lia. congruence.
Qed.

Lemma add_entry_wf lo m i c (v : SparseVector F) :
  sv_wf_from lo m v = true -> (lo <= i)%nat -> (i < m)%nat ->
  sv_wf_from lo m (add_entry i c v) = true.
Proof.
  revert lo. induction v as [|[k w] v IH]; intros lo H Hlo Hm; simpl.
  - destruct (decide (c = 0)); [done|]. apply sv_wf_from_cons. done.
  - pose proof H as H0. apply sv_wf_from_cons in H as (?&?&?&H).
    destruct (Nat.ltb_spec i k).
    + destruct (decide (c = 0)); [done|]. apply sv_wf_from_cons.
      repeat split; try done. apply sv_wf_from_cons.
      repeat split; try done; lia.
    + destruct (Nat.eqb_spec i k) as [-> | Hne].
      * destruct (decide (w + c = 0)).
        -- eapply sv_wf_from_weaken; [exact H | lia | lia].
        -- apply sv_wf_from_cons. done.
      * apply sv_wf_from_cons. repeat split; try done. apply IH; [done | lia | done].
Qed.

Lemma getval_add_entry lo m i c (v : SparseVector F) k :
  sv_wf_from lo m v = true ->
  getval (add_entry i c v) k = getval v k + (if decide (i = k) then c else 0).
Proof.
  revert lo. induction v as [|[j w] v IH]; intros lo H; simpl.
  - destruct (decide (c = 0)) as [-> | Hc]; simpl.
    + destruct (decide (i = k)); ring.
    + destruct (Nat.eqb_spec i k), (decide (i = k)); try lia; ring.
  - pose proof H as H0. apply sv_wf_from_cons in H as (?&?&?&H).
    destruct (Nat.ltb_spec i j).
    + destruct (decide (c = 0)) as [-> | Hc]; simpl.
      * destruct (decide (i = k)); ring.
      * destruct (Nat.eqb_spec i k) as [-> | Hne], (decide (_ = k)); try lia.
        -- destruct (Nat.eqb_spec j k); [lia|].
           rewrite (getval_below _ _ _ _ H) by lia. ring.
        -- ring.
    + destruct (Nat.eqb_spec i j) as [-> | Hne].
      * destruct (decide (w + c = 0)) as [Hz | Hz]; simpl.
        -- destruct (Nat.eqb_spec j k) as [-> | Hjk], (decide (_ = k)); try lia.
           ++ rewrite (getval_below _ _ _ _ H) by lia. by rewrite Hz.
           ++ ring.
        -- destruct (Nat.eqb_spec j k) as [-> | Hjk], (decide (_ = k)); try lia; ring.
      * simpl. destruct (Nat.eqb_spec j k) as [-> | Hjk].
        -- destruct (decide (i = k)); [lia | ring].
        -- by apply (IH (S j)).
Qed.

Lemma axpy_wf a (x : SparseVector F) first last lo m (y : SparseVector F) :
  sv_wf_from lo m y = true -> (lo <= first)%nat -> (last <= m)%nat ->
  sv_wf_from lo m (axpy a x first last y) = true.
Proof.
  unfold axpy. revert y. induction x as [|[i u] x IH]; intros y Hy Hlo Hm; [done|].
  simpl. apply IH; try done.
  destruct (Nat.leb_spec first i), (Nat.ltb_spec i last); simpl; try done.
  apply add_entry_wf; [done | lia | lia].
Qed.

Lemma getval_axpy a (x : SparseVector F) first last lx mx m
    (y : SparseVector F) k :
  sv_wf_from lx mx x = true -> sv_wf m y = true -> (last <= m)%nat ->
  getval (axpy a x first last y) k
  = getval y k
    + (if (first <=? k) && (k <? last) then a * getval x k else 0).
Proof.
  unfold axpy, sv_wf. revert lx y.
  induction x as [|[i u] x IH]; intros lx y Hx Hy Hm.
  - simpl. destruct (_ && _); ring.
  - apply sv_wf_from_cons in Hx as (?&?&?&Hx). simpl fold_left.
    rewrite (IH (S i)); [| done | | done].
    2:{ destruct (Nat.leb_spec first i), (Nat.ltb_spec i last); simpl; try done.
        apply add_entry_wf; [done | lia | lia]. }
    simpl getval. destruct (Nat.eqb_spec i k) as [-> | Hne].
    + rewrite (getval_below _ _ _ _ Hx) by lia.
      destruct (Nat.leb_spec first k), (Nat.ltb_spec k last); simpl;
        try ring.
      rewrite (getval_add_entry _ _ _ _ _ _ Hy).
      destruct (decide (k = k)); [ring | done].
    + destruct (Nat.leb_spec first i), (Nat.ltb_spec i last); simpl;
        try done.
      rewrite (getval_add_entry _ _ _ _ _ _ Hy).
      destruct (decide (i = k)); [done|]. ring.
Qed.

Lemma axpy_hist_from_wf k0 (x : SparseVector F) coeff pivs m
    (y : SparseVector F) :
  sv_wf m y = true ->
  (k0 + Nat.min (length coeff) (length pivs) <= m)%nat ->
  sv_wf m (axpy_hist_from k0 x coeff pivs y) = true.
Proof.
  unfold sv_wf. revert k0 pivs y.
  induction coeff as [|c coeff IH]; intros k0 pivs y Hy Hm; [done|].
  destruct pivs as [|p pivs]; [done|]. simpl in *.
  apply IH; [|lia]. apply add_entry_wf; [done | lia | lia].
Qed.

Lemma getval_axpy_hist_from k0 (x : SparseVector F) coeff pivs m
    (y : SparseVector F) k :
  sv_wf m y = true ->
  (k0 + Nat.min (length coeff) (length pivs) <= m)%nat ->
  getval (axpy_hist_from k0 x coeff pivs y) k
  = getval y k
    + (if decide (k0 <= k < k0 + Nat.min (length coeff) (length pivs))%nat
       then nth (k - k0) coeff 0 * getval x (nth (k - k0) pivs O)
       else 0).
Proof.
  unfold sv_wf. revert k0 pivs y.
  induction coeff as [|c coeff IH]; intros k0 pivs y Hy Hm.
  { simpl. case_decide; [lia | ring]. }
  destruct pivs as [|p pivs].
  { simpl. case_decide; [lia | ring]. }
  simpl in Hm. simpl axpy_hist_from.
  rewrite IH; [| apply add_entry_wf; [done | lia | lia] | lia].
  rewrite (getval_add_entry _ _ _ _ _ _ Hy). simpl length.
  destruct (decide (k0 = k)) as [-> | Hne].
  - replace (k - k)%nat with O by lia. simpl.
    repeat case_decide; try lia. ring.
  - repeat case_decide; try lia; try ring.
    replace (k - k0)%nat with (S (k - S k0)) by lia. simpl. ring.
Qed.

Lemma lower_bound_Some lo m (v : SparseVector F) i0 r x :
  sv_wf_from lo m v = true -> lower_bound v i0 = Some (r, x) ->
  (i0 <= r)%nat /\ (r < m)%nat /\ getval v r = x /\ x <> 0
  /\ forall k, (i0 <= k < r)%nat -> getval v k = 0.
Proof.
  unfold lower_bound. revert lo.
  induction v as [|[k y] v IH]; intros lo H Hf; [done|].
  apply sv_wf_from_cons in H as (?&?&?&H). simpl in Hf.
  destruct (Nat.leb_spec i0 k).
  - inversion Hf; subst. simpl. rewrite Nat.eqb_refl.
    repeat split; try done. intros k' Hk'.
    destruct (Nat.eqb_spec r k'); [lia|].
    apply (getval_below _ _ _ _ H). lia.
  - destruct (IH _ H Hf) as (?&?&?&?&Hz). simpl.
    destruct (Nat.eqb_spec k r); [lia|]. repeat split; try done.
    intros k' Hk'. destruct (Nat.eqb_spec k k'); [lia|]. by apply Hz.
Qed.

Lemma lower_bound_None lo m (v : SparseVector F) i0 :
  sv_wf_from lo m v = true -> lower_bound v i0 = None ->
  forall k, (i0 <= k)%nat -> getval v k = 0.
Proof.
  unfold lower_bound. revert lo.
  induction v as [|[j y] v IH]; intros lo H Hf k Hk; [done|].
  apply sv_wf_from_cons in H as (?&?&?&H). simpl in Hf.
  destruct (Nat.leb_spec i0 j); [done|]. simpl.
  destruct (Nat.eqb_spec j k); [lia|]. by apply (IH (S j)).
Qed.

Lemma lower_bound_intro lo m (v : SparseVector F) i0 r :
  sv_wf_from lo m v = true -> (i0 <= r)%nat -> getval v r <> 0 ->
  (forall k, (i0 <= k < r)%nat -> getval v k = 0) ->
  lower_bound v i0 = Some (r, getval v r).
Proof.
  intros H Hr Hnz Hz.
  destruct (lower_bound v i0) as [[r' x]|] eqn:Hlb.
  - destruct (lower_bound_Some _ _ _ _ _ _ H Hlb) as (?&?&Hg&Hx&Hz').
    destruct (lt_eq_lt_dec r r') as [[Hlt | ->] | Hgt].
    + rewrite Hz' in Hnz by lia. done.
    + by rewrite Hg.
    + rewrite Hz in Hg by lia. congruence.
  - rewrite (lower_bound_None _ _ _ _ H Hlb) in Hnz by lia. done.
Qed.

(** ** Column matrices: invariant, entry access, extensionality *)

Lemma mcol_lookup (A : ColumnMatrix F) j v :
  col A !! j = Some v -> mcol A j = v.
Proof. unfold mcol. apply list_lookup_total_correct. Qed.

Lemma mcol_lookup_lt (A : ColumnMatrix F) j :
  (j < length (col A))%nat -> col A !! j = Some (mcol A j).
Proof. unfold mcol. apply list_lookup_lookup_total_lt. Qed.

Lemma mcol_ge (A : ColumnMatrix F) j :
  (length (col A) <= j)%nat -> mcol A j = [].
Proof.
  intros H. unfold mcol. rewrite list_lookup_total_alt.
  by rewrite (lookup_ge_None_2 _ _ H).
Qed.

Lemma mat_wf_iff (A : ColumnMatrix F) :
  mat_wf A = true <->
  length (col A) = ncol A /\ forall j, sv_wf (nrow A) (mcol A j) = true.
Proof.
  unfold mat_wf. rewrite andb_true_iff, Nat.eqb_eq, forallb_forall.
  split; intros [Hl H]; split; try done.
  - intros j. destruct (decide (j < length (col A))%nat) as [Hj | Hj].
    + apply H, list_elem_of_In, list_elem_of_lookup. exists j.
      by apply mcol_lookup_lt.
    + rewrite mcol_ge by lia. done.
  - intros v Hv. apply list_elem_of_In, list_elem_of_lookup in Hv as [j Hj].
    rewrite <- (mcol_lookup _ _ _ Hj). apply H.
Qed.

Lemma mat_wf_length (A : ColumnMatrix F) :
  mat_wf A = true -> length (col A) = ncol A.
Proof. intros H. by apply mat_wf_iff in H as [? _]. Qed.

Lemma mat_wf_col (A : ColumnMatrix F) j :
  mat_wf A = true -> sv_wf (nrow A) (mcol A j) = true.
Proof. intros H. apply mat_wf_iff in H as [_ H]. apply H. Qed.

Lemma get_row_ge (A : ColumnMatrix F) i j :
  mat_wf A = true -> (nrow A <= i)%nat -> get A i j = 0.
Proof.
  intros H Hi. unfold get. eapply getval_above; [|exact Hi].
  apply (mat_wf_col _ j H).
Qed.

Lemma get_col_ge (A : ColumnMatrix F) i j :
  mat_wf A = true -> (ncol A <= j)%nat -> get A i j = 0.
Proof.
  intros H Hj. unfold get. rewrite mcol_ge; [done|].
  rewrite (mat_wf_length _ H). done.
Qed.

(** Two well-formed matrices of the same shape with the same entries are
    the same matrix: exact equality [==] is entry-wise equality. *)
Lemma mat_ext (A B : ColumnMatrix F) :
  mat_wf A = true -> mat_wf B = true ->
  nrow A = nrow B -> ncol A = ncol B ->
  (forall i j, (i < nrow A)%nat -> (j < ncol A)%nat -> get A i j = get B i j) ->
  A = B.
Proof.
  intros HA HB Hm Hn He.
  pose proof (mat_wf_length _ HA) as HlA.
  pose proof (mat_wf_length _ HB) as HlB.
  destruct A as [m n cA], B as [m' n' cB]; simpl in *; subst m' n'.
  f_equal. apply list_eq. intros j.
  destruct (decide (j < n)%nat) as [Hj | Hj].
  - pose proof (mcol_lookup_lt (MkMat m n cA) j) as H1.
    pose proof (mcol_lookup_lt (MkMat m n cB) j) as H2.
    simpl in H1, H2. rewrite H1, H2 by lia. f_equal.
    eapply sv_ext; [apply (mat_wf_col _ j HA) | apply (mat_wf_col _ j HB) |].
    intros i. destruct (decide (i < m)%nat) as [Hi | Hi].
    + apply (He i j Hi Hj).
    + change (get (MkMat m n cA) i j = get (MkMat m n cB) i j).
      rewrite !get_row_ge; simpl; try done; lia.
  - rewrite !lookup_ge_None_2 by lia. done.
Qed.

Lemma mcol_set_col_eq (A : ColumnMatrix F) j v :
  (j < length (col A))%nat -> mcol (set_col A j v) j = v.
Proof. intros H. unfold mcol, set_col; simpl. by apply list_lookup_total_insert_eq. Qed.

Lemma mcol_set_col_ne (A : ColumnMatrix F) j j' v :
  j <> j' -> mcol (set_col A j v) j' = mcol A j'.
Proof. intros H. unfold mcol, set_col; simpl. by apply list_lookup_total_insert_ne. Qed.

Lemma set_col_wf (A : ColumnMatrix F) j v :
  mat_wf A = true -> sv_wf (nrow A) v = true -> mat_wf (set_col A j v) = true.
Proof.
  intros HA Hv. apply mat_wf_iff. apply mat_wf_iff in HA as [Hl Hc].
  split; [simpl; by rewrite length_insert|]. intros j'. simpl.
  unfold mcol, set_col; simpl. rewrite list_lookup_total_insert.
  case_decide; [done | apply Hc].
Qed.

Lemma mcol_swap_cols (A : ColumnMatrix F) j j2 c :
  (j < length (col A))%nat -> (j2 < length (col A))%nat ->
  mcol (swap_cols A j j2) c
  = mcol A (if decide (c = j) then j2 else if decide (c = j2) then j else c).
Proof.
  intros Hj Hj2. unfold swap_cols, mcol at 1; simpl.
  rewrite !list_lookup_total_insert, length_insert.
  repeat case_decide; try lia; subst; try done.
  destruct H as [-> _]. done.
Qed.

Lemma swap_cols_wf (A : ColumnMatrix F) j j2 :
  mat_wf A = true -> mat_wf (swap_cols A j j2) = true.
Proof.
  intros HA. apply mat_wf_iff. pose proof HA as HA'.
  apply mat_wf_iff in HA as [Hl Hc].
  split; [simpl; by rewrite !length_insert|]. intros c. simpl.
  unfold swap_cols, mcol at 1; simpl.
  rewrite !list_lookup_total_insert. repeat case_decide; apply Hc.
Qed.

Lemma mcol_identity n j :
  (j < n)%nat -> mcol (identity n) j = [(j, 1)].
Proof.
  intros H. apply mcol_lookup. unfold identity; simpl.
  rewrite list_lookup_fmap, lookup_seq_lt by done. done.
Qed.

Lemma identity_wf n : mat_wf (identity n) = true.
Proof.
  apply mat_wf_iff. split.
  - simpl. by rewrite length_fmap, length_seq.
  - intros j. destruct (decide (j < n)%nat).
    + rewrite mcol_identity by done. apply sv_wf_from_cons.
      repeat split; try lia; try done. apply Fone_neq_zero.
    + rewrite mcol_ge; [done|]. simpl. rewrite length_fmap, length_seq. lia.
Qed.

Lemma get_identity n i j :
  get (identity n) i j = if decide (i = j /\ (j < n)%nat) then 1 else 0.
Proof.
  unfold get. destruct (decide (j < n)%nat).
  - rewrite mcol_identity by done. simpl.
    destruct (Nat.eqb_spec j i); case_decide; try done; lia.
  - rewrite mcol_ge; [|simpl; rewrite length_fmap, length_seq; lia].
    case_decide; [lia | done].
Qed.

Lemma sv_of_fun_aux lo len (f : nat -> F) :
  let v := omap (fun i => if decide (f i = 0) then None else Some (i, f i))
                (seq lo len) in
  sv_wf_from lo (lo + len) v = true
  /\ forall i, getval v i
               = if decide (lo <= i < lo + len)%nat then f i else 0.
Proof.
  revert lo. induction len as [|len IH]; intros lo; simpl.
  - split; [done|]. intros i. case_decide; [lia | done].
  - destruct (IH (S lo)) as [Hwf Hget].
    destruct (decide (f lo = 0)) as [Hz | Hz].
    + split.
      * eapply sv_wf_from_weaken; [exact Hwf | lia | lia].
      * intros i. rewrite Hget. repeat case_decide; try lia; try done.
        assert (i = lo) as -> by lia. done.
    + split.
      * apply sv_wf_from_cons. repeat split; try lia; try done.
        eapply sv_wf_from_weaken; [exact Hwf | lia | lia].
      * intros i. simpl. destruct (Nat.eqb_spec lo i) as [-> | Hne].
        -- case_decide; [done | lia].
        -- rewrite Hget. repeat case_decide; try lia; done.
Qed.

Lemma sv_of_fun_wf m (f : nat -> F) : sv_wf m (sv_of_fun m f) = true.
Proof. apply (sv_of_fun_aux 0 m f). Qed.

Lemma getval_sv_of_fun m (f : nat -> F) i :
  getval (sv_of_fun m f) i = if decide (i < m)%nat then f i else 0.
Proof.
  unfold sv_of_fun. destruct (sv_of_fun_aux 0 m f) as [_ H]. rewrite H.
  repeat case_decide; try lia; done.
Qed.

Lemma sv_of_fun_ext m (f g : nat -> F) :
  (forall i, (i < m)%nat -> f i = g i) -> sv_of_fun m f = sv_of_fun m g.
Proof.
  intros H. eapply sv_ext; try apply sv_of_fun_wf.
  intros i. rewrite !getval_sv_of_fun. case_decide; [by apply H | done].
Qed.

Lemma mcol_of_fun m n (f : nat -> nat -> F) j :
  (j < n)%nat -> mcol (of_fun m n f) j = sv_of_fun m (fun i => f i j).
Proof.
  intros H. apply mcol_lookup. unfold of_fun; simpl.
  rewrite list_lookup_fmap, lookup_seq_lt by done. done.
Qed.

Lemma of_fun_wf m n (f : nat -> nat -> F) : mat_wf (of_fun m n f) = true.
Proof.
  apply mat_wf_iff. split.
  - simpl. by rewrite length_fmap, length_seq.
  - intros j. destruct (decide (j < n)%nat).
    + rewrite mcol_of_fun by done. apply sv_of_fun_wf.
    + rewrite mcol_ge; [done|]. simpl. rewrite length_fmap, length_seq. lia.
Qed.

Lemma get_of_fun m n (f : nat -> nat -> F) i j :
  get (of_fun m n f) i j
  = if decide ((i < m)%nat /\ (j < n)%nat) then f i j else 0.
Proof.
  unfold get. destruct (decide (j < n)%nat).
  - rewrite mcol_of_fun, getval_sv_of_fun by done.
    repeat case_decide; try done; tauto.
  - rewrite mcol_ge; [|simpl; rewrite length_fmap, length_seq; lia].
    case_decide; [tauto | done].
Qed.

Lemma of_fun_ext m n (f g : nat -> nat -> F) :
  (forall i j, (i < m)%nat -> (j < n)%nat -> f i j = g i j) ->
  of_fun m n f = of_fun m n g.
Proof.
  intros H. apply mat_ext; try apply of_fun_wf; try done.
  simpl. intros i j Hi Hj. rewrite !get_of_fun.
  case_decide; [by apply H | done].
Qed.

(** A well-formed matrix is rebuilt from its entries. *)
Lemma of_fun_get (A : ColumnMatrix F) :
  mat_wf A = true -> of_fun (nrow A) (ncol A) (get A) = A.
Proof.
  intros H. apply mat_ext; try apply of_fun_wf; try done.
  simpl. intros i j Hi Hj. rewrite get_of_fun. case_decide; [done | tauto].
Qed.

(** ** Transpose and conjugation *)

Lemma T_wf (A : ColumnMatrix F) : mat_wf (T A) = true.
Proof. apply of_fun_wf. Qed.

Lemma J_wf (A : ColumnMatrix F) : mat_wf (J_conjugation A) = true.
Proof. apply of_fun_wf. Qed.

Lemma get_T (A : ColumnMatrix F) i j :
  (i < ncol A)%nat -> (j < nrow A)%nat -> get (T A) i j = get A j i.
Proof. intros Hi Hj. unfold T. rewrite get_of_fun. case_decide; [done | tauto]. Qed.

Lemma get_J (A : ColumnMatrix F) i j :
  (i < nrow A)%nat -> (j < ncol A)%nat ->
  get (J_conjugation A) i j = get A (nrow A - 1 - i) (ncol A - 1 - j).
Proof.
  intros Hi Hj. unfold J_conjugation. rewrite get_of_fun.
  case_decide; [done | tauto].
Qed.

Lemma T_T (A : ColumnMatrix F) : mat_wf A = true -> T (T A) = A.
Proof.
  intros H. apply mat_ext; try apply T_wf; try done.
  simpl. intros i j Hi Hj. rewrite get_T by (simpl; lia).
  rewrite get_T by (simpl; lia). done.
Qed.

Lemma J_J (A : ColumnMatrix F) :
  mat_wf A = true -> J_conjugation (J_conjugation A) = A.
Proof.
  intros H. apply mat_ext; try apply J_wf; try done.
  simpl. intros i j Hi Hj. rewrite get_J by (simpl; lia). simpl.
  rewrite get_J by (simpl; lia). f_equal; lia.
Qed.

(** Transpose and conjugation commute. *)
Lemma T_J_comm (A : ColumnMatrix F) :
  T (J_conjugation A) = J_conjugation (T A).
Proof.
  unfold T at 1, J_conjugation at 2. simpl. apply of_fun_ext.
  intros i j Hi Hj. simpl in Hi, Hj.
  rewrite get_J by lia. rewrite get_T by (simpl; lia). done.
Qed.

Lemma T_identity n : T (identity n) = identity n.
Proof.
  apply mat_ext; try apply T_wf; try apply identity_wf; try done.
  simpl. intros i j Hi Hj. rewrite get_T by (simpl; lia).
  rewrite !get_identity. repeat case_decide; try done; lia.
Qed.

Lemma J_identity n : J_conjugation (identity n) = identity n.
Proof.
  apply mat_ext; try apply J_wf; try apply identity_wf; try done.
  simpl. intros i j Hi Hj. rewrite get_J by (simpl; lia). simpl.
  rewrite !get_identity. repeat case_decide; try done; lia.
Qed.

(** ** The matrix product *)

Lemma fsum_getval_cons n k0 u (x : SparseVector F) (g : nat -> F) :
  sv_wf_from (S k0) n x = true -> (k0 < n)%nat ->
  fsum n (fun k => g k * getval ((k0, u) :: x) k)
  = g k0 * u + fsum n (fun k => g k * getval x k).
Proof.
  intros Hx Hk.
  assert (g k0 * u
          = fsum n (fun k => if decide (k = k0) then g k0 * u else 0)) as ->.
  { rewrite (fsum_single n k0); [by case_decide | done |].
    intros k _ Hne. by case_decide. }
  rewrite <- fsum_add. apply fsum_ext. intros k _. simpl.
  destruct (Nat.eqb_spec k0 k) as [<- | Hne].
  - rewrite (getval_below _ _ _ _ Hx) by lia. case_decide; [ring | done].
  - case_decide; [lia | ring].
Qed.

Lemma mul_col_aux (A : ColumnMatrix F) lx (x acc : SparseVector F) :
  mat_wf A = true -> sv_wf_from lx (ncol A) x = true ->
  sv_wf (nrow A) acc = true ->
  let r := fold_left (fun acc e => axpy e.2 (mcol A e.1) 0 (nrow A) acc) x acc in
  sv_wf (nrow A) r = true
  /\ forall i, getval r i
               = getval acc i + fsum (ncol A) (fun k => get A i k * getval x k).
Proof.
  intros HA. revert lx acc.
  induction x as [|[k0 u] x IH]; intros lx acc Hx Hacc; simpl.
  - split; [done|]. intros i. rewrite fsum_zero by (intros; ring). ring.
  - apply sv_wf_from_cons in Hx as (?&?&?&Hx).
    assert (sv_wf (nrow A) (axpy u (mcol A k0) 0 (nrow A) acc) = true) as Hacc'.
    { apply axpy_wf; [done | lia | lia]. }
    destruct (IH _ _ Hx Hacc') as [Hwf Hget]. split; [done|].
    intros i. rewrite Hget.
    rewrite (getval_axpy _ _ _ _ _ _ _ _ _ (mat_wf_col A k0 HA) Hacc) by lia.
    pose proof (fsum_getval_cons (ncol A) k0 u x (get A i) Hx) as Hc.
    simpl in Hc. rewrite Hc by done. unfold get at 2.
    destruct (Nat.ltb_spec i (nrow A)); simpl.
    + ring.
    + rewrite (getval_above _ _ _ _ (mat_wf_col A k0 HA)) by lia. ring.
Qed.

Lemma mcol_mmul (A B : ColumnMatrix F) j :
  (j < length (col B))%nat -> mcol (mmul A B) j = mul_col A (mcol B j).
Proof.
  intros H. apply mcol_lookup. unfold mmul; simpl.
  rewrite list_lookup_fmap, (mcol_lookup_lt B j H). done.
Qed.

Lemma mmul_wf (A B : ColumnMatrix F) :
  mat_wf A = true -> mat_wf B = true -> nrow B = ncol A ->
  mat_wf (mmul A B) = true.
Proof.
  intros HA HB Hd. apply mat_wf_iff. split.
  - simpl. rewrite length_fmap. by apply mat_wf_length.
  - intros j. destruct (decide (j < length (col B))%nat) as [Hj | Hj].
    + rewrite mcol_mmul by done. simpl.
      eapply (mul_col_aux A 0 (mcol B j) []); try done.
      rewrite <- Hd. apply (mat_wf_col B j HB).
    + rewrite mcol_ge; [done|]. simpl. rewrite length_fmap. lia.
Qed.

Lemma get_mmul (A B : ColumnMatrix F) i j :
  mat_wf A = true -> mat_wf B = true -> nrow B = ncol A ->
  get (mmul A B) i j = fsum (ncol A) (fun k => get A i k * get B k j).
Proof.
  intros HA HB Hd. destruct (decide (j < length (col B))%nat) as [Hj | Hj].
  - unfold get at 1. rewrite mcol_mmul by done.
    destruct (mul_col_aux A 0 (mcol B j) [] HA) as [_ Hget]; try done.
    { rewrite <- Hd. apply (mat_wf_col B j HB). }
    unfold mul_col. rewrite Hget. simpl. unfold get. ring.
  - unfold get at 1. rewrite mcol_ge by (simpl; rewrite length_fmap; lia).
    simpl. symmetry. apply fsum_zero. intros k _.
    rewrite (get_col_ge B) by (try done; rewrite <- (mat_wf_length B HB); lia).
    ring.
Qed.

Lemma mmul_assoc (A B C : ColumnMatrix F) :
  mat_wf A = true -> mat_wf B = true -> mat_wf C = true ->
  nrow B = ncol A -> nrow C = ncol B ->
  mmul (mmul A B) C = mmul A (mmul B C).
Proof.
  intros HA HB HC H1 H2.
  apply mat_ext; try done; repeat apply mmul_wf; try done.
  simpl. intros i j Hi Hj. rewrite !get_mmul; try done; try by apply mmul_wf.
  simpl.
  rewrite (fsum_ext _ _ (fun k => fsum (ncol A)
             (fun l => get A i l * get B l k * get C k j))).
  2:{ intros k _. rewrite get_mmul by done. by rewrite fsum_scal_r. }
  rewrite fsum_swap. apply fsum_ext. intros l _.
  rewrite get_mmul by done. rewrite <- fsum_scal_l.
  apply fsum_ext. intros k _. ring.
Qed.

Lemma T_mmul (A B : ColumnMatrix F) :
  mat_wf A = true -> mat_wf B = true -> nrow B = ncol A ->
  T (mmul A B) = mmul (T B) (T A).
Proof.
  intros HA HB Hd.
  apply mat_ext; try apply T_wf; try (apply mmul_wf; try apply T_wf; done);
    try done.
  simpl. intros i j Hi Hj. rewrite get_T by (simpl; lia).
  rewrite !get_mmul; try apply T_wf; try done. simpl.
  rewrite Hd. apply fsum_ext. intros k Hk.
  rewrite !get_T by lia. ring.
Qed.

Lemma J_mmul (A B : ColumnMatrix F) :
  mat_wf A = true -> mat_wf B = true -> nrow B = ncol A ->
  J_conjugation (mmul A B) = mmul (J_conjugation A) (J_conjugation B).
Proof.
  intros HA HB Hd.
  apply mat_ext; try apply J_wf; try (apply mmul_wf; try apply J_wf; done);
    try done.
  simpl. intros i j Hi Hj. rewrite get_J by (simpl; lia).
  rewrite !get_mmul; try apply J_wf; try done. simpl.
  rewrite <- fsum_rev. apply fsum_ext. intros k Hk.
  rewrite !get_J by lia. rewrite Hd. done.
Qed.

(** ** The reduction kernel *)

Lemma fsum_two n a b (f : nat -> F) :
  (a < n)%nat -> (b < n)%nat -> a <> b ->
  (forall k, (k < n)%nat -> k <> a -> k <> b -> f k = 0) ->
  fsum n f = f a + f b.
Proof.
  intros Ha Hb Hab H.
  rewrite (fsum_ext n f (fun k => (if decide (k = a) then f a else 0)
                                  + (if decide (k = b) then f b else 0))).
  - rewrite fsum_add, (fsum_single n a), (fsum_single n b); try done.
    + by repeat case_decide.
    + intros k _ Hk. by case_decide.
    + intros k _ Hk. by case_decide.
  - intros k Hk. repeat case_decide; subst; try done; try ring.
    rewrite H by done. ring.
Qed.

Lemma lbrow_Some lo m (v : SparseVector F) i r :
  sv_wf_from lo m v = true -> lbrow v i = Some r ->
  (i <= r < m)%nat /\ getval v r <> 0
  /\ forall k, (i <= k < r)%nat -> getval v k = 0.
Proof.
  unfold lbrow. intros Hv H.
  destruct (lower_bound v i) as [[r' x]|] eqn:Hlb; [|done].
  simpl in H. inversion H; subst.
  destruct (lower_bound_Some _ _ _ _ _ _ Hv Hlb) as (?&?&Hg&?&?).
  rewrite Hg. done.
Qed.

Lemma lbrow_None lo m (v : SparseVector F) i :
  sv_wf_from lo m v = true -> lbrow v i = None ->
  forall k, (i <= k)%nat -> getval v k = 0.
Proof.
  unfold lbrow. intros Hv H.
  destruct (lower_bound v i) as [[r' x]|] eqn:Hlb; [done|].
  by apply (lower_bound_None _ _ _ _ Hv Hlb).
Qed.

Lemma lbrow_intro lo m (v : SparseVector F) i r :
  sv_wf_from lo m v = true -> (i <= r)%nat -> getval v r <> 0 ->
  (forall k, (i <= k < r)%nat -> getval v k = 0) ->
  lbrow v i = Some r.
Proof.
  intros Hv Hr Hnz Hz. unfold lbrow.
  by rewrite (lower_bound_intro _ _ _ _ _ Hv Hr Hnz Hz).
Qed.

Lemma lbrow_None_intro lo m (v : SparseVector F) i :
  sv_wf_from lo m v = true ->
  (forall k, (i <= k)%nat -> getval v k = 0) -> lbrow v i = None.
Proof.
  intros Hv Hz. destruct (lbrow v i) as [r|] eqn:H; [|done].
  destruct (lbrow_Some _ _ _ _ _ Hv H) as (?&Hnz&_).
  rewrite Hz in Hnz by lia. done.
Qed.

Lemma lbrow_ext lo m lo' m' (v w : SparseVector F) i :
  sv_wf_from lo m v = true -> sv_wf_from lo' m' w = true ->
  (forall k, (i <= k)%nat -> getval v k = getval w k) ->
  lbrow v i = lbrow w i.
Proof.
  intros Hv Hw He. destruct (lbrow v i) as [r|] eqn:H.
  - destruct (lbrow_Some _ _ _ _ _ Hv H) as (?&Hnz&Hz). symmetry.
    eapply lbrow_intro; [exact Hw | lia | |].
    + rewrite <- He by lia. done.
    + intros k Hk. rewrite <- He by lia. by apply Hz.
  - symmetry. eapply lbrow_None_intro; [exact Hw|].
    intros k Hk. rewrite <- He by lia.
    by apply (lbrow_None _ _ _ _ Hv H).
Qed.

Lemma lbrow_shift lo m (v : SparseVector F) i :
  sv_wf_from lo m v = true -> getval v i = 0 -> lbrow v i = lbrow v (S i).
Proof.
  intros Hv Hz. destruct (lbrow v (S i)) as [r|] eqn:H.
  - destruct (lbrow_Some _ _ _ _ _ Hv H) as (?&Hnz&Hz').
    eapply lbrow_intro; [exact Hv | lia | done |].
    intros k Hk. destruct (decide (k = i)) as [-> | Hne]; [done|].
    apply Hz'. lia.
  - eapply lbrow_None_intro; [exact Hv|]. intros k Hk.
    destruct (decide (k = i)) as [-> | Hne]; [done|].
    apply (lbrow_None _ _ _ _ Hv H). lia.
Qed.

Lemma lbrow_self lo m (v : SparseVector F) i :
  sv_wf_from lo m v = true -> (getval v i <> 0 <-> lbrow v i = Some i).
Proof.
  intros Hv. split.
  - intros Hnz. eapply lbrow_intro; [exact Hv | lia | done | intros; lia].
  - intros H. by destruct (lbrow_Some _ _ _ _ _ Hv H) as (?&?&?).
Qed.

Lemma update_pivot_lbrow (A : ColumnMatrix F) p2c j i0 :
  update_pivot A p2c j i0
  = match lbrow (mcol A j) i0 with
    | Some r => <[r := bucket p2c r ++ [j]]> p2c
    | None => p2c
    end.
Proof. unfold update_pivot, lbrow. by destruct (lower_bound _ _). Qed.

Lemma delete_pivot_lbrow (A : ColumnMatrix F) p2c j i0 :
  delete_pivot A p2c j i0
  = match lbrow (mcol A j) i0 with
    | Some r => <[r := erase_first j (bucket p2c r)]> p2c
    | None => p2c
    end.
Proof. unfold delete_pivot, lbrow. by destruct (lower_bound _ _). Qed.

Lemma bucket_insert p2c r cs r' :
  bucket (<[r := cs]> p2c) r' = if decide (r = r') then cs else bucket p2c r'.
Proof.
  unfold bucket. rewrite lookup_insert. by case_decide.
Qed.

Lemma bucket_delete p2c r r' :
  bucket (delete r p2c) r' = if decide (r = r') then [] else bucket p2c r'.
Proof.
  unfold bucket. rewrite lookup_delete. by case_decide.
Qed.

(** The effect of the elimination recorded in column [i] of L on one
    column: the new L applied to the updated column is the old L applied
    to the old column. *)
Lemma L_step_col (L : ColumnMatrix F) m i a11 (x : SparseVector F)
    (v v' : nat -> F) r :
  mat_wf L = true -> nrow L = m -> ncol L = m ->
  (i < m)%nat -> (r < m)%nat ->
  (forall t, (i <= t < m)%nat -> mcol L t = [(t, 1)]) ->
  sv_wf m x = true -> a11 <> 0 ->
  (forall t, (t <= i)%nat -> v' t = v t) ->
  (forall t, (i < t < m)%nat -> v' t = v t - (v i / a11) * getval x t) ->
  fsum m (fun t =>
            get (set_col L i (axpy (Finv a11) x (i + 1) m (mcol L i))) r t
            * v' t)
  = fsum m (fun t => get L r t * v t).
Proof.
  intros HL Hm Hn Hi Hr Hid Hx Ha Hle Hgt.
  set (L' := set_col L i _).
  assert (length (col L) = m) as Hlen by (rewrite <- Hn; by apply mat_wf_length).
  assert (forall t, t <> i -> get L' r t = get L r t) as Hne.
  { intros t Ht. unfold get, L'. by rewrite mcol_set_col_ne. }
  assert (get L' r i
          = (if decide (i = r) then 1 else 0)
            + (if decide (i < r)%nat then Finv a11 * getval x r else 0)) as Hi'.
  { unfold get, L'. rewrite mcol_set_col_eq by lia.
    rewrite (getval_axpy _ _ _ _ 0 m m _ _ Hx); [|by rewrite Hid by lia; apply sv_wf_from_cons; repeat split; try lia; try done; apply Fone_neq_zero | lia].
    rewrite Hid by lia. simpl.
    destruct (Nat.eqb_spec i r), (decide (i = r)); try lia;
      destruct (Nat.leb_spec (i + 1) r), (Nat.ltb_spec r m), (decide (i < r)%nat);
      simpl; try lia; ring. }
  assert (forall t, (i <= t < m)%nat ->
                    get L r t = if decide (t = r) then 1 else 0) as HLid.
  { intros t Ht. unfold get. rewrite Hid by done. simpl.
    destruct (Nat.eqb_spec t r), (decide (t = r)); try done; lia. }
  rewrite (fsum_ext m _ (fun t => get L r t * v t
                                  + (get L' r t * v' t - get L r t * v t)))
    by (intros; ring).
  rewrite fsum_add.
  assert (fsum m (fun t => get L' r t * v' t - get L r t * v t) = 0) as ->;
    [|ring].
  destruct (decide (r <= i)%nat) as [Hri | Hri].
  - apply fsum_zero. intros t Ht.
    destruct (lt_eq_lt_dec t i) as [[Hlt | ->] | Hgt'].
    + rewrite Hne, Hle by lia. ring.
    + rewrite Hi', Hle, (HLid i) by lia. clear Hi'.
      repeat case_decide; try lia; ring.
    + rewrite Hne, (HLid t) by lia. clear Hi'. case_decide; [lia | ring].
  - rewrite (fsum_two m i r); try lia.
    + rewrite Hi', (Hle i), (HLid i), (Hne r), (HLid r), (Hgt r) by lia.
      clear Hi'. repeat case_decide; try lia. field. done.
    + intros t Ht Hti Htr. clear Hi'.
      destruct (decide (t < i)%nat).
      * rewrite Hne, Hle by lia. ring.
      * rewrite Hne, (HLid t) by lia. case_decide; [lia | ring].
Qed.

(** *** The pivot map *)

Lemma erase_first_spec j (cs : list nat) :
  NoDup cs ->
  NoDup (erase_first j cs)
  /\ forall c, c ∈ erase_first j cs <-> (c ∈ cs /\ c <> j).
Proof.
  induction cs as [|x cs IH]; intros Hnd; simpl.
  - split; [constructor|]. intros c. split; [by intros ?%not_elem_of_nil | tauto].
  - apply NoDup_cons in Hnd as [Hx Hnd]. destruct (IH Hnd) as [IH1 IH2].
    destruct (decide (x = j)) as [-> | Hne].
    + split; [done|]. intros c. rewrite elem_of_cons. split.
      * intros Hc. split; [tauto|]. intros ->. done.
      * intros [[-> | Hc] Hcj]; done.
    + split.
      * apply NoDup_cons. split; [|done]. rewrite IH2. tauto.
      * intros c. rewrite !elem_of_cons, IH2. split.
        -- intros [-> | [? ?]]; tauto.
        -- intros [[-> | ?] ?]; tauto.
Qed.

Lemma fold_update_pivot_bucket (E : ColumnMatrix F) i' todo p2c r :
  bucket (fold_left (fun p c => update_pivot E p c i') todo p2c) r
  = bucket p2c r ++ filter (fun c => lbrow (mcol E c) i' = Some r) todo.
Proof.
  revert p2c. induction todo as [|c todo IH]; intros p2c; simpl.
  - by rewrite filter_nil, app_nil_r.
  - rewrite IH, update_pivot_lbrow, filter_cons.
    destruct (lbrow (mcol E c) i') as [r0|] eqn:Hlb.
    + rewrite bucket_insert.
      destruct (decide (r0 = r)) as [-> | Hne].
      * rewrite decide_True by done. by rewrite <- app_assoc.
      * rewrite decide_False by congruence. done.
    + rewrite decide_False by done. done.
Qed.

Lemma fold_update_pivot_nonempty (E : ColumnMatrix F) i' todo p2c :
  (forall r, p2c !! r <> Some []) ->
  forall r, fold_left (fun p c => update_pivot E p c i') todo p2c !! r
            <> Some [].
Proof.
  revert p2c. induction todo as [|c todo IH]; intros p2c Hne; simpl; [done|].
  apply IH. intros r. rewrite update_pivot_lbrow.
  destruct (lbrow (mcol E c) i') as [r0|]; [|done].
  rewrite lookup_insert. case_decide; [|done].
  intros Heq. inversion Heq as [Heq']. by apply app_eq_nil in Heq' as [_ ?].
Qed.

Lemma get_pivots_P2C (A : ColumnMatrix F) :
  mat_wf A = true -> P2C (ncol A) A (get_pivots A) 0 0.
Proof.
  intros HA. unfold get_pivots.
  assert (forall r, bucket (fold_left (fun p c => update_pivot A p c 0)
                              (seq 0 (ncol A)) ∅) r
                    = filter (fun c => lbrow (mcol A c) 0 = Some r)
                             (seq 0 (ncol A))) as Hb.
  { intros r. rewrite fold_update_pivot_bucket. unfold bucket.
    by rewrite lookup_empty. }
  constructor.
  - intros r. rewrite Hb. apply NoDup_filter, NoDup_seq.
  - apply fold_update_pivot_nonempty. intros r. by rewrite lookup_empty.
  - intros r c. rewrite Hb, list_elem_of_filter, elem_of_seq.
    split; intros [? ?]; (split; [lia || done | lia || done]).
Qed.

(** *** A row without pivot *)

Lemma In_pivs_lt (pivs : list nat) i r :
  (forall k, (k < length pivs)%nat -> (nth k pivs O < i)%nat) ->
  In r pivs -> (r < i)%nat.
Proof.
  intros H Hin. destruct (In_nth _ _ O Hin) as (k & Hk & <-). by apply H.
Qed.

Lemma skip_row_inv (A : ColumnMatrix F) sigma tau (s : LEUP_state) :
  Inv A sigma tau s ->
  P2C (ncol A) (sE s) (sp2c s) (si s) (sj s) ->
  (si s < nrow A)%nat ->
  sp2c s !! si s = None ->
  Inv A sigma tau (skip_row s)
  /\ P2C (ncol A) (sE s) (sp2c s) (si s + 1) (sj s).
Proof.
  intros HInv HP Hi Hnone.
  assert (forall c, (sj s <= c < ncol A)%nat -> get (sE s) (si s) c = 0) as Hz.
  { intros c Hc. destruct (decide (get (sE s) (si s) c = 0)) as [|Hnz]; [done|].
    exfalso. unfold get in Hnz.
    apply (lbrow_self _ _ _ _ (mat_wf_col _ c (inv_E_wf _ _ _ _ HInv))) in Hnz.
    assert (c ∈ bucket (sp2c s) (si s)) as Hin by (apply (p2c_mem _ _ _ _ _ HP); done).
    unfold bucket in Hin. rewrite Hnone in Hin. simpl in Hin.
    by apply not_elem_of_nil in Hin. }
  split.
  - destruct HInv. constructor; simpl; try done.
    + lia.
    + intros k Hk. specialize (inv_pivs_lt0 k Hk). lia.
    + intros c r Hc Hr Hnz. destruct (decide (r = si s)) as [-> | Hne].
      * rewrite Hz in Hnz by done. done.
      * apply (inv_Eact0 c r); [done | lia | done].
  - destruct HP as [Hnd Hne Hmem]. constructor; try done.
    intros r c. rewrite Hmem. split; intros [Hc Hlb]; split; try done.
    + rewrite Nat.add_1_r, <- Hlb. symmetry.
      eapply lbrow_shift; [apply (mat_wf_col _ c (inv_E_wf _ _ _ _ HInv))|].
      by apply Hz.
    + rewrite Nat.add_1_r in Hlb. rewrite <- Hlb.
      eapply lbrow_shift; [apply (mat_wf_col _ c (inv_E_wf _ _ _ _ HInv))|].
      by apply Hz.
Qed.

(** *** Bringing the pivot column to position [j] *)

Lemma sw_invol j j2 c : sw j j2 (sw j j2 c) = c.
Proof. unfold sw. repeat case_decide; congruence. Qed.

Lemma sw_lt j j2 c n :
  (j < n)%nat -> (j2 < n)%nat -> (c < n)%nat -> (sw j j2 c < n)%nat.
Proof. unfold sw. repeat case_decide; lia. Qed.

Lemma sw_small j j2 c : (c < j)%nat -> (c < j2)%nat -> sw j j2 c = c.
Proof. unfold sw. repeat case_decide; lia. Qed.

Lemma swap_pivot_inv (A : ColumnMatrix F) sigma tau (s : LEUP_state) cs :
  Inv A sigma tau s ->
  P2C (ncol A) (sE s) (sp2c s) (si s) (sj s) ->
  (si s < nrow A)%nat -> (sj s < ncol A)%nat ->
  sp2c s !! si s = Some cs ->
  let s1 := swap_pivot s (hd O cs) in
  (exists sigma' tau', Inv A sigma' tau' s1)
  /\ PostSwap (ncol A) (sE s1) (sp2c s1) (si s) (sj s)
  /\ si s1 = si s /\ sj s1 = sj s
  /\ spivs s1 = spivs s /\ scoeff s1 = scoeff s.
Proof.
  intros HInv HP Hi Hj Hcs.
  destruct s as [L E U P p2c pivs coeff i j]; simpl in *.
  destruct HP as [Hnd Hne Hmem].
  assert (bucket p2c i = cs) as Hb by (unfold bucket; by rewrite Hcs).
  destruct cs as [|j2 tl0]; [by apply Hne in Hcs|]. simpl hd.
  pose proof (Hnd i) as Hndi. rewrite Hb in Hndi.
  apply NoDup_cons in Hndi as [Hj2tl Hndtl].
  assert ((j <= j2 < ncol A)%nat /\ lbrow (mcol E j2) i = Some i) as [Hj2 Hlb2].
  { apply Hmem. rewrite Hb. apply list_elem_of_here. }
  pose proof (inv_E_wf _ _ _ _ HInv) as HEwf. simpl in HEwf.
  assert (forall c, sv_wf (nrow E) (mcol E c) = true) as HEcol
    by (intros; by apply mat_wf_col).
  assert (length (col E) = ncol A) as HElen.
  { rewrite (mat_wf_length _ HEwf). apply (inv_E_ncol _ _ _ _ HInv). }
  unfold swap_pivot; simpl. destruct (decide (j2 = j)) as [-> | Hjj2].
  { (* the pivot column is already in place *)
    simpl. split; [by exists sigma, tau|]. split; [|done].
    constructor; try done.
    - by apply (lbrow_self _ _ _ _ (HEcol j)).
    - by rewrite Hb.
    - intros c. rewrite Hb. simpl. split.
      + intros Hc.
        assert (c ∈ bucket p2c i) as Hc'
          by (rewrite Hb; by apply list_elem_of_further).
        apply Hmem in Hc' as [Hcr Hlb].
        split; [|by apply (lbrow_self _ _ _ _ (HEcol c))].
        assert (c <> j) by (intros ->; done). lia.
      + intros [Hcr Hnz].
        apply (lbrow_self _ _ _ _ (HEcol c)) in Hnz.
        assert (c ∈ bucket p2c i) as Hc' by (apply Hmem; split; [lia | done]).
        rewrite Hb in Hc'. apply elem_of_cons in Hc' as [-> | ?]; [lia | done].
    - intros r c Hr. rewrite Hmem. split; intros [Hcr Hlb]; split; try done;
        try lia.
      assert (c <> j) by (intros ->; congruence). lia. }
  (* a genuine exchange of columns j and j2 *)
  assert (j < j2)%nat as Hlt by lia.
  set (E1 := swap_cols E j j2).
  assert (forall c, mcol E1 c = mcol E (sw j j2 c)) as HE1.
  { intros c. unfold E1. rewrite mcol_swap_cols by lia. done. }
  assert (mat_wf E1 = true) as HE1wf by (by apply swap_cols_wf).
  set (o := lbrow (mcol E j) i).
  set (p2c1 := update_pivot E1 (delete_pivot E p2c j i) j2 i).
  assert (forall r, bucket p2c1 r
                    = if decide (o = Some r)
                      then erase_first j (bucket p2c r) ++ [j2]
                      else bucket p2c r) as Hb1.
  { intros r. unfold p2c1.
    rewrite update_pivot_lbrow, delete_pivot_lbrow, HE1.
    replace (sw j j2 j2) with j by (unfold sw; repeat case_decide; lia).
    fold o. destruct o as [r0|]; [|by rewrite decide_False].
    rewrite !bucket_insert.
    destruct (decide (r0 = r)) as [-> | Hne0].
    - rewrite !decide_True by done. done.
    - rewrite (decide_False (P := Some r0 = Some r)) by congruence. done. }
  assert (forall r, p2c1 !! r <> Some []) as Hne1.
  { intros r. unfold p2c1.
    rewrite update_pivot_lbrow, delete_pivot_lbrow, HE1.
    replace (sw j j2 j2) with j by (unfold sw; repeat case_decide; lia).
    fold o. destruct o as [r0|]; [|done].
    rewrite lookup_insert. case_decide; [|rewrite lookup_insert; case_decide; [lia | done]].
    intros Heq. inversion Heq as [Heq']. by apply app_eq_nil in Heq' as [_ ?]. }
  assert (forall r, j ∈ bucket p2c r <-> o = Some r) as Hjmem.
  { intros r. rewrite Hmem. unfold o. split; [tauto | intros; split; [lia | done]]. }
  assert (forall r c, c ∈ bucket p2c1 r <->
            ((c <> j /\ c ∈ bucket p2c r) \/ (c = j2 /\ o = Some r))) as Hmem1.
  { intros r c. rewrite Hb1. destruct (decide (o = Some r)) as [Ho | Ho].
    - rewrite elem_of_app, list_elem_of_singleton.
      rewrite (proj2 (erase_first_spec j _ (Hnd r))). tauto.
    - split; [|tauto]. intros Hc. left. split; [|done].
      intros ->. by apply Ho, Hjmem. }
  simpl. split; [|split; [|done]].
  - (* the invariant, under the composed permutation *)
    exists (fun c => sigma (sw j j2 c)), (fun c => sw j j2 (tau c)).
    destruct HInv; simpl in *. constructor; simpl; try done.
    + by rewrite !length_insert.
    + intros c Hc. destruct (inv_Efin0 c Hc) as (a & Ha1 & Ha2).
      exists a. rewrite HE1, sw_small by lia. done.
    + intros c Hc. rewrite HE1, sw_small by lia. by apply inv_Ezero0.
    + intros c r Hc Hr. unfold get. rewrite HE1.
      apply inv_Eact0; [|done]. unfold sw. repeat case_decide; lia.
    + intros c Hc. rewrite mcol_swap_cols by lia. fold (sw j j2 c).
      apply inv_perm_col0. apply sw_lt; lia.
    + intros c Hc. apply inv_sigma_lt0. apply sw_lt; lia.
    + intros c Hc. apply sw_lt; try lia. by apply inv_tau_lt0.
    + intros c Hc. rewrite inv_tau_sigma0 by (apply sw_lt; lia).
      apply sw_invol.
    + intros c Hc. rewrite sw_invol. by apply inv_sigma_tau0.
    + intros c r Hc Hr. rewrite sw_small by lia.
      rewrite inv_main_fin0 by done. apply fsum_ext. intros t _.
      f_equal. unfold Xfin. apply fsum_ext. intros k Hk.
      unfold get. rewrite HE1, sw_small by lia. done.
    + intros c r Hc Hr.
      rewrite inv_main_act0; [|unfold sw; repeat case_decide; lia | done].
      apply fsum_ext. intros t _. unfold get. rewrite HE1. done.
  - (* the pivot map *)
    assert (forall c, c <> j -> c <> j2 -> mcol E1 c = mcol E c) as HE1ne.
    { intros c ? ?. rewrite HE1. unfold sw. by rewrite !decide_False. }
    assert (mcol E1 j2 = mcol E j) as HE1j2.
    { rewrite HE1. unfold sw. rewrite decide_False by lia.
      by rewrite decide_True. }
    assert (mcol E1 j = mcol E j2) as HE1j.
    { rewrite HE1. unfold sw. by rewrite decide_True. }
    constructor; try done.
    + unfold get. rewrite HE1j. by apply (lbrow_self _ _ _ _ (HEcol j2)).
    + rewrite Hb1, Hb. destruct (decide (o = Some i)) as [Ho | Ho]; simpl.
      * rewrite decide_False by done. simpl.
        destruct (erase_first_spec j tl0 Hndtl) as [Hnd' Hmem'].
        apply NoDup_app. split; [done|]. split; [|apply NoDup_singleton].
        intros c Hc Hc2. apply list_elem_of_singleton in Hc2 as ->.
        apply Hmem' in Hc as [? _]. done.
      * done.
    + intros c. rewrite Hb1, Hb.
      assert (c ∈ tl0 <-> (c <> j2 /\ (j <= c < ncol A)%nat
                           /\ lbrow (mcol E c) i = Some i)) as Htl.
      { rewrite <- Hmem, Hb, elem_of_cons. split.
        - intros Hc. split; [intros ->; done | by right].
        - intros [? [-> | ?]]; done. }
      destruct (decide (o = Some i)) as [Ho | Ho]; simpl.
      * rewrite decide_False by done. simpl.
        rewrite elem_of_app, list_elem_of_singleton.
        rewrite (proj2 (erase_first_spec j tl0 Hndtl)), Htl.
        destruct (decide (c = j2)) as [-> | Hc2].
        -- split; [|tauto]. intros _. split; [lia|]. unfold get.
           rewrite HE1j2. by apply (lbrow_self _ _ _ _ (HEcol j)).
        -- destruct (decide (c = j)) as [-> | Hc1].
           ++ split; [tauto | lia].
           ++ unfold get. rewrite HE1ne by done.
              rewrite <- (lbrow_self _ _ _ _ (HEcol c)).
              split; [intros [[[? [? ?]] ?] | ?]; [split; [lia | done] | done]
                     | intros [? ?]; left; repeat split; try done; lia].
      * rewrite Htl. destruct (decide (c = j2)) as [-> | Hc2].
        -- split; [tauto|]. intros [_ Hnz]. exfalso. apply Ho.
           unfold get in Hnz. rewrite HE1j2 in Hnz.
           by apply (lbrow_self _ _ _ _ (HEcol j)).
        -- destruct (decide (c = j)) as [-> | Hc1].
           ++ split; [|lia]. intros (_ & _ & Hlb). by apply Ho in Hlb.
           ++ unfold get. rewrite HE1ne by done.
              rewrite <- (lbrow_self _ _ _ _ (HEcol c)).
              split; [intros (? & ? & ?); split; [lia | done]
                     | intros [? ?]; repeat split; try done; lia].
    + intros r Hr. rewrite Hb1. destruct (decide (o = Some r)) as [Ho | Ho].
      * destruct (erase_first_spec j _ (Hnd r)) as [Hnd' Hmem'].
        apply NoDup_app. split; [done|]. split; [|apply NoDup_singleton].
        intros c Hc Hc2. apply list_elem_of_singleton in Hc2 as ->.
        apply Hmem' in Hc as [Hc _]. apply Hmem in Hc as [_ Hc]. congruence.
      * apply Hnd.
    + intros r c Hr. rewrite Hmem1, Hmem.
      destruct (decide (c = j2)) as [-> | Hc2].
      * rewrite HE1j2. fold o. split.
        -- intros [(_ & _ & Hlb) | [_ Ho]]; [congruence | split; [lia | done]].
        -- intros [_ Ho]. by right.
      * destruct (decide (c = j)) as [-> | Hc1].
        -- split; [intros [[? _] | [? _]]; done | lia].
        -- rewrite HE1ne by done. split.
           ++ intros [(_ & ? & ?) | [? _]]; [split; [lia | done] | done].
           ++ intros [? ?]. left. repeat split; try done; lia.
Qed.

(** *** The Schur complement update *)

Lemma update_pivot_ext (E E' : ColumnMatrix F) p2c c i' :
  mcol E c = mcol E' c -> update_pivot E p2c c i' = update_pivot E' p2c c i'.
Proof. intros H. unfold update_pivot. by rewrite H. Qed.

Lemma fold_update_pivot_ext (E E' : ColumnMatrix F) todo p2c i' :
  (forall c, c ∈ todo -> mcol E c = mcol E' c) ->
  fold_left (fun p c => update_pivot E p c i') todo p2c
  = fold_left (fun p c => update_pivot E' p c i') todo p2c.
Proof.
  revert p2c. induction todo as [|c todo IH]; intros p2c H; simpl; [done|].
  rewrite (update_pivot_ext E E') by (apply H, list_elem_of_here).
  apply IH. intros c' Hc'. by apply H, list_elem_of_further.
Qed.

Lemma schur_fold (m i j : nat) (a11 : F) todo :
  forall (E' : ColumnMatrix F) p',
  mat_wf E' = true -> nrow E' = m -> NoDup todo ->
  (forall c, c ∈ todo -> c <> j /\ (c < length (col E'))%nat) ->
  let R := fold_left (schur_update m i j a11) todo (E', p') in
  mat_wf R.1 = true /\ nrow R.1 = nrow E' /\ ncol R.1 = ncol E'
  /\ (forall c, c ∉ todo -> mcol R.1 c = mcol E' c)
  /\ (forall c, c ∈ todo ->
        mcol R.1 c
        = axpy (- (get E' i c / a11)) (mcol E' j) (i + 1) m (mcol E' c))
  /\ R.2 = fold_left (fun p c => update_pivot R.1 p c (i + 1)) todo p'.
Proof.
  induction todo as [|jj todo IH]; intros E' p' Hwf Hm Hnd Hin; simpl.
  - repeat split; try done. intros c Hc. by apply not_elem_of_nil in Hc.
  - apply NoDup_cons in Hnd as [Hjj Hnd].
    destruct (Hin jj (list_elem_of_here _ _)) as [Hjjj Hjjlt].
    set (E'' := set_col E' jj
                  (axpy (- (get E' i jj / a11)) (mcol E' j) (i + 1) m (mcol E' jj))).
    change (schur_update m i j a11 (E', p') jj)
      with (E'', update_pivot E'' p' jj (i + 1)).
    assert (mat_wf E'' = true) as Hwf''.
    { apply set_col_wf; [done|]. rewrite Hm. apply axpy_wf; [|lia|lia].
      rewrite <- Hm. by apply mat_wf_col. }
    destruct (IH E'' (update_pivot E'' p' jj (i + 1)) Hwf'') as
      (H1 & H2 & H3 & H4 & H5 & H6); try done.
    { intros c Hc. destruct (Hin c (list_elem_of_further _ _ _ Hc)).
      split; [done|]. unfold E''. simpl. by rewrite length_insert. }
    set (R := fold_left (schur_update m i j a11) todo
                (E'', update_pivot E'' p' jj (i + 1))) in *.
    assert (mcol E'' j = mcol E' j) as Hj''
      by (unfold E''; by rewrite mcol_set_col_ne).
    repeat split; try done.
    + intros c Hc. rewrite not_elem_of_cons in Hc. destruct Hc as [Hc1 Hc2].
      rewrite H4 by done. unfold E''. by rewrite mcol_set_col_ne.
    + intros c Hc. apply elem_of_cons in Hc as [-> | Hc].
      * rewrite H4 by done. unfold E''. by rewrite mcol_set_col_eq.
      * assert (c <> jj) by (intros ->; done).
        rewrite H5 by done. rewrite Hj''. unfold get, E''.
        by rewrite !mcol_set_col_ne.
    + rewrite H6. f_equal. apply update_pivot_ext.
      rewrite H4 by done. done.
Qed.

Lemma fsum_pivs (pivs : list nat) t (y : F) :
  (forall k k', (k < k' < length pivs)%nat ->
                (nth k pivs O < nth k' pivs O)%nat) ->
  fsum (length pivs) (fun k => if decide (nth k pivs O = t) then y else 0)
  = if decide (t ∈ pivs) then y else 0.
Proof.
  intros Hinc. destruct (decide (t ∈ pivs)) as [Hin | Hin].
  - apply list_elem_of_In in Hin.
    destruct (In_nth _ _ O Hin) as (k0 & Hk0 & Hnth).
    rewrite (fsum_single _ k0); [by rewrite decide_True | done |].
    intros k Hk Hne. rewrite decide_False; [done|]. intros Heq.
    destruct (lt_eq_lt_dec k k0) as [[Hlt | ->] | Hgt]; [| done |].
    + specialize (Hinc k k0). lia.
    + specialize (Hinc k0 k). lia.
  - apply fsum_zero. intros k Hk. rewrite decide_False; [done|].
    intros <-. apply Hin, list_elem_of_In. by apply nth_In.
Qed.

(** *** One elimination step *)

Lemma nth_snoc {X : Type} (l : list X) (y d : X) k :
  nth k (l ++ [y]) d
  = if decide (k < length l)%nat then nth k l d
    else if decide (k = length l) then y else d.
Proof.
  destruct (decide (k < length l)%nat) as [Hk | Hk].
  - by apply app_nth1.
  - rewrite app_nth2 by lia. destruct (decide (k = length l)) as [-> | Hne].
    + by rewrite Nat.sub_diag.
    + destruct (k - length l)%nat as [|[|k']] eqn:Hd; simpl; try done. lia.
Qed.

Lemma getval_single i (a : F) t :
  getval [(i, a)] t = if decide (t = i) then a else 0.
Proof.
  simpl. destruct (Nat.eqb_spec i t); case_decide; try done; lia.
Qed.

Lemma eliminate_inv (A : ColumnMatrix F) sigma tau (s : LEUP_state) :
  Inv A sigma tau s ->
  PostSwap (ncol A) (sE s) (sp2c s) (si s) (sj s) ->
  (si s < nrow A)%nat -> (sj s < ncol A)%nat ->
  length (spivs s) = sj s ->
  let s' := eliminate (nrow A) s in
  Inv A sigma tau s'
  /\ P2C (ncol A) (sE s') (sp2c s') (si s + 1) (sj s + 1)
  /\ length (spivs s') = (sj s + 1)%nat.
Proof.
  intros HInv HPS Hi Hj Hnp.
  destruct s as [L E U P p2c pivs coeff i j]; simpl in *.
  destruct HPS as [Hpiv Hne Htlnd Htlmem Hond Homem].
  destruct HInv; simpl in *.
  set (x := mcol E j). set (a11 := get E i j) in *.
  set (tl := tail (bucket p2c i)) in *.
  assert (length (col E) = ncol A) as HElen
    by (by rewrite (mat_wf_length _ inv_E_wf0)).
  assert (length (col L) = nrow A) as HLlen
    by (by rewrite (mat_wf_length _ inv_L_wf0)).
  assert (length (col U) = ncol A) as HUlen
    by (by rewrite (mat_wf_length _ inv_U_wf0)).
  assert (forall c, sv_wf (nrow A) (mcol E c) = true) as HEcol.
  { intros c. rewrite <- inv_E_nrow0. by apply mat_wf_col. }
  pose proof (HEcol j : sv_wf (nrow A) x = true) as Hx.
  assert (forall r, In r pivs -> (r < i)%nat) as Hpivlt
    by (intros r; by apply In_pivs_lt).
  assert (~ In i pivs) as Hinot by (intros H%Hpivlt; lia).
  assert (mcol L i = [(i, 1)]) as HLi by (by apply inv_Lid0).
  assert (mcol U j = [(j, 1)]) as HUj by (apply inv_Uid0; lia).
  destruct (schur_fold (nrow A) i j a11 tl E p2c)
    as (HRwf & HRnr & HRnc & HRout & HRin & HR2); try done.
  { intros c Hc. apply Htlmem in Hc as [? ?]. split; lia. }
  unfold eliminate; simpl. fold x a11 tl.
  set (R := fold_left (schur_update (nrow A) i j a11) tl (E, p2c)) in *.
  assert (length (col R.1) = ncol A) as HRlen.
  { rewrite (mat_wf_length _ HRwf). congruence. }
  assert (j ∉ tl) as Hjtl by (intros H%Htlmem; lia).
  assert (mcol R.1 j = x) as F1 by (by apply HRout).
  assert (forall c, (c < j)%nat -> mcol R.1 c = mcol E c) as F3.
  { intros c Hc. apply HRout. intros H%Htlmem. lia. }
  assert (forall c t, (j < c < ncol A)%nat ->
            getval (mcol R.1 c) t
            = get E t c
              - (if decide (i < t)%nat then (get E i c / a11) * getval x t
                 else 0)) as F2.
  { intros c t Hc. destruct (decide (c ∈ tl)) as [Hin | Hin].
    - rewrite HRin by done. fold x.
      rewrite (getval_axpy _ _ _ _ _ _ _ _ _ Hx (HEcol c)) by lia.
      destruct (Nat.leb_spec (i + 1) t), (Nat.ltb_spec t (nrow A)),
        (decide (i < t)%nat); simpl; try lia; unfold get;
        try (field; done).
      rewrite (getval_above _ _ _ _ Hx) by lia. field. done.
    - rewrite HRout by done.
      assert (get E i c = 0) as Hz.
      { destruct (decide (get E i c = 0)); [done|].
        exfalso. apply Hin, Htlmem. done. }
      rewrite Hz. unfold get. case_decide; field; done. }
  set (L1 := set_col L i (axpy (Finv a11) (mcol R.1 j) (i + 1) (nrow A) (mcol L i))).
  set (E3 := set_col R.1 j [(i, a11)]).
  set (U1 := set_col U j (axpy_hist (mcol E j) coeff pivs (mcol U j))).
  assert (forall t c, c <> j -> get E3 t c = getval (mcol R.1 c) t) as HE3ne.
  { intros t c Hc. unfold get, E3. by rewrite mcol_set_col_ne. }
  assert (forall t, get E3 t j = if decide (t = i) then a11 else 0) as HE3j.
  { intros t. unfold get, E3. rewrite mcol_set_col_eq by lia.
    apply getval_single. }
  assert (forall k c, c <> j -> get U1 k c = get U k c) as HU1ne.
  { intros k c Hc. unfold get, U1. by rewrite mcol_set_col_ne. }
  assert (sv_wf (ncol A) (mcol U j) = true) as HUjwf.
  { rewrite <- inv_U_nrow0. by apply mat_wf_col. }
  assert (forall k, get U1 k j
            = (if decide (k = j) then 1 else 0)
              + (if decide (k < j)%nat
                 then nth k coeff 0 * getval x (nth k pivs O) else 0)) as HU1j.
  { intros k. unfold get, U1. rewrite mcol_set_col_eq by lia.
    unfold axpy_hist.
    rewrite (getval_axpy_hist_from 0 _ _ _ (ncol A) _ _ HUjwf) by lia.
    rewrite HUj, getval_single, inv_coeff_len0, Nat.min_id, Hnp.
    rewrite Nat.sub_0_r. fold x.
    destruct (decide (k = j)), (decide (k < j)%nat);
      repeat case_decide; try lia; ring. }
  assert (forall r c, c <> i -> get L1 r c = get L r c) as HL1ne.
  { intros r c Hc. unfold get, L1. by rewrite mcol_set_col_ne. }
  assert (forall r, get L1 r i
            = (if decide (r = i) then 1 else 0)
              + (if decide (i < r < nrow A)%nat
                 then Finv a11 * getval x r else 0)) as HL1i.
  { intros r. unfold get, L1. rewrite mcol_set_col_eq by lia.
    rewrite F1.
    rewrite (getval_axpy _ _ _ _ _ _ (nrow A) _ _ Hx) by
      (try lia; rewrite HLi; apply sv_wf_from_cons;
       repeat split; try lia; try done; apply Fone_neq_zero).
    rewrite HLi, getval_single.
    destruct (Nat.leb_spec (i + 1) r), (Nat.ltb_spec r (nrow A));
      repeat case_decide; simpl; try lia; ring. }
  assert (forall t c, (c < j)%nat ->
            Xfin E3 U1 (length (pivs ++ [i])) t c
            = Xfin E U (length pivs) t c) as HXold.
  { intros t c Hc. unfold Xfin. rewrite length_app. simpl.
    rewrite Nat.add_1_r. simpl. rewrite Hnp.
    rewrite HE3j, HU1ne by lia.
    assert (get U j c = 0) as ->.
    { destruct (decide (get U j c = 0)) as [|Hnz]; [done|].
      apply inv_Uup0 in Hnz. lia. }
    rewrite (fsum_ext j _ (fun k => get E t k * get U k c)).
    - ring.
    - intros k Hk. rewrite HE3ne, F3, HU1ne by lia. done. }
  assert (forall t, Xfin E3 U1 (length (pivs ++ [i])) t j
            = (if decide (t ∈ pivs) then getval x t else 0)
              + (if decide (t = i) then a11 else 0)) as HXnew.
  { intros t. unfold Xfin. rewrite length_app. simpl.
    rewrite Nat.add_1_r. simpl. rewrite Hnp.
    rewrite HE3j, HU1j. rewrite (decide_True (P := j = j)) by done.
    rewrite (decide_False (P := (j < j)%nat)) by lia.
    rewrite <- (fsum_pivs pivs t (getval x t) inv_pivs_inc0), Hnp.
    rewrite (fsum_ext j _ (fun k => if decide (nth k pivs O = t)
                                    then getval x t else 0)).
    - case_decide; ring.
    - intros k Hk. rewrite HE3ne, F3, HU1j by lia.
      destruct (inv_Efin0 k) as (a & Ha1 & Ha2); [lia|].
      unfold get. rewrite Ha1, getval_single, Ha2.
      assert (a <> 0) as Hanz.
      { pose proof (HEcol k) as Hw. rewrite Ha1 in Hw.
        by apply sv_wf_from_cons in Hw as (_ & _ & ? & _). }
      rewrite (decide_False (P := k = j)) by lia.
      rewrite (decide_True (P := (k < j)%nat)) by lia.
      destruct (decide (t = nth k pivs O)) as [-> | Hne'].
      + rewrite decide_True by done. field. done.
      + rewrite decide_False by congruence. ring. }
  split; [|split].
  - (* the invariant *)
    constructor; simpl; try done.
    + apply set_col_wf; [done|]. rewrite inv_L_nrow0.
      apply axpy_wf; [|lia|lia]. rewrite <- inv_L_nrow0. by apply mat_wf_col.
    + apply set_col_wf; [done|]. rewrite HRnr, inv_E_nrow0.
      apply sv_wf_from_cons. repeat split; try lia; done.
    + congruence.
    + congruence.
    + apply set_col_wf; [done|]. rewrite inv_U_nrow0.
      apply axpy_hist_from_wf; [done|]. simpl. lia.
    + lia.
    + lia.
    + rewrite length_app. simpl. lia.
    + rewrite !length_app. simpl. lia.
    + intros k Hk. rewrite length_app in Hk. simpl in Hk.
      rewrite nth_snoc. repeat case_decide; try lia.
      specialize (inv_pivs_lt0 k). lia.
    + intros k k' Hk. rewrite length_app in Hk. simpl in Hk.
      rewrite !nth_snoc. repeat case_decide; try lia.
      * apply inv_pivs_inc0. lia.
      * apply inv_pivs_lt0. lia.
    + intros c Hc. rewrite length_app in Hc. simpl in Hc.
      rewrite !nth_snoc, inv_coeff_len0.
      destruct (decide (c < length pivs)%nat) as [Hc' | Hc'].
      * destruct (inv_Efin0 c Hc') as (a & Ha1 & Ha2). exists a.
        unfold E3. rewrite mcol_set_col_ne, F3 by lia. done.
      * rewrite !decide_True by lia. exists a11.
        assert (c = j) as -> by lia.
        unfold E3. rewrite mcol_set_col_eq by lia. done.
    + intros c Hc. rewrite length_app in Hc. simpl in Hc. lia.
    + intros c r Hc Hr Hnz. rewrite HE3ne, F2 in Hnz by lia.
      rewrite decide_False in Hnz by lia.
      apply in_or_app. destruct (decide (r = i)) as [-> | Hri].
      * right. by left.
      * left. apply (inv_Eact0 c r); [lia | lia |].
        intros Hz. apply Hnz. rewrite Hz. ring.
    + intros c Hc. unfold U1. rewrite mcol_set_col_ne by lia.
      apply inv_Uid0. lia.
    + intros c Hc. destruct (decide (c = j)) as [-> | Hcj].
      * rewrite HU1j. rewrite (decide_True (P := j = j)) by done.
        rewrite (decide_False (P := (j < j)%nat)) by lia. ring.
      * rewrite HU1ne by done. by apply inv_Udiag0.
    + intros k c Hnz. rewrite length_app. simpl.
      destruct (decide (c = j)) as [-> | Hcj].
      * rewrite HU1j in Hnz.
        destruct (decide (k = j)), (decide (k < j)%nat); try lia.
        exfalso. apply Hnz. ring.
      * rewrite HU1ne in Hnz by done. apply inv_Uup0 in Hnz. lia.
    + intros r Hr Hnin. unfold L1. rewrite mcol_set_col_ne.
      * apply inv_Lid0; [done|]. intros H. apply Hnin, in_or_app. by left.
      * intros ->. apply Hnin, in_or_app. right. by left.
    + intros r Hr. destruct (decide (r = i)) as [-> | Hri].
      * rewrite HL1i. rewrite (decide_True (P := i = i)) by done.
        rewrite (decide_False (P := (i < i < nrow A)%nat)) by lia. ring.
      * rewrite HL1ne by done. by apply inv_Ldiag0.
    + intros r c Hnz. destruct (decide (c = i)) as [-> | Hci].
      * rewrite HL1i in Hnz.
        destruct (decide (r = i)), (decide (i < r < nrow A)%nat); try lia.
        exfalso. apply Hnz. ring.
      * rewrite HL1ne in Hnz by done. by apply inv_Llow0.
    + (* finished columns *)
      intros c r Hc Hr. destruct (decide (c = j)) as [-> | Hcj].
      * rewrite inv_main_act0 by lia. symmetry.
        unfold L1. rewrite F1.
        apply (L_step_col L (nrow A) i a11 x (fun t => get E t j)
                 (fun t => Xfin E3 U1 (length (pivs ++ [i])) t j));
          try done.
        -- intros t Ht. apply inv_Lid0; [lia|]. intros H%Hpivlt. lia.
        -- intros t Ht. rewrite HXnew.
           destruct (decide (t = i)) as [-> | Hti].
           ++ rewrite (decide_False (P := i ∈ pivs))
                by (by rewrite list_elem_of_In).
              fold a11. ring.
           ++ destruct (decide (t ∈ pivs)) as [Hin | Hin]; [unfold get; fold x; ring|].
              destruct (decide (get E t j = 0)) as [-> | Hnz]; [ring|].
              exfalso. apply Hin, list_elem_of_In.
              apply (inv_Eact0 j t); [lia | lia | done].
        -- intros t Ht. rewrite HXnew.
           rewrite (decide_False (P := t ∈ pivs))
             by (rewrite list_elem_of_In; intros H%Hpivlt; lia).
           rewrite (decide_False (P := t = i)) by lia.
           fold a11. unfold get. fold x. field. done.
      * rewrite inv_main_fin0 by lia. symmetry.
        unfold L1. rewrite F1.
        apply (L_step_col L (nrow A) i a11 x
                 (fun t => Xfin E U (length pivs) t c)
                 (fun t => Xfin E3 U1 (length (pivs ++ [i])) t c));
          try done.
        -- intros t Ht. apply inv_Lid0; [lia|]. intros H%Hpivlt. lia.
        -- intros t Ht. apply HXold. lia.
        -- intros t Ht. rewrite HXold by lia.
           assert (Xfin E U (length pivs) i c = 0) as ->; [|field; done].
           unfold Xfin. apply fsum_zero. intros k Hk.
           destruct (inv_Efin0 k Hk) as (a & Ha1 & _).
           unfold get at 1. rewrite Ha1, getval_single.
           rewrite decide_False; [ring|]. intros ->.
           specialize (inv_pivs_lt0 k Hk). lia.
    + (* unfinished columns *)
      intros c r Hc Hr. rewrite inv_main_act0 by lia. symmetry.
      unfold L1. rewrite F1.
      apply (L_step_col L (nrow A) i a11 x (fun t => get E t c)
               (fun t => get E3 t c)); try done.
      * intros t Ht. apply inv_Lid0; [lia|]. intros H%Hpivlt. lia.
      * intros t Ht. rewrite HE3ne, F2 by lia.
        rewrite decide_False by lia. ring.
      * intros t Ht. rewrite HE3ne, F2 by lia.
        rewrite decide_True by lia. done.
  - (* the pivot map *)
    rewrite HR2.
    assert (forall r, r <> i ->
              bucket (delete i (fold_left
                        (fun p c => update_pivot R.1 p c (i + 1)) tl p2c)) r
              = bucket p2c r
                ++ filter (fun c => lbrow (mcol R.1 c) (i + 1) = Some r) tl)
      as Hb.
    { intros r Hr. rewrite bucket_delete, decide_False by done.
      apply fold_update_pivot_bucket. }
    assert (forall c, (j < c < ncol A)%nat ->
              sv_wf (nrow A) (mcol R.1 c) = true) as HRcol.
    { intros c Hc. rewrite <- inv_E_nrow0, <- HRnr. by apply mat_wf_col. }
    assert (forall c, (j < c < ncol A)%nat -> c ∉ tl ->
              lbrow (mcol R.1 c) (i + 1) = lbrow (mcol E c) i) as Hshift.
    { intros c Hc Hin. rewrite HRout by done. rewrite Nat.add_1_r.
      symmetry. eapply lbrow_shift; [apply HEcol|].
      destruct (decide (getval (mcol E c) i = 0)); [done|].
      exfalso. apply Hin, Htlmem. done. }
    constructor.
    + intros r. destruct (decide (r = i)) as [-> | Hr].
      * rewrite bucket_delete, decide_True by done. constructor.
      * rewrite Hb by done. apply NoDup_app. split; [by apply Hond|].
        split; [|by apply NoDup_filter].
        intros c Hc Hc'. apply list_elem_of_filter in Hc' as [_ Hc'].
        apply Homem in Hc as [? Hlb]; [|done].
        apply Htlmem in Hc' as [_ Hnz].
        apply (lbrow_self _ _ _ _ (HEcol c)) in Hnz. congruence.
    + intros r. rewrite lookup_delete. case_decide; [done|].
      by apply fold_update_pivot_nonempty.
    + intros r c. destruct (decide (r = i)) as [-> | Hr].
      * rewrite bucket_delete, decide_True by done. split.
        -- by intros ?%not_elem_of_nil.
        -- intros [Hc Hlb]. exfalso.
           assert (c <> j) by lia.
           unfold E3 in Hlb. rewrite mcol_set_col_ne in Hlb by done.
           apply (lbrow_Some _ _ _ _ _ (HRcol c ltac:(lia))) in Hlb. lia.
      * rewrite Hb by done.
        rewrite elem_of_app, list_elem_of_filter, (Homem r c Hr).
        split.
        -- intros [[Hc Hlb] | [Hlb Hc]].
           ++ split; [lia|]. unfold E3. rewrite mcol_set_col_ne by lia.
              rewrite Hshift; [done | done |].
              intros Hin%Htlmem. destruct Hin as [_ Hnz].
              apply (lbrow_self _ _ _ _ (HEcol c)) in Hnz. congruence.
           ++ pose proof (proj1 (Htlmem c) Hc) as [? _].
              split; [lia|]. unfold E3. by rewrite mcol_set_col_ne by lia.
        -- intros [Hc Hlb]. unfold E3 in Hlb.
           rewrite mcol_set_col_ne in Hlb by lia.
           destruct (decide (c ∈ tl)) as [Hin | Hin]; [by right|].
           left. split; [lia|]. rewrite <- Hshift; [done | lia | done].
  - rewrite length_app. simpl. lia.
Qed.

(** *** The main loop *)

Lemma LEUP_loop_inv (A : ColumnMatrix F) fuel :
  forall (s : LEUP_state) sigma tau,
  Inv A sigma tau s ->
  P2C (ncol A) (sE s) (sp2c s) (si s) (sj s) ->
  length (spivs s) = sj s ->
  (si s + fuel = nrow A)%nat ->
  let s' := LEUP_loop fuel (nrow A) (ncol A) s in
  exists sigma' tau',
    Inv A sigma' tau' s'
    /\ length (spivs s') = sj s'
    /\ (si s' = nrow A \/ sj s' = ncol A).
Proof.
  induction fuel as [|fuel IH]; intros s sigma tau HInv HP Hnp Hfuel; simpl.
  - exists sigma, tau. split; [done|]. split; [done|]. left. lia.
  - destruct (Nat.ltb_spec (si s) (nrow A)) as [Hi | Hi]; simpl.
    2:{ exists sigma, tau. split; [done|]. split; [done|]. left.
        pose proof (inv_i _ _ _ _ HInv). lia. }
    destruct (Nat.ltb_spec (sj s) (ncol A)) as [Hj | Hj]; simpl.
    2:{ exists sigma, tau. split; [done|]. split; [done|]. right.
        pose proof (inv_j _ _ _ _ HInv). lia. }
    destruct (sp2c s !! si s) as [cs|] eqn:Hcs.
    + destruct (swap_pivot_inv A sigma tau s cs HInv HP Hi Hj Hcs)
        as ((sigma1 & tau1 & HInv1) & HPS & Hi1 & Hj1 & Hp1 & Hc1).
      unfold pivot_step. set (s1 := swap_pivot s (hd O cs)) in *.
      rewrite <- Hi1, <- Hj1 in HPS.
      assert (length (spivs s1) = sj s1) as Hnp1 by congruence.
      destruct (eliminate_inv A sigma1 tau1 s1 HInv1 HPS
                  ltac:(lia) ltac:(lia) Hnp1) as (HInv2 & HP2 & Hnp2).
      apply (IH _ sigma1 tau1 HInv2); try done. simpl. lia.
    + destruct (skip_row_inv A sigma tau s HInv HP Hi Hcs) as [HInv' HP'].
      apply (IH _ sigma tau HInv'); try done. simpl. lia.
Qed.

(** *** The final loop *)

Lemma finish_col_inv (A : ColumnMatrix F) sigma tau (s : LEUP_state) :
  Inv A sigma tau s -> si s = nrow A -> (sj s < ncol A)%nat ->
  Inv A sigma tau
    (MkState (sL s) (set_col (sE s) (sj s) [])
       (set_col (sU s) (sj s)
          (axpy_hist (mcol (sE s) (sj s)) (scoeff s) (spivs s)
                     (mcol (sU s) (sj s))))
       (sP s) (sp2c s) (spivs s) (scoeff s) (si s) (sj s + 1)).
Proof.
  intros HInv Him Hj.
  destruct s as [L E U P p2c pivs coeff i j]; simpl in *.
  destruct HInv; simpl in *.
  set (x := mcol E j).
  assert (length (col E) = ncol A) as HElen
    by (by rewrite (mat_wf_length _ inv_E_wf0)).
  assert (length (col U) = ncol A) as HUlen
    by (by rewrite (mat_wf_length _ inv_U_wf0)).
  assert (forall c, sv_wf (nrow A) (mcol E c) = true) as HEcol.
  { intros c. rewrite <- inv_E_nrow0. by apply mat_wf_col. }
  assert (mcol U j = [(j, 1)]) as HUj by (apply inv_Uid0; lia).
  assert (sv_wf (ncol A) (mcol U j) = true) as HUjwf.
  { rewrite <- inv_U_nrow0. by apply mat_wf_col. }
  set (E' := set_col E j []).
  set (U' := set_col U j (axpy_hist x coeff pivs (mcol U j))).
  assert (forall c, c <> j -> mcol E' c = mcol E c) as HE'ne
    by (intros; unfold E'; by rewrite mcol_set_col_ne).
  assert (forall k c, c <> j -> get U' k c = get U k c) as HU'ne.
  { intros k c Hc. unfold get, U'. by rewrite mcol_set_col_ne. }
  assert (forall k, get U' k j
            = (if decide (k = j) then 1 else 0)
              + (if decide (k < length pivs)%nat
                 then nth k coeff 0 * getval x (nth k pivs O) else 0)) as HU'j.
  { intros k. unfold get, U'. rewrite mcol_set_col_eq by lia.
    unfold axpy_hist.
    rewrite (getval_axpy_hist_from 0 _ _ _ (ncol A) _ _ HUjwf) by lia.
    rewrite HUj, getval_single, inv_coeff_len0, Nat.min_id.
    rewrite Nat.sub_0_r.
    destruct (decide (k = j)), (decide (k < length pivs)%nat);
      repeat case_decide; try lia; ring. }
  constructor; simpl; try done.
  - apply set_col_wf; done.
  - apply set_col_wf; [done|]. rewrite inv_U_nrow0.
    apply axpy_hist_from_wf; [done|]. simpl. lia.
  - lia.
  - lia.
  - intros c Hc. destruct (inv_Efin0 c Hc) as (a & Ha1 & Ha2). exists a.
    rewrite HE'ne by lia. done.
  - intros c Hc. destruct (decide (c = j)) as [-> | Hcj].
    + unfold E'. by rewrite mcol_set_col_eq by lia.
    + rewrite HE'ne by done. apply inv_Ezero0. lia.
  - intros c r Hc Hr. unfold get. rewrite HE'ne by lia.
    apply inv_Eact0; [lia | done].
  - intros c Hc. unfold U'. rewrite mcol_set_col_ne by lia.
    apply inv_Uid0. lia.
  - intros c Hc. destruct (decide (c = j)) as [-> | Hcj].
    + rewrite HU'j. rewrite (decide_True (P := j = j)) by done.
      rewrite (decide_False (P := (j < length pivs)%nat)) by lia. ring.
    + rewrite HU'ne by done. by apply inv_Udiag0.
  - intros k c Hnz. destruct (decide (c = j)) as [-> | Hcj].
    + rewrite HU'j in Hnz.
      destruct (decide (k = j)), (decide (k < length pivs)%nat); try lia.
      exfalso. apply Hnz. ring.
    + rewrite HU'ne in Hnz by done. by apply inv_Uup0.
  - intros c r Hc Hr. destruct (decide (c = j)) as [-> | Hcj].
    + rewrite inv_main_act0 by lia. apply fsum_ext. intros t Ht. f_equal.
      unfold Xfin.
      rewrite (fsum_ext _ _ (fun k => if decide (nth k pivs O = t)
                                      then getval x t else 0)).
      * rewrite (fsum_pivs pivs t (getval x t) inv_pivs_inc0).
        destruct (decide (t ∈ pivs)) as [Hin | Hin]; [done|].
        destruct (decide (get E t j = 0)) as [-> | Hnz]; [done|].
        exfalso. apply Hin, list_elem_of_In.
        apply (inv_Eact0 j t); [lia | lia | done].
      * intros k Hk. rewrite HU'j.
        destruct (inv_Efin0 k Hk) as (a & Ha1 & Ha2).
        unfold get. rewrite HE'ne, Ha1, getval_single, Ha2 by lia.
        assert (a <> 0) as Hanz.
        { pose proof (HEcol k) as Hw. rewrite Ha1 in Hw.
          by apply sv_wf_from_cons in Hw as (_ & _ & ? & _). }
        rewrite (decide_False (P := k = j)) by lia.
        rewrite (decide_True (P := (k < length pivs)%nat)) by lia.
        destruct (decide (t = nth k pivs O)) as [-> | Hne'].
        -- rewrite decide_True by done. field. done.
        -- rewrite decide_False by congruence. ring.
    + rewrite inv_main_fin0 by lia. apply fsum_ext. intros t Ht. f_equal.
      unfold Xfin. apply fsum_ext. intros k Hk.
      unfold get at 3. rewrite HE'ne, HU'ne by lia. done.
  - intros c r Hc Hr. rewrite inv_main_act0 by lia.
    apply fsum_ext. intros t Ht. unfold get at 4. rewrite HE'ne by lia. done.
Qed.

Lemma finish_loop_inv (A : ColumnMatrix F) sigma tau cnt :
  forall (s : LEUP_state),
  Inv A sigma tau s -> (si s = nrow A \/ cnt = O) ->
  (sj s + cnt = ncol A)%nat ->
  let EU := fold_left (finish_col (scoeff s) (spivs s)) (seq (sj s) cnt)
                      (sE s, sU s) in
  Inv A sigma tau
    (MkState (sL s) EU.1 EU.2 (sP s) (sp2c s) (spivs s) (scoeff s)
             (si s) (ncol A)).
Proof.
  induction cnt as [|cnt IH]; intros s HInv Hi Hj; simpl.
  - rewrite Nat.add_0_r in Hj. rewrite <- Hj. by destruct s.
  - destruct Hi as [Hi | Hi]; [|done].
    pose proof (finish_col_inv A sigma tau s HInv Hi ltac:(lia)) as HInv'.
    specialize (IH _ HInv'). simpl in IH.
    rewrite Nat.add_1_r in IH. apply IH; [by left | lia].
Qed.

(** *** [LEUP]: the invariant at the end of the kernel *)

Lemma init_inv (A : ColumnMatrix F) :
  mat_wf A = true ->
  Inv A id id
    (MkState (identity (nrow A)) A (identity (ncol A)) (identity (ncol A))
             (get_pivots A) [] [] 0 0).
Proof.
  intros HA. constructor; simpl; try done; try lia;
    try apply identity_wf; try (by rewrite length_fmap, length_seq).
  - intros c Hc. apply mcol_identity. lia.
  - intros c Hc. rewrite get_identity. by rewrite decide_True.
  - intros k c Hnz. rewrite get_identity in Hnz.
    case_decide; [lia | done].
  - intros r Hr _. by apply mcol_identity.
  - intros r Hr. rewrite get_identity. by rewrite decide_True.
  - intros r c Hnz. rewrite get_identity in Hnz.
    case_decide; [lia | done].
  - intros c Hc. by apply mcol_identity.
  - intros c r Hc Hr. rewrite (fsum_single _ r); [|done|].
    + rewrite get_identity, decide_True by done. ring.
    + intros t Ht Hne. rewrite get_identity, decide_False by lia. ring.
Qed.

Lemma LEUP_Inv (A : ColumnMatrix F) :
  mat_wf A = true ->
  exists sigma tau s,
    Inv A sigma tau s /\ sj s = ncol A
    /\ LEUP A = MkFact (sL s) (sE s) (sU s) (T (sP s)).
Proof.
  intros HA. unfold LEUP, LEUP_inplace. simpl.
  set (s0 := MkState (identity (nrow A)) A (identity (ncol A))
                     (identity (ncol A)) (get_pivots A) [] [] 0 0).
  destruct (LEUP_loop_inv A (nrow A) s0 id id (init_inv A HA)
              (get_pivots_P2C A HA) eq_refl eq_refl)
    as (sigma & tau & HInv & Hnp & Hend).
  set (s1 := LEUP_loop (nrow A) (nrow A) (ncol A) s0) in *.
  pose proof (finish_loop_inv A sigma tau (ncol A - sj s1) s1 HInv) as Hfin.
  simpl in Hfin.
  destruct (fold_left (finish_col (scoeff s1) (spivs s1))
              (seq (sj s1) (ncol A - sj s1)) (sE s1, sU s1)) as [E' U'] eqn:Hf.
  simpl in Hfin. eexists sigma, tau, _. split; [apply Hfin|].
  - destruct Hend as [? | ->]; [by left | right; lia].
  - pose proof (inv_j _ _ _ _ HInv). lia.
  - done.
Qed.

Lemma fsum_extend np n (f : nat -> F) :
  (np <= n)%nat -> (forall k, (np <= k < n)%nat -> f k = 0) ->
  fsum n f = fsum np f.
Proof.
  intros Hle Hz. induction n as [|n IH].
  - by replace np with O by lia.
  - destruct (decide (np = S n)) as [-> | Hne]; [done|]. simpl.
    rewrite IH by (try lia; intros; apply Hz; lia).
    rewrite Hz by lia. ring.
Qed.

(** The facts about the four factors that the rest of the development
    uses, read off the invariant. *)
Record LEUP_facts (A : ColumnMatrix F) (X : SparseFact F)
    (sigma tau : nat -> nat) : Prop := MkFacts {
  lf_L_wf : mat_wf (fL X) = true;
  lf_L_nrow : nrow (fL X) = nrow A;
  lf_L_ncol : ncol (fL X) = nrow A;
  lf_E_wf : mat_wf (fE X) = true;
  lf_E_nrow : nrow (fE X) = nrow A;
  lf_E_ncol : ncol (fE X) = ncol A;
  lf_U_wf : mat_wf (fU X) = true;
  lf_U_nrow : nrow (fU X) = ncol A;
  lf_U_ncol : ncol (fU X) = ncol A;
  lf_P_wf : mat_wf (fP X) = true;
  lf_P_nrow : nrow (fP X) = ncol A;
  lf_P_ncol : ncol (fP X) = ncol A;
  lf_L_low : forall r c, get (fL X) r c <> 0 -> (c <= r)%nat;
  lf_L_diag : forall r, (r < nrow A)%nat -> get (fL X) r r = 1;
  lf_U_up : forall r c, get (fU X) r c <> 0 -> (r <= c)%nat;
  lf_U_diag : forall c, (c < ncol A)%nat -> get (fU X) c c = 1;
  lf_sigma_lt : forall c, (c < ncol A)%nat -> (sigma c < ncol A)%nat;
  lf_tau_lt : forall c, (c < ncol A)%nat -> (tau c < ncol A)%nat;
  lf_tau_sigma : forall c, (c < ncol A)%nat -> tau (sigma c) = c;
  lf_sigma_tau : forall c, (c < ncol A)%nat -> sigma (tau c) = c;
  lf_P_get : forall r c,
    (r < ncol A)%nat -> (c < ncol A)%nat ->
    get (fP X) r c = if decide (r = sigma c) then 1 else 0;
  lf_E_cols : exists pivs : list nat,
    (length pivs <= ncol A)%nat
    /\ (forall k k', (k < k' < length pivs)%nat ->
                     (nth k pivs O < nth k' pivs O)%nat)
    /\ (forall c, (c < length pivs)%nat ->
                  exists a, mcol (fE X) c = [(nth c pivs O, a)])
    /\ (forall c, (length pivs <= c)%nat -> mcol (fE X) c = []);
  lf_prod : forall r c,
    (r < nrow A)%nat -> (c < ncol A)%nat ->
    get A r (tau c)
    = fsum (nrow A)
        (fun t => get (fL X) r t
                  * fsum (ncol A) (fun k => get (fE X) t k * get (fU X) k c))
}.

Lemma LEUP_has_facts (A : ColumnMatrix F) :
  mat_wf A = true -> exists sigma tau, LEUP_facts A (LEUP A) sigma tau.
Proof.
  intros HA. destruct (LEUP_Inv A HA) as (sigma & tau & s & HInv & Hj & ->).
  destruct s as [L E U P p2c pivs coeff i j]; simpl in *. subst j.
  destruct HInv; simpl in *.
  assert (length (col E) = ncol A) as HElen
    by (by rewrite (mat_wf_length _ inv_E_wf0)).
  exists tau, sigma. constructor; simpl; try done; try apply T_wf.
  - intros r c Hnz. apply inv_Uup0 in Hnz. lia.
  - intros r c Hr Hc. rewrite get_T by lia. unfold get.
    rewrite inv_perm_col0, getval_single by done.
    destruct (decide (c = sigma r)) as [-> | Hne].
    + rewrite decide_True; [done|]. by rewrite inv_tau_sigma0.
    + rewrite decide_False; [done|]. intros ->.
      by rewrite inv_sigma_tau0 in Hne.
  - exists pivs. repeat split; try done.
    + intros c Hc. destruct (inv_Efin0 c Hc) as (a & Ha & _). by exists a.
    + intros c Hc. destruct (decide (c < ncol A)%nat).
      * apply inv_Ezero0. lia.
      * apply mcol_ge. lia.
  - intros r c Hr Hc. rewrite inv_main_fin0 by done.
    apply fsum_ext. intros t Ht. f_equal. unfold Xfin. symmetry.
    apply fsum_extend; [done|]. intros k Hk. unfold get at 1.
    rewrite inv_Ezero0 by lia. simpl. ring.
Qed.

(** ** Reconstruction *)

Lemma LEUP_prod_facts (A : ColumnMatrix F) X sigma tau :
  mat_wf A = true -> LEUP_facts A X sigma tau -> LEUP_prod X = A.
Proof.
  intros HA HX. destruct HX. unfold LEUP_prod.
  assert (mat_wf (mmul (fL X) (fE X)) = true) as H1
    by (apply mmul_wf; congruence).
  assert (mat_wf (mmul (mmul (fL X) (fE X)) (fU X)) = true) as H2
    by (apply mmul_wf; simpl; congruence).
  apply mat_ext; try done; simpl; try congruence.
  - apply mmul_wf; simpl; congruence.
  - intros r c' Hr Hc'. rewrite lf_L_nrow0 in Hr. rewrite lf_P_ncol0 in Hc'.
    rewrite get_mmul by (simpl; congruence). simpl.
    rewrite lf_U_ncol0.
    rewrite (fsum_single _ (sigma c')); [| by apply lf_sigma_lt0 |].
    2:{ intros k Hk Hne. rewrite lf_P_get0, decide_False by done. ring. }
    rewrite lf_P_get0, decide_True by (try done; by apply lf_sigma_lt0).
    rewrite get_mmul by (simpl; congruence). simpl. rewrite lf_E_ncol0.
    replace (get A r c') with (get A r (tau (sigma c')))
      by (by rewrite lf_tau_sigma0).
    rewrite lf_prod0 by (try done; by apply lf_sigma_lt0).
    rewrite (fsum_ext _ _ (fun k => fsum (nrow A)
               (fun t => get (fL X) r t * get (fE X) t k
                         * get (fU X) k (sigma c')))).
    2:{ intros k _. rewrite get_mmul by congruence.
        rewrite lf_L_ncol0. by rewrite fsum_scal_r. }
    rewrite fsum_swap.
    rewrite (fsum_ext _ _ (fun t => get (fL X) r t
               * fsum (ncol A) (fun k => get (fE X) t k
                                         * get (fU X) k (sigma c')))).
    + ring.
    + intros t _. rewrite <- fsum_scal_l. apply fsum_ext. intros k _. ring.
Qed.

Lemma LEUP_reconstruct (A : ColumnMatrix F) :
  mat_wf A = true -> LEUP_prod (LEUP A) = A.
Proof.
  intros HA. destruct (LEUP_has_facts A HA) as (sigma & tau & HX).
  by apply (LEUP_prod_facts A _ sigma tau).
Qed.

Lemma T_prod4 (L E U P : ColumnMatrix F) :
  mat_wf L = true -> mat_wf E = true -> mat_wf U = true -> mat_wf P = true ->
  nrow E = ncol L -> nrow U = ncol E -> nrow P = ncol U ->
  mmul (mmul (mmul (T P) (T U)) (T E)) (T L)
  = T (mmul (mmul (mmul L E) U) P).
Proof.
  intros HL HE HU HP H1 H2 H3.
  rewrite (T_mmul (mmul (mmul L E) U) P); try done;
    [|by repeat apply mmul_wf].
  rewrite (T_mmul (mmul L E) U); try done; [|by apply mmul_wf].
  rewrite (T_mmul L E) by done.
  rewrite <- (mmul_assoc (T P) (T U)); try apply T_wf; simpl; try done.
  - rewrite <- (mmul_assoc (mmul (T P) (T U))); try apply T_wf; simpl;
      try done.
    apply mmul_wf; try apply T_wf. simpl. done.
  - apply mmul_wf; try apply T_wf. simpl. done.
Qed.

Lemma J_prod4 (L E U P : ColumnMatrix F) :
  mat_wf L = true -> mat_wf E = true -> mat_wf U = true -> mat_wf P = true ->
  nrow E = ncol L -> nrow U = ncol E -> nrow P = ncol U ->
  mmul (mmul (mmul (J_conjugation L) (J_conjugation E)) (J_conjugation U))
       (J_conjugation P)
  = J_conjugation (mmul (mmul (mmul L E) U) P).
Proof.
  intros HL HE HU HP H1 H2 H3.
  rewrite (J_mmul (mmul (mmul L E) U) P); try done;
    [|by repeat apply mmul_wf].
  rewrite (J_mmul (mmul L E) U); try done; [|by apply mmul_wf].
  by rewrite (J_mmul L E).
Qed.

Lemma PLEU_reconstruct (A : ColumnMatrix F) :
  mat_wf A = true -> PLEU_prod (PLEU A) = A.
Proof.
  intros HA. unfold PLEU_prod, PLEU. simpl.
  destruct (LEUP_has_facts (T A) (T_wf A)) as (sigma & tau & HX).
  pose proof (LEUP_prod_facts _ _ _ _ (T_wf A) HX) as Hprod.
  destruct HX. unfold LEUP_prod in Hprod.
  rewrite T_prod4 by congruence. rewrite Hprod. by apply T_T.
Qed.

Lemma UELP_reconstruct (A : ColumnMatrix F) :
  mat_wf A = true -> UELP_prod (UELP A) = A.
Proof.
  intros HA. unfold UELP_prod, UELP. simpl.
  destruct (LEUP_has_facts (J_conjugation A) (J_wf A)) as (sigma & tau & HX).
  pose proof (LEUP_prod_facts _ _ _ _ (J_wf A) HX) as Hprod.
  destruct HX. unfold LEUP_prod in Hprod.
  rewrite J_prod4 by congruence. rewrite Hprod. by apply J_J.
Qed.

Lemma PUEL_reconstruct (A : ColumnMatrix F) :
  mat_wf A = true -> PUEL_prod (PUEL A) = A.
Proof.
  intros HA. unfold PUEL_prod, PUEL. simpl.
  destruct (LEUP_has_facts (T (J_conjugation A)) (T_wf _))
    as (sigma & tau & HX).
  pose proof (LEUP_prod_facts _ _ _ _ (T_wf _) HX) as Hprod.
  destruct HX. unfold LEUP_prod in Hprod.
  rewrite J_prod4; try apply T_wf; simpl; try congruence.
  rewrite T_prod4 by congruence. rewrite Hprod.
  rewrite T_T by apply J_wf. by apply J_J.
Qed.

(** C1.  For every well-formed m x n matrix A over the field, each of the
    four factorizations reconstructs A exactly under its own product
    ordering: L E U P for [LEUP], P L E U for [PLEU], U E L P for [UELP]
    and P U E L for [PUEL]. *)
Theorem factorizations_reconstruct (A : ColumnMatrix F) :
  mat_wf A = true ->
  LEUP_prod (LEUP A) = A /\ PLEU_prod (PLEU A) = A
  /\ UELP_prod (UELP A) = A /\ PUEL_prod (PUEL A) = A.
Proof.
  intros HA. repeat split.
  - by apply LEUP_reconstruct.
  - by apply PLEU_reconstruct.
  - by apply UELP_reconstruct.
  - by apply PUEL_reconstruct.
Qed.

(** ** Shapes *)

Lemma imap_pair_elem {X : Type} (l : list X) j (v : X) :
  (j, v) ∈ imap (fun j v => (j, v)) l <-> l !! j = Some v.
Proof.
  rewrite list_elem_of_lookup. split.
  - intros [k Hk]. rewrite list_lookup_imap in Hk.
    destruct (l !! k) as [x|] eqn:Hl; simpl in Hk; [|done].
    inversion Hk; subst. done.
  - intros H. exists j. rewrite list_lookup_imap, H. done.
Qed.

Lemma is_lower_intro (X : ColumnMatrix F) :
  mat_wf X = true -> lowerP X -> is_lower X = true.
Proof.
  intros HX Hlow. unfold is_lower. apply forallb_forall.
  intros [j v] Hin. apply list_elem_of_In, imap_pair_elem in Hin. simpl.
  apply forallb_forall. intros [i a] Hia. apply list_elem_of_In in Hia.
  simpl. apply Nat.leb_le. apply Hlow. unfold get.
  rewrite (mcol_lookup _ _ _ Hin).
  pose proof (mat_wf_col X j HX) as Hw. rewrite (mcol_lookup _ _ _ Hin) in Hw.
  destruct (getval_elem _ _ _ _ _ Hw Hia) as [-> ?]. done.
Qed.

Lemma is_upper_intro (X : ColumnMatrix F) :
  mat_wf X = true -> upperP X -> is_upper X = true.
Proof.
  intros HX Hup. unfold is_upper. apply forallb_forall.
  intros [j v] Hin. apply list_elem_of_In, imap_pair_elem in Hin. simpl.
  apply forallb_forall. intros [i a] Hia. apply list_elem_of_In in Hia.
  simpl. apply Nat.leb_le. apply Hup. unfold get.
  rewrite (mcol_lookup _ _ _ Hin).
  pose proof (mat_wf_col X j HX) as Hw. rewrite (mcol_lookup _ _ _ Hin) in Hw.
  destruct (getval_elem _ _ _ _ _ Hw Hia) as [-> ?]. done.
Qed.

Lemma unit_diag_intro (X : ColumnMatrix F) :
  nrow X = ncol X -> diagP X -> unit_diag X = true.
Proof.
  intros Hsq Hd. unfold unit_diag. apply andb_true_iff. split.
  - by apply Nat.eqb_eq.
  - apply forallb_forall. intros c Hc. apply in_seq in Hc.
    apply bool_decide_eq_true. apply Hd. lia.
Qed.

Lemma lower_unitriangular_intro (X : ColumnMatrix F) :
  mat_wf X = true -> nrow X = ncol X -> lowerP X -> diagP X ->
  lower_unitriangular X = true.
Proof.
  intros. unfold lower_unitriangular.
  by rewrite is_lower_intro, unit_diag_intro.
Qed.

Lemma upper_unitriangular_intro (X : ColumnMatrix F) :
  mat_wf X = true -> nrow X = ncol X -> upperP X -> diagP X ->
  upper_unitriangular X = true.
Proof.
  intros. unfold upper_unitriangular.
  by rewrite is_upper_intro, unit_diag_intro.
Qed.

Lemma filter_none {X : Type} (Q : X -> Prop) `{!forall x, Decision (Q x)}
    (l : list X) :
  (forall x, x ∈ l -> ~ Q x) -> filter Q l = [].
Proof.
  induction l as [|x l IH]; intros Hn; [done|].
  rewrite filter_cons_False by (apply Hn, list_elem_of_here).
  apply IH. intros y Hy. by apply Hn, list_elem_of_further.
Qed.

Lemma filter_unique {X : Type} (Q : X -> Prop) `{!forall x, Decision (Q x)}
    (l : list X) k0 :
  (k0 < length l)%nat ->
  (forall k x, l !! k = Some x -> (Q x <-> k = k0)) ->
  length (filter Q l) = 1%nat.
Proof.
  revert k0. induction l as [|x l IH]; intros k0 Hk Hu; simpl in Hk; [lia|].
  destruct k0 as [|k0].
  - rewrite filter_cons_True by (by apply (Hu O)).
    rewrite filter_none; [done|]. intros y Hy HQ.
    apply list_elem_of_lookup in Hy as [k Hk'].
    by apply (Hu (S k)) in HQ.
  - rewrite filter_cons_False.
    + apply (IH k0); [lia|]. intros k y Hy. rewrite (Hu (S k) y Hy). lia.
    + intros HQ. by apply (Hu O) in HQ.
Qed.

Lemma perm_matrix_col n (X : ColumnMatrix F) sigma tau c :
  mat_wf X = true -> nrow X = n -> ncol X = n -> perm_matrix n X sigma tau ->
  (c < n)%nat -> mcol X c = [(sigma c, 1)].
Proof.
  intros HX Hm Hn (Hs & Ht & Hts & Hst & Hget) Hc.
  eapply sv_ext; [apply (mat_wf_col X c HX) | |].
  - apply (sv_wf_from_cons 0 n). repeat split; try lia; try done.
    + by apply Hs.
    + apply Fone_neq_zero.
  - intros i. rewrite getval_single. destruct (decide (i < n)%nat).
    + by apply Hget.
    + rewrite (getval_above _ _ _ _ (mat_wf_col X c HX)) by lia.
      rewrite decide_False; [done|]. specialize (Hs c Hc). lia.
Qed.

Lemma perm_is_pivot_matrix n (X : ColumnMatrix F) sigma tau :
  mat_wf X = true -> nrow X = n -> ncol X = n -> perm_matrix n X sigma tau ->
  is_pivot_matrix X = true.
Proof.
  intros HX Hm Hn HP.
  pose proof (perm_matrix_col n X sigma tau) as Hcol.
  destruct HP as (Hs & Ht & Hts & Hst & Hget).
  pose proof (mat_wf_length _ HX) as Hlen.
  unfold is_pivot_matrix. apply andb_true_iff. split.
  - apply forallb_forall. intros v Hv.
    apply list_elem_of_In, list_elem_of_lookup in Hv as [c Hc].
    pose proof (lookup_lt_Some _ _ _ Hc) as Hlt.
    rewrite <- (mcol_lookup _ _ _ Hc), Hcol; try done; try lia.
    by apply bool_decide_eq_true.
  - apply forallb_forall. intros i Hi. apply in_seq in Hi.
    apply Nat.eqb_eq. apply (filter_unique _ _ (tau i)).
    + rewrite Hlen, Hn. apply Ht. lia.
    + intros c v Hc. pose proof (lookup_lt_Some _ _ _ Hc) as Hlt.
      rewrite <- (mcol_lookup _ _ _ Hc).
      change (getval (mcol X c) i) with (get X i c).
      rewrite Hget by lia. split.
      * intros Hnz. destruct (decide (i = sigma c)) as [-> | ?]; [|done].
        rewrite Hts; [done | lia].
      * intros ->. rewrite Hst by lia. rewrite decide_True by done.
        apply Fone_neq_zero.
Qed.

Lemma increasing_from_weaken lo lo' l :
  increasing_from lo l = true -> (lo' <= lo)%nat ->
  increasing_from lo' l = true.
Proof.
  destruct l as [|k l]; [done|]. simpl. rewrite !andb_true_iff, !Nat.leb_le.
  intros [? ?] ?. split; [lia | done].
Qed.

Lemma increasing_omap {X : Type} (g : X -> option nat) (cols : list X) lo :
  increasing_from lo (omap g cols) = true <->
  (forall c v r, cols !! c = Some v -> g v = Some r -> (lo <= r)%nat)
  /\ (forall c c' v v' r r',
        (c < c')%nat -> cols !! c = Some v -> cols !! c' = Some v' ->
        g v = Some r -> g v' = Some r' -> (r < r')%nat).
Proof.
  revert lo. induction cols as [|v cols IH]; intros lo.
  - simpl. split; [|done]. intros _. split; intros; done.
  - simpl. destruct (g v) as [r|] eqn:Hg.
    + simpl. rewrite andb_true_iff, Nat.leb_le, IH. split.
      * intros (Hlo & H1 & H2). split.
        -- intros [|c] v' r' Hc Hg'; simpl in Hc.
           ++ inversion Hc; subst. rewrite Hg in Hg'. by inversion Hg'; subst.
           ++ specialize (H1 c v' r' Hc Hg'). lia.
        -- intros [|c] [|c'] v1 v2 r1 r2 Hlt Hc Hc' Hg1 Hg2; simpl in *;
             try lia.
           ++ inversion Hc; subst. rewrite Hg in Hg1. inversion Hg1; subst.
              specialize (H1 c' v2 r2 Hc' Hg2). lia.
           ++ apply (H2 c c' v1 v2); try done. lia.
      * intros (H1 & H2). split; [by apply (H1 O v r)|]. split.
        -- intros c v' r' Hc Hg'.
           specialize (H2 O (S c) v v' r r'). simpl in H2.
           specialize (H2 ltac:(lia) eq_refl Hc Hg Hg'). lia.
        -- intros c c' v1 v2 r1 r2 Hlt Hc Hc' Hg1 Hg2.
           apply (H2 (S c) (S c') v1 v2); try done. lia.
    + rewrite IH. split.
      * intros (H1 & H2). split.
        -- intros [|c] v' r' Hc Hg'; simpl in Hc.
           ++ inversion Hc; subst. congruence.
           ++ by apply (H1 c v' r').
        -- intros [|c] [|c'] v1 v2 r1 r2 Hlt Hc Hc' Hg1 Hg2; simpl in *;
             try lia.
           ++ inversion Hc; subst. congruence.
           ++ apply (H2 c c' v1 v2); try done. lia.
      * intros (H1 & H2). split.
        -- intros c v' r' Hc Hg'. by apply (H1 (S c) v' r').
        -- intros c c' v1 v2 r1 r2 Hlt Hc Hc' Hg1 Hg2.
           apply (H2 (S c) (S c') v1 v2); try done. lia.
Qed.

(** [is_EL] entry-wise: the pivot rows of any two nonzero columns are
    ordered like the columns. *)
Lemma is_EL_iff (X : ColumnMatrix F) :
  is_EL X = true <->
  forall c c' r r',
    (c < c' < length (col X))%nat ->
    col_pivot (mcol X c) = Some r -> col_pivot (mcol X c') = Some r' ->
    (r < r')%nat.
Proof.
  unfold is_EL, pivot_rows. rewrite increasing_omap. split.
  - intros [_ H] c c' r r' Hc Hp Hp'.
    apply (H c c' (mcol X c) (mcol X c') r r'); try done; try lia.
    + apply mcol_lookup_lt. lia.
    + apply mcol_lookup_lt. lia.
  - intros H. split; [intros; lia|].
    intros c c' v v' r r' Hlt Hc Hc' Hp Hp'.
    pose proof (lookup_lt_Some _ _ _ Hc').
    apply (H c c' r r'); [lia | |].
    + by rewrite (mcol_lookup _ _ _ Hc).
    + by rewrite (mcol_lookup _ _ _ Hc').
Qed.

Lemma upperP_T (X : ColumnMatrix F) : lowerP X -> upperP (T X).
Proof.
  intros H r c Hnz. unfold T in Hnz. rewrite get_of_fun in Hnz.
  case_decide; [|done]. apply H in Hnz. done.
Qed.

Lemma lowerP_T (X : ColumnMatrix F) : upperP X -> lowerP (T X).
Proof.
  intros H r c Hnz. unfold T in Hnz. rewrite get_of_fun in Hnz.
  case_decide; [|done]. apply H in Hnz. done.
Qed.

Lemma diagP_T (X : ColumnMatrix F) :
  nrow X = ncol X -> diagP X -> diagP (T X).
Proof.
  intros Hsq H c Hc. simpl in Hc. rewrite get_T by lia. apply H. lia.
Qed.

Lemma upperP_J (X : ColumnMatrix F) :
  nrow X = ncol X -> lowerP X -> upperP (J_conjugation X).
Proof.
  intros Hsq H r c Hnz. unfold J_conjugation in Hnz.
  rewrite get_of_fun in Hnz. case_decide; [|done]. apply H in Hnz. lia.
Qed.

Lemma lowerP_J (X : ColumnMatrix F) :
  nrow X = ncol X -> upperP X -> lowerP (J_conjugation X).
Proof.
  intros Hsq H r c Hnz. unfold J_conjugation in Hnz.
  rewrite get_of_fun in Hnz. case_decide; [|done]. apply H in Hnz. lia.
Qed.

Lemma diagP_J (X : ColumnMatrix F) :
  nrow X = ncol X -> diagP X -> diagP (J_conjugation X).
Proof.
  intros Hsq H c Hc. simpl in Hc. rewrite get_J by lia.
  rewrite Hsq. apply H. lia.
Qed.

Lemma perm_matrix_T n (X : ColumnMatrix F) sigma tau :
  nrow X = n -> ncol X = n -> perm_matrix n X sigma tau ->
  perm_matrix n (T X) tau sigma.
Proof.
  intros Hm Hn (Hs & Ht & Hts & Hst & Hget). repeat split; try done.
  intros r c Hr Hc. rewrite get_T by lia. rewrite Hget by done.
  destruct (decide (c = sigma r)) as [-> | Hne].
  - rewrite decide_True; [done|]. by rewrite Hts.
  - rewrite decide_False; [done|]. intros ->. by rewrite Hst in Hne.
Qed.

Lemma perm_matrix_J n (X : ColumnMatrix F) sigma tau :
  nrow X = n -> ncol X = n -> perm_matrix n X sigma tau ->
  perm_matrix n (J_conjugation X)
    (fun c => n - 1 - sigma (n - 1 - c))%nat
    (fun c => n - 1 - tau (n - 1 - c))%nat.
Proof.
  intros Hm Hn (Hs & Ht & Hts & Hst & Hget). repeat split.
  - intros c Hc. lia.
  - intros c Hc. lia.
  - intros c Hc. pose proof (Hs (n - 1 - c)%nat ltac:(lia)).
    replace (n - 1 - (n - 1 - sigma (n - 1 - c)))%nat
      with (sigma (n - 1 - c)%nat) by lia.
    rewrite Hts by lia. lia.
  - intros c Hc. pose proof (Ht (n - 1 - c)%nat ltac:(lia)).
    replace (n - 1 - (n - 1 - tau (n - 1 - c)))%nat
      with (tau (n - 1 - c)%nat) by lia.
    rewrite Hst by lia. lia.
  - intros r c Hr Hc. rewrite get_J by lia. rewrite Hm, Hn.
    rewrite Hget by lia. pose proof (Hs (n - 1 - c)%nat ltac:(lia)).
    repeat case_decide; try done; lia.
Qed.

Lemma shape_ok_intro (isE : ColumnMatrix F -> bool) (X : SparseFact F)
    kP sigma tau :
  mat_wf (fL X) = true -> nrow (fL X) = ncol (fL X) ->
  lowerP (fL X) -> diagP (fL X) ->
  mat_wf (fU X) = true -> nrow (fU X) = ncol (fU X) ->
  upperP (fU X) -> diagP (fU X) ->
  mat_wf (fP X) = true -> nrow (fP X) = kP -> ncol (fP X) = kP ->
  perm_matrix kP (fP X) sigma tau ->
  isE (fE X) = true ->
  shape_ok isE X = true.
Proof.
  intros. unfold shape_ok.
  rewrite lower_unitriangular_intro, upper_unitriangular_intro by done.
  rewrite (perm_is_pivot_matrix kP _ sigma tau) by done. done.
Qed.

Lemma LEUP_facts_lowerP (A : ColumnMatrix F) X sigma tau :
  LEUP_facts A X sigma tau ->
  lowerP (fL X) /\ diagP (fL X) /\ upperP (fU X) /\ diagP (fU X)
  /\ perm_matrix (ncol A) (fP X) sigma tau /\ is_EL (fE X) = true.
Proof.
  intros HX. destruct HX. repeat split; try done.
  - intros c Hc. apply lf_L_diag0. congruence.
  - intros c Hc. apply lf_U_diag0. congruence.
  - apply is_EL_iff. intros c c' r r' Hc Hp Hp'.
    destruct lf_E_cols0 as (pivs & Hlen & Hinc & Hfin & Hzero).
    assert (c' < length pivs)%nat as Hc'.
    { destruct (decide (c' < length pivs)%nat); [done|].
      rewrite Hzero in Hp' by lia. done. }
    destruct (Hfin c ltac:(lia)) as (a & Ha).
    destruct (Hfin c' Hc') as (a' & Ha').
    rewrite Ha in Hp. rewrite Ha' in Hp'. simpl in *.
    inversion Hp; inversion Hp'; subst. apply Hinc. lia.
Qed.

Lemma LEUP_shape (A : ColumnMatrix F) :
  mat_wf A = true -> shape_ok is_EL (LEUP A) = true.
Proof.
  intros HA. destruct (LEUP_has_facts A HA) as (sigma & tau & HX).
  destruct (LEUP_facts_lowerP _ _ _ _ HX) as (H1 & H2 & H3 & H4 & H5 & H6).
  destruct HX.
  apply (shape_ok_intro _ _ (ncol A) sigma tau); try done; congruence.
Qed.

Lemma PLEU_shape (A : ColumnMatrix F) :
  mat_wf A = true -> shape_ok is_EU (PLEU A) = true.
Proof.
  intros HA. unfold PLEU.
  destruct (LEUP_has_facts (T A) (T_wf A)) as (sigma & tau & HX).
  destruct (LEUP_facts_lowerP _ _ _ _ HX) as (H1 & H2 & H3 & H4 & H5 & H6).
  destruct HX. simpl in *.
  apply (shape_ok_intro _ _ (nrow A) tau sigma); simpl;
    try apply T_wf; try congruence.
  - by apply lowerP_T.
  - apply diagP_T; [congruence | done].
  - by apply upperP_T.
  - apply diagP_T; [congruence | done].
  - by apply perm_matrix_T.
  - unfold is_EU. rewrite T_T by done. done.
Qed.

Lemma UELP_shape (A : ColumnMatrix F) :
  mat_wf A = true -> shape_ok is_ELhat (UELP A) = true.
Proof.
  intros HA. unfold UELP.
  destruct (LEUP_has_facts (J_conjugation A) (J_wf A)) as (sigma & tau & HX).
  destruct (LEUP_facts_lowerP _ _ _ _ HX) as (H1 & H2 & H3 & H4 & H5 & H6).
  destruct HX. simpl in *.
  eapply (shape_ok_intro _ _ (ncol A)); simpl;
    try apply J_wf; try congruence.
  - apply lowerP_J; [congruence | done].
  - apply diagP_J; [congruence | done].
  - apply upperP_J; [congruence | done].
  - apply diagP_J; [congruence | done].
  - apply perm_matrix_J; [done | done | exact H5].
  - unfold is_ELhat. rewrite J_J by done. done.
Qed.

Lemma PUEL_shape (A : ColumnMatrix F) :
  mat_wf A = true -> shape_ok is_EUhat (PUEL A) = true.
Proof.
  intros HA. unfold PUEL.
  destruct (LEUP_has_facts (T (J_conjugation A)) (T_wf _))
    as (sigma & tau & HX).
  destruct (LEUP_facts_lowerP _ _ _ _ HX) as (H1 & H2 & H3 & H4 & H5 & H6).
  destruct HX. simpl in *.
  eapply (shape_ok_intro _ _ (nrow A)); simpl;
    try apply J_wf; try congruence.
  - apply lowerP_J; [simpl; congruence | by apply upperP_T].
  - apply diagP_J; [simpl; congruence | apply diagP_T; [congruence | done]].
  - apply upperP_J; [simpl; congruence | by apply lowerP_T].
  - apply diagP_J; [simpl; congruence | apply diagP_T; [congruence | done]].
  - apply perm_matrix_J; [simpl; congruence | simpl; congruence |].
    apply perm_matrix_T; [done | done | exact H5].
  - unfold is_EUhat, is_EU. rewrite J_J by apply T_wf.
    rewrite T_T by done. done.
Qed.

(** C2.  For every well-formed input A, the bundle returned by each of the
    four factorizations has L lower unitriangular, U upper unitriangular,
    P a pivot matrix, and E of the echelon shape named for that entry
    point: EL for [LEUP], EU for [PLEU], ELhat for [UELP], EUhat for
    [PUEL]. *)
Theorem factorizations_shapes (A : ColumnMatrix F) :
  mat_wf A = true ->
  shape_ok is_EL (LEUP A) = true /\ shape_ok is_EU (PLEU A) = true
  /\ shape_ok is_ELhat (UELP A) = true /\ shape_ok is_EUhat (PUEL A) = true.
Proof.
  intros HA. repeat split.
  - by apply LEUP_shape.
  - by apply PLEU_shape.
  - by apply UELP_shape.
  - by apply PUEL_shape.
Qed.

(** ** [PUEL_inplace] against [PUEL] *)

Lemma PUEL_inplace_PUEL (A : ColumnMatrix F) :
  PUEL_inplace
    (MkFact (identity (ncol A)) A (identity (nrow A)) (identity (nrow A)))
  = PUEL A.
Proof.
  unfold PUEL_inplace, PUEL, LEUP. simpl. by rewrite !T_J_comm.
Qed.

(** C9.  For every square matrix A, [PUEL_inplace] applied to the bundle
    with E = A and L, U, P the identity of matching size produces exactly
    the four factors of [PUEL A]: the two undo the symmetries in opposite
    orders, and transpose and conjugation commute. *)
Theorem PUEL_inplace_agrees (A : ColumnMatrix F) (n : nat) :
  nrow A = n -> ncol A = n ->
  PUEL_inplace (MkFact (identity n) A (identity n) (identity n)) = PUEL A.
Proof. intros <- Hn. rewrite <- PUEL_inplace_PUEL. by rewrite Hn. Qed.

(** ** The identity matrix *)

Lemma axpy_hist_from_zero k0 (x : SparseVector F) coeff pivs m
    (y : SparseVector F) :
  sv_wf m y = true ->
  (k0 + Nat.min (length coeff) (length pivs) <= m)%nat ->
  (forall p, p ∈ pivs -> getval x p = 0) ->
  axpy_hist_from k0 x coeff pivs y = y.
Proof.
  intros Hy Hm Hz.
  apply (sv_ext 0 m 0 m); [by apply axpy_hist_from_wf | exact Hy |].
  intros k. rewrite (getval_axpy_hist_from _ _ _ _ m) by done.
  case_decide as Hk; [|ring]. rewrite Hz; [ring|].
  apply list_elem_of_In, nth_In. lia.
Qed.

Lemma set_col_id (A : ColumnMatrix F) j :
  set_col A j (mcol A j) = A.
Proof.
  destruct A as [m n cols]. unfold set_col, mcol. simpl. f_equal.
  apply list_insert_id'. intros Hj. by apply list_lookup_lookup_total_lt.
Qed.

Lemma get_pivots_identity n r :
  get_pivots (identity n : ColumnMatrix F) !! r
  = if decide (r < n)%nat then Some [r] else None.
Proof.
  unfold get_pivots. simpl.
  assert (forall k, (k <= n)%nat ->
            fold_left (fun p c => update_pivot (identity n) p c 0) (seq 0 k)
                      (∅ : gmap nat (list nat)) !! r
            = if decide (r < k)%nat then Some [r] else None) as H.
  { induction k as [|k IH]; intros Hk.
    - simpl. by rewrite lookup_empty.
    - rewrite seq_S, fold_left_app. simpl.
      rewrite update_pivot_lbrow, mcol_identity by lia.
      assert (lbrow [(k, 1)] 0 = Some k) as -> by done.
      rewrite lookup_insert. unfold bucket.
      destruct (decide (k = r)) as [-> | Hne].
      + rewrite IH by lia. rewrite decide_False by lia. simpl.
        by rewrite decide_True by lia.
      + rewrite IH by lia. repeat case_decide; try lia; done. }
  by apply H.
Qed.

Lemma LEUP_loop_identity n fuel :
  forall i p2c pivs coeff,
  (i + fuel = n)%nat ->
  (forall r, p2c !! r = if decide (i <= r < n)%nat then Some [r] else None) ->
  (forall p, p ∈ pivs -> (p < i)%nat) ->
  length coeff = length pivs -> length pivs = i ->
  exists p2c' pivs' coeff',
    LEUP_loop fuel n n
      (MkState (identity n) (identity n) (identity n) (identity n)
               p2c pivs coeff i i)
    = MkState (identity n) (identity n) (identity n) (identity n)
              p2c' pivs' coeff' n n.
Proof.
  induction fuel as [|fuel IH]; intros i p2c pivs coeff Hi Hp Hpivs Hlc Hlp.
  - simpl. replace i with n by lia. by eexists _, _, _.
  - simpl. assert (i < n)%nat as Hlt by lia.
    destruct (Nat.ltb_spec i n); [|lia]. simpl.
    rewrite Hp, decide_True by lia.
    unfold pivot_step, swap_pivot. simpl. rewrite decide_True by done.
    unfold eliminate. simpl.
    assert (bucket p2c i = [i]) as ->.
    { unfold bucket. rewrite Hp, decide_True by lia. done. }
    simpl. rewrite !mcol_identity by done.
    assert (get (identity n) i i = 1) as ->.
    { rewrite get_identity. by rewrite decide_True. }
    assert (axpy_hist [(i, 1)] coeff pivs [(i, 1)] = [(i, 1)]) as ->.
    { apply (axpy_hist_from_zero _ _ _ _ n).
      - apply sv_wf_from_cons. repeat split; try lia; try done.
        apply Fone_neq_zero.
      - lia.
      - intros p Hpin. rewrite getval_single.
        rewrite decide_False; [done|]. apply Hpivs in Hpin. lia. }
    assert (axpy (Finv 1) [(i, 1)] (i + 1) n [(i, 1)] = [(i, 1)]) as ->.
    { unfold axpy. simpl. destruct (Nat.leb_spec (i + 1) i); [lia | done]. }
    assert (set_col (identity n) i [(i, 1)] = identity n) as ->.
    { rewrite <- (mcol_identity n i) at 1 by done. apply set_col_id. }
    apply IH.
    + lia.
    + intros r. rewrite lookup_delete, Hp.
      repeat case_decide; try lia; done.
    + intros p Hpin. apply elem_of_app in Hpin as [Hpin | Hpin].
      * apply Hpivs in Hpin. lia.
      * apply list_elem_of_singleton in Hpin. lia.
    + rewrite !length_app. simpl. lia.
    + rewrite length_app. simpl. lia.
Qed.

Lemma LEUP_identity n :
  LEUP (identity n)
  = MkFact (identity n) (identity n) (identity n) (identity n).
Proof.
  unfold LEUP, LEUP_inplace. simpl.
  destruct (LEUP_loop_identity n n 0 (get_pivots (identity n)) [] [])
    as (p2c' & pivs' & coeff' & ->); try done.
  - intros r. rewrite get_pivots_identity. repeat case_decide; try lia; done.
  - intros p Hp. by apply not_elem_of_nil in Hp.
  - simpl. rewrite Nat.sub_diag. simpl. by rewrite T_identity.
Qed.

Lemma identity_shapes n :
  is_upper (identity n) && is_lower (identity n)
  && is_pivot_matrix (identity n) && is_EL (identity n)
  && is_EU (identity n) && is_ELhat (identity n) && is_EUhat (identity n)
  = true.
Proof.
  assert (is_EL (identity n) = true) as HEL.
  { apply is_EL_iff. intros c c' r r' Hc Hp Hp'. simpl in Hc.
    rewrite length_fmap, length_seq in Hc.
    rewrite mcol_identity in Hp by lia. rewrite mcol_identity in Hp' by lia.
    simpl in *. inversion Hp; inversion Hp'; subst. lia. }
  unfold is_EUhat, is_EU, is_ELhat. rewrite !J_identity, !T_identity, HEL.
  rewrite is_upper_intro, is_lower_intro; try apply identity_wf.
  - rewrite (perm_is_pivot_matrix n _ id id); try done;
      try apply identity_wf.
    repeat split; try done. intros r c Hr Hc. rewrite get_identity.
    unfold id. repeat case_decide; try done; lia.
  - intros r c Hnz. rewrite get_identity in Hnz. case_decide; [lia | done].
  - intros r c Hnz. rewrite get_identity in Hnz. case_decide; [lia | done].
Qed.

(** C6.  For every size n, each of the four factorizations of the n x n
    identity returns L = E = U = P = identity, and the identity satisfies
    all the shape predicates (upper, lower, pivot, EL, EU, ELhat, EUhat). *)
Theorem identity_fixed_point (n : nat) :
  let I := identity n in
  LEUP I = MkFact I I I I /\ PLEU I = MkFact I I I I
  /\ UELP I = MkFact I I I I /\ PUEL I = MkFact I I I I
  /\ is_upper I && is_lower I && is_pivot_matrix I && is_EL I
     && is_EU I && is_ELhat I && is_EUhat I = true.
Proof.
  simpl. repeat split.
  - apply LEUP_identity.
  - unfold PLEU. rewrite T_identity, LEUP_identity. simpl.
    by rewrite T_identity.
  - unfold UELP. rewrite J_identity, LEUP_identity. simpl.
    by rewrite J_identity.
  - unfold PUEL. rewrite J_identity, T_identity, LEUP_identity. simpl.
    by rewrite T_identity, J_identity.
  - apply identity_shapes.
Qed.

(** ** [extract_row_scale] *)

Lemma write_Some (coeff : list F) i x :
  (i < length coeff)%nat -> write coeff i x = Some (<[i := x]> coeff).
Proof. intros H. unfold write. by rewrite decide_True. Qed.

Lemma fill_ones_spec cnt :
  forall (coeff : list F) i,
  (i + cnt <= length coeff)%nat ->
  exists coeff',
    fill_ones cnt coeff i = Some coeff'
    /\ length coeff' = length coeff
    /\ forall r, coeff' !! r
                 = if decide (i <= r < i + cnt)%nat then Some 1
                   else coeff !! r.
Proof.
  induction cnt as [|cnt IH]; intros coeff i Hi; simpl.
  - exists coeff. repeat split; try done. intros r. case_decide; [lia | done].
  - rewrite write_Some by lia. simpl.
    destruct (IH (<[i := 1]> coeff) (i + 1)%nat) as (coeff' & Hf & Hl & Hr).
    { rewrite length_insert. lia. }
    exists coeff'. rewrite length_insert in Hl. repeat split; try done.
    intros r. rewrite Hr, list_lookup_insert.
    repeat case_decide; try lia; try done.
Qed.

Lemma extract_loop_spec m n fuel :
  forall (E : ColumnMatrix F) coeff i j,
  length (col E) = n -> length coeff = m -> (i <= m)%nat ->
  (j + fuel = n)%nat ->
  (forall c r a v, (j <= c)%nat -> col E !! c = Some ((r, a) :: v) ->
                   (i <= r < m)%nat) ->
  (forall c c' r a v r' a' v',
     (j <= c < c')%nat -> col E !! c = Some ((r, a) :: v) ->
     col E !! c' = Some ((r', a') :: v') -> (r < r')%nat) ->
  exists E' coeff' i' j',
    extract_loop fuel m n E coeff i j = Some (E', coeff', i')
    /\ nrow E' = nrow E /\ ncol E' = ncol E
    /\ length coeff' = m /\ (i <= i' <= m)%nat /\ (j <= j' <= n)%nat
    /\ (forall c, col E' !! c
                  = if decide (j <= c < j')%nat then norm1 <$> col E !! c
                    else col E !! c)
    /\ ((j' < n)%nat -> col E !! j' = Some [] /\ i' = m)
    /\ (forall c, (j <= c < j')%nat -> col E !! c <> Some [])
    /\ (forall c r a v, (j <= c < j')%nat ->
          col E !! c = Some ((r, a) :: v) ->
          (r < i')%nat /\ coeff' !! r = Some a)
    /\ (forall r, (i <= r < i')%nat ->
          coeff' !! r = Some 1
          \/ exists c a v, (j <= c < j')%nat
                           /\ col E !! c = Some ((r, a) :: v))
    /\ (forall r, (r < i \/ i' <= r)%nat -> coeff' !! r = coeff !! r).
Proof.
  induction fuel as [|fuel IH]; intros E coeff i j HlE Hlc Hi Hj Hb Hinc.
  - simpl. exists E, coeff, i, j. split_and!; try done; try lia.
    intros c. case_decide; [lia | done].
  - simpl. destruct (Nat.ltb_spec i m) as [Him | Him]; simpl.
    2:{ (* the rows are exhausted: the remaining columns are empty *)
        exists E, coeff, i, j. split_and!; try done; try lia.
        - intros c. case_decide; [lia | done].
        - intros Hlt. split; [|lia].
          destruct (col E !! j) as [[|[r a] v]|] eqn:Hc; [done | |].
          + specialize (Hb j r a v ltac:(lia) Hc). lia.
          + apply lookup_ge_None in Hc. lia. }
    destruct (Nat.ltb_spec j n) as [Hjn | Hjn]; [|lia]. simpl.
    destruct (col E !! j) as [[|[r0 a0] v0]|] eqn:Hcj; simpl.
    + (* the end of the non-zero columns *)
      destruct (fill_ones_spec (m - i) coeff i) as (coeff' & -> & Hl & Hr);
        [lia|]. simpl.
      exists E, coeff', (Nat.max i m), j.
      split_and!; try done; try lia.
      * intros c. case_decide; [lia | done].
      * intros _. split; [done | lia].
      * intros r Hr'. left. rewrite Hr. rewrite decide_True by lia. done.
      * intros r Hr'. rewrite Hr. rewrite decide_False by lia. done.
    + pose proof (Hb j r0 a0 v0 ltac:(lia) Hcj) as Hr0.
      destruct (fill_ones_spec (r0 - i) coeff i) as (coeff1 & -> & Hl1 & Hr1);
        [lia|]. simpl.
      replace (Nat.max i r0) with r0 by lia.
      rewrite write_Some by lia. simpl.
      set (E2 := set_col E j ((r0, 1) :: v0)).
      set (coeff2 := <[r0 := a0]> coeff1).
      assert (forall c, c <> j -> col E2 !! c = col E !! c) as HE2ne.
      { intros c Hc. unfold E2. simpl. by rewrite list_lookup_insert_ne. }
      assert (col E2 !! j = Some ((r0, 1) :: v0)) as HE2j.
      { unfold E2. simpl. rewrite list_lookup_insert_eq by lia. done. }
      destruct (IH E2 coeff2 (r0 + 1)%nat (j + 1)%nat)
        as (E' & coeff' & i' & j' & Hres & Hnr & Hnc & Hlc' & Hi' & Hj'
            & Hcols & Hstop & Hnonempty & HP1 & HP2 & HP3).
      { unfold E2. simpl. by rewrite length_insert. }
      { unfold coeff2. rewrite length_insert. lia. }
      { lia. }
      { lia. }
      { intros c r a v Hc Hl. rewrite HE2ne in Hl by lia.
        pose proof (Hb c r a v ltac:(lia) Hl).
        pose proof (Hinc j c r0 a0 v0 r a v ltac:(lia) Hcj Hl). lia. }
      { intros c c' r a v r' a' v' Hc Hl Hl'.
        rewrite HE2ne in Hl by lia. rewrite HE2ne in Hl' by lia.
        apply (Hinc c c' r a v r' a' v'); try done. lia. }
      exists E', coeff', i', j'. rewrite Hres.
      split_and!; try done; try lia.
      * intros c. rewrite Hcols. destruct (decide (c = j)) as [-> | Hcne].
        -- rewrite decide_False by lia. rewrite decide_True by lia.
           rewrite HE2j, Hcj. done.
        -- rewrite HE2ne by done.
           repeat case_decide; try lia; done.
      * intros Hlt. destruct (Hstop Hlt) as [Hs1 Hs2].
        rewrite HE2ne in Hs1 by lia. done.
      * intros c Hc. destruct (decide (c = j)) as [-> | Hcne].
        -- by rewrite Hcj.
        -- rewrite <- HE2ne by done. apply Hnonempty. lia.
      * intros c r a v Hc Hl. destruct (decide (c = j)) as [-> | Hcne].
        -- rewrite Hcj in Hl. inversion Hl; subst. split; [lia|].
           rewrite HP3 by lia. unfold coeff2.
           rewrite list_lookup_insert_eq by lia. done.
        -- rewrite <- HE2ne in Hl by done.
           apply (HP1 c r a v); [lia | done].
      * intros r Hr.
        destruct (lt_eq_lt_dec r r0) as [[Hlt | ->] | Hgt].
        -- left. rewrite HP3 by lia. unfold coeff2.
           rewrite list_lookup_insert_ne by lia.
           rewrite Hr1. rewrite decide_True by lia. done.
        -- right. exists j, a0, v0. split; [lia | done].
        -- destruct (HP2 r ltac:(lia)) as [? | (c & a & v & Hc & Hl)];
             [by left|].
           right. exists c, a, v. split; [lia|].
           rewrite <- HE2ne by lia. done.
      * intros r Hr. rewrite HP3 by lia. unfold coeff2.
        rewrite list_lookup_insert_ne by lia.
        rewrite Hr1. rewrite decide_False by lia. done.
    + apply lookup_ge_None in Hcj. lia.
Qed.

Lemma mat_wf_pivot_lt (E : ColumnMatrix F) c r a v :
  mat_wf E = true -> col E !! c = Some ((r, a) :: v) ->
  (r < nrow E)%nat /\ a <> 0.
Proof.
  intros HE Hc. pose proof (mat_wf_col E c HE) as Hw.
  rewrite (mcol_lookup _ _ _ Hc) in Hw.
  apply sv_wf_from_cons in Hw as (_ & ? & ? & _). done.
Qed.

Lemma col_pivot_lookup (E : ColumnMatrix F) c r :
  col_pivot (mcol E c) = Some r <->
  exists a v, col E !! c = Some ((r, a) :: v).
Proof.
  split.
  - intros Hp. destruct (decide (c < length (col E))%nat) as [Hc | Hc].
    + rewrite (mcol_lookup_lt _ _ Hc).
      destruct (mcol E c) as [|[r' a] v]; [done|]. simpl in Hp.
      inversion Hp; subst. by exists a, v.
    + rewrite mcol_ge in Hp by lia. done.
  - intros (a & v & Hc). by rewrite (mcol_lookup _ _ _ Hc).
Qed.

Lemma extract_row_scale_spec (E : ColumnMatrix F) :
  mat_wf E = true -> is_EL E = true ->
  exists E' coeff np,
    extract_row_scale E = Some (E', coeff)
    /\ nrow E' = nrow E /\ ncol E' = ncol E
    /\ length coeff = nrow E /\ (np <= ncol E)%nat
    /\ (forall c, col E' !! c
                  = if decide (c < np)%nat then norm1 <$> col E !! c
                    else col E !! c)
    /\ ((np < ncol E)%nat -> col E !! np = Some [])
    /\ (forall c, (c < np)%nat -> col E !! c <> Some [])
    /\ (forall c r a v, (c < np)%nat ->
          col E !! c = Some ((r, a) :: v) -> coeff !! r = Some a)
    /\ (forall r, (r < nrow E)%nat ->
          coeff !! r = Some 1
          \/ exists c a v, (c < np)%nat /\ col E !! c = Some ((r, a) :: v)).
Proof.
  intros HE HEL. pose proof (mat_wf_length _ HE) as Hlen.
  unfold extract_row_scale.
  destruct (extract_loop_spec (nrow E) (ncol E) (ncol E) E
              (replicate (nrow E) 0) 0 0)
    as (E' & coeff1 & i' & j' & Hres & Hnr & Hnc & Hlc & Hi' & Hj'
        & Hcols & Hstop & Hnonempty & HP1 & HP2 & HP3); try done; try lia.
  { by rewrite length_replicate. }
  { intros c r a v _ Hc. destruct (mat_wf_pivot_lt _ _ _ _ _ HE Hc). lia. }
  { intros c c' r a v r' a' v' Hc Hl Hl'.
    pose proof (lookup_lt_Some _ _ _ Hl').
    apply (proj1 (is_EL_iff E) HEL c c'); [lia | |].
    - apply col_pivot_lookup. by exists a, v.
    - apply col_pivot_lookup. by exists a', v'. }
  rewrite Hres. simpl.
  destruct (fill_ones_spec (nrow E - i') coeff1 i') as (coeff & -> & Hl & Hr);
    [lia|]. simpl.
  exists E', coeff, j'. split_and!; try done; try lia.
  - intros c. rewrite Hcols. repeat case_decide; try lia; done.
  - intros Hlt. by destruct (Hstop Hlt).
  - intros c Hc. apply Hnonempty. lia.
  - intros c r a v Hc Hl'. destruct (HP1 c r a v ltac:(lia) Hl') as [? Hco].
    rewrite Hr. rewrite decide_False by lia. done.
  - intros r Hrm. destruct (decide (r < i')%nat) as [Hlt | Hge].
    + destruct (HP2 r ltac:(lia)) as [Hone | (c & a & v & Hc & Hl')].
      * left. rewrite Hr. rewrite decide_False by lia. done.
      * right. exists c, a, v. split; [lia | done].
    + left. rewrite Hr. rewrite decide_True by lia. done.
Qed.

(** *** Row scaling *)

Lemma scale_entries_Some (coeff : list F) (v : SparseVector F) :
  (forall e, e ∈ v -> (e.1 < length coeff)%nat) ->
  scale_entries coeff v
  = Some ((fun e : nat * F => (e.1, nth e.1 coeff 0 * e.2)) <$> v).
Proof.
  unfold scale_entries. induction v as [|[k x] v IH]; intros H; [done|].
  simpl. rewrite IH by (intros e He; by apply H, list_elem_of_further).
  specialize (H (k, x) (list_elem_of_here _ _)). simpl in H.
  destruct (coeff !! k) as [c|] eqn:Hc.
  - simpl. by rewrite (nth_lookup_Some _ _ _ _ Hc).
  - apply lookup_ge_None in Hc. lia.
Qed.

Lemma row_scale_Some (coeff : list F) (A : ColumnMatrix F) :
  (forall v e, v ∈ col A -> e ∈ v -> (e.1 < length coeff)%nat) ->
  row_scale coeff A
  = Some (MkMat (nrow A) (ncol A)
            ((fun v : SparseVector F =>
                (fun e : nat * F => (e.1, nth e.1 coeff 0 * e.2)) <$> v)
               <$> col A)).
Proof.
  intros H. unfold row_scale.
  assert (mapM (scale_entries coeff) (col A)
          = Some ((fun v : SparseVector F =>
                     (fun e : nat * F => (e.1, nth e.1 coeff 0 * e.2)) <$> v)
                    <$> col A)) as ->; [|done].
  induction (col A) as [|v cols IH]; [done|]. simpl.
  rewrite scale_entries_Some
    by (intros e He; apply (H v); [apply list_elem_of_here | done]).
  simpl. rewrite IH; [done|].
  intros v' e Hv' He. apply (H v'); [by apply list_elem_of_further | done].
Qed.

Lemma pivots_only_spec lo (cols : list (SparseVector F)) :
  pivots_only_from lo cols = true ->
  (forall c v, cols !! c = Some v -> v = [] \/ exists r a, v = [(r, a)])
  /\ (forall c c' v', (c < c')%nat -> cols !! c = Some [] ->
                      cols !! c' = Some v' -> v' = []).
Proof.
  revert lo. induction cols as [|v cols IH]; intros lo H.
  - split; intros; done.
  - destruct v as [|[k a] [|e v]]; simpl in H; [| |done].
    + (* an empty column: all the following ones are empty *)
      assert (forall c v', cols !! c = Some v' -> v' = []) as Hall.
      { intros c v' Hc. rewrite forallb_forall in H.
        specialize (H v'). rewrite bool_decide_eq_true in H. apply H.
        apply list_elem_of_In, list_elem_of_lookup. by exists c. }
      split.
      * intros [|c] v' Hc; simpl in Hc.
        -- inversion Hc. by left.
        -- left. by apply (Hall c).
      * intros c [|c'] v' Hlt Hc Hc'; [lia|]. simpl in Hc'.
        by apply (Hall c').
    + apply andb_true_iff in H as [_ H]. destruct (IH _ H) as [IH1 IH2].
      split.
      * intros [|c] v' Hc; simpl in Hc.
        -- inversion Hc. right. by exists k, a.
        -- by apply (IH1 c).
      * intros [|c] [|c'] v' Hlt Hc Hc'; simpl in *; try lia; try done.
        apply (IH2 c c'); try done. lia.
Qed.

(** C5, as amended.  For every well-formed EL-shaped matrix E whose nonzero
    columns hold their pivot entry alone and precede the zero columns,
    [extract_row_scale] returns, every pivot of the normalized matrix is
    one, rows without pivot get the coefficient one, and scaling the rows
    of the normalized matrix by the coefficients recovers E. *)
Theorem extract_row_scale_round_trip (E : ColumnMatrix F) :
  mat_wf E = true -> is_EL E = true -> EL_pivots_only E = true ->
  row_scale_round_trip E.
Proof.
  intros HE HEL Hpo.
  destruct (extract_row_scale_spec E HE HEL)
    as (E' & coeff & np & Hres & Hnr & Hnc & Hlc & Hnp & Hcols & Hstop
        & Hnonempty & HP1 & HP2).
  destruct (pivots_only_spec 0 (col E) Hpo) as [Hsingle Hzero].
  pose proof (mat_wf_length _ HE) as Hlen.
  assert (forall c v, (np <= c)%nat -> col E !! c = Some v -> v = []) as Htail.
  { intros c v Hc Hl. pose proof (lookup_lt_Some _ _ _ Hl).
    destruct (decide (c = np)) as [-> | Hne].
    - rewrite Hstop in Hl by lia. by inversion Hl.
    - apply (Hzero np c v); [lia | apply Hstop; lia | done]. }
  exists E', coeff. split_and!; try done.
  - intros c r a v Hc. rewrite Hcols in Hc. case_decide as Hcnp.
    + destruct (col E !! c) as [[|[r' a'] v']|]; simpl in Hc; try done.
      by inversion Hc.
    + apply Htail in Hc; [done | lia].
  - intros r Hr Hnopiv. destruct (HP2 r Hr) as [? | (c & a & v & Hc & Hl)];
      [done|].
    exfalso. apply (Hnopiv c). apply col_pivot_lookup. by exists a, v.
  - rewrite row_scale_Some.
    + destruct E as [m n cols]. simpl in *. rewrite Hnr, Hnc. do 2 f_equal.
      apply list_eq. intros c. rewrite list_lookup_fmap, Hcols.
      destruct (cols !! c) as [v|] eqn:Hc;
        [|by repeat case_decide].
      destruct (decide (c < np)%nat) as [Hcnp | Hcnp]; simpl.
      * destruct (Hsingle c v Hc) as [-> | (r & a & ->)].
        { by apply Hnonempty in Hc. }
        simpl. rewrite (nth_lookup_Some _ _ _ _ (HP1 c r a [] Hcnp Hc)).
        do 3 f_equal. ring.
      * rewrite (Htail c v) by (try done; lia). done.
    + intros v e Hv He. apply list_elem_of_lookup in Hv as [c Hc].
      rewrite Hcols in Hc. rewrite Hlc.
      assert (exists v0, col E !! c = Some v0 /\ e.1 ∈ (fst <$> v0)) as
        (v0 & Hv0 & He0).
      { case_decide.
        - destruct (col E !! c) as [v0|] eqn:Hv0; [|done]. simpl in Hc.
          inversion Hc; subst. exists v0. split; [done|].
          destruct v0 as [|[r a] v0]; simpl in *;
            [by apply not_elem_of_nil in He|].
          apply elem_of_cons in He as [-> | He]; simpl.
          + apply list_elem_of_here.
          + apply list_elem_of_further, list_elem_of_fmap. by exists e.
        - exists v. split; [done|]. apply list_elem_of_fmap. by exists e. }
      apply list_elem_of_fmap in He0 as ([k x] & -> & Hkx). simpl.
      pose proof (mat_wf_col E c HE) as Hw.
      rewrite (mcol_lookup _ _ _ Hv0) in Hw.
      destruct (getval_elem _ _ _ _ _ Hw Hkx) as [Hg Hx].
      destruct (decide (k < nrow E)%nat); [done|].
      rewrite (getval_above _ _ _ _ Hw) in Hg by lia. congruence.
Qed.

(** ** [EL_L_commute] *)

Lemma mapM_total {X Y : Type} (f : X -> option Y) (g : X -> Y) (l : list X) :
  (forall x, x ∈ l -> f x = Some (g x)) -> mapM f l = Some (g <$> l).
Proof.
  induction l as [|x l IH]; intros H; [done|]. simpl.
  rewrite (H x) by apply list_elem_of_here. simpl.
  rewrite IH; [done|]. intros y Hy. by apply H, list_elem_of_further.
Qed.

Lemma idx_map_spec (E : ColumnMatrix F) n :
  length (col E) = n ->
  mapM (pivot_ind E) (seq 0 n)
  = Some ((fun j => col_pivot (mcol E j)) <$> seq 0 n).
Proof.
  intros Hlen. apply mapM_total. intros j Hj. apply elem_of_seq in Hj.
  unfold pivot_ind. rewrite (mcol_lookup_lt E j) by lia. done.
Qed.

Lemma idx_map_lookup (E : ColumnMatrix F) n k :
  ((fun j => col_pivot (mcol E j)) <$> seq 0 n) !! k
  = if decide (k < n)%nat then Some (col_pivot (mcol E k)) else None.
Proof.
  rewrite list_lookup_fmap. case_decide.
  - by rewrite lookup_seq_lt.
  - by rewrite lookup_seq_ge by lia.
Qed.

Lemma col_pivot_norm1 (v : SparseVector F) : col_pivot (norm1 v) = col_pivot v.
Proof. by destruct v as [|[r a] v]. Qed.

Lemma remap_entries_Some (idx : list (option nat)) (v : SparseVector F) :
  forall acc,
  (forall e, e ∈ v -> (e.1 < length idx)%nat) ->
  exists w, remap_entries idx v acc = Some w.
Proof.
  induction v as [|[k x] v IH]; intros acc H; simpl; [by exists acc|].
  pose proof (H (k, x) (list_elem_of_here _ _)) as Hk. simpl in Hk.
  destruct (idx !! k) as [[r|]|] eqn:Hi; simpl.
  - apply IH. intros e He. by apply H, list_elem_of_further.
  - by exists acc.
  - apply lookup_ge_None in Hi. lia.
Qed.

Lemma sv_wf_from_snoc l0 lo (acc : SparseVector F) r x :
  sv_wf_from l0 lo acc = true -> (l0 <= r)%nat -> (lo <= r)%nat -> x <> 0 ->
  sv_wf_from l0 (S r) (acc ++ [(r, x)]) = true.
Proof.
  revert l0. induction acc as [|[k0 x0] acc IH]; intros l0 Hacc Hl0 Hlo Hx.
  - change (sv_wf_from l0 (S r) ((r, x) :: []) = true).
    apply sv_wf_from_cons. repeat split; try done; lia.
  - apply sv_wf_from_cons in Hacc as (? & ? & ? & Hacc).
    change (sv_wf_from l0 (S r) ((k0, x0) :: (acc ++ [(r, x)])) = true).
    apply sv_wf_from_cons. repeat split; try done; try lia.
    apply IH; try done. lia.
Qed.

Lemma remap_entries_wf (idx : list (option nat)) m (v : SparseVector F) :
  forall lok lo acc w,
  sv_wf_from lok (length idx) v = true ->
  sv_wf_from 0 lo acc = true -> (lo <= m)%nat ->
  (forall k r, (lok <= k)%nat -> idx !! k = Some (Some r) ->
               (lo <= r < m)%nat) ->
  (forall k k' r r', (k < k')%nat -> idx !! k = Some (Some r) ->
                     idx !! k' = Some (Some r') -> (r < r')%nat) ->
  remap_entries idx v acc = Some w ->
  sv_wf m w = true.
Proof.
  induction v as [|[k x] v IH]; intros lok lo acc w Hv Hacc Hlo Hidx Hinc Hw.
  - simpl in Hw. inversion Hw; subst.
    eapply sv_wf_from_weaken; [exact Hacc | lia | lia].
  - apply sv_wf_from_cons in Hv as (? & ? & ? & Hv). simpl in Hw.
    destruct (idx !! k) as [[r|]|] eqn:Hi; simpl in Hw; [| |done].
    + destruct (Hidx k r ltac:(lia) Hi) as [? ?].
      apply (IH (S k) (S r) (acc ++ [(r, x)]) w); try done; try lia.
      * apply (sv_wf_from_snoc 0 lo); try done; lia.
      * intros k' r' Hk' Hi'. pose proof (Hidx k' r' ltac:(lia) Hi').
        pose proof (Hinc k k' r r' ltac:(lia) Hi Hi'). lia.
    + inversion Hw; subst.
      eapply sv_wf_from_weaken; [exact Hacc | lia | lia].
Qed.

Lemma commute_cols_spec (L : ColumnMatrix F) (idx : list (option nat)) m :
  forall ells (Lt : ColumnMatrix F),
  length (col Lt) = m ->
  (forall ell, ell ∈ ells ->
     (ell < length idx)%nat /\ (ell < length (col L))%nat) ->
  (forall ell r, ell ∈ ells -> idx !! ell = Some (Some r) -> (r < m)%nat) ->
  (forall ell e, ell ∈ ells -> e ∈ mcol L ell -> (e.1 < length idx)%nat) ->
  exists Lt',
    commute_cols L idx ells Lt = Some Lt'
    /\ nrow Lt' = nrow Lt /\ ncol Lt' = ncol Lt /\ length (col Lt') = m
    /\ forall c,
         mcol Lt' c = mcol Lt c
         \/ exists ell w,
              ell ∈ ells /\ idx !! ell = Some (Some c)
              /\ remap_entries idx (mcol L ell) [] = Some w
              /\ mcol Lt' c = w.
Proof.
  induction ells as [|ell ells IH]; intros Lt Hlen Hrange Hpiv Hent; simpl.
  - exists Lt. repeat split; try done. intros c. by left.
  - destruct (Hrange ell (list_elem_of_here _ _)) as [Hell1 Hell2].
    destruct (idx !! ell) as [[j_ell|]|] eqn:Hi; simpl.
    + pose proof (Hpiv ell j_ell (list_elem_of_here _ _) Hi) as Hj.
      rewrite (mcol_lookup_lt Lt j_ell) by lia. simpl.
      rewrite (mcol_lookup_lt L ell) by lia. simpl.
      destruct (remap_entries_Some idx (mcol L ell) []) as [w Hw].
      { intros e He. apply (Hent ell); [apply list_elem_of_here | done]. }
      rewrite Hw. simpl.
      destruct (IH (set_col Lt j_ell w)) as (Lt' & Hres & Hnr & Hnc & Hl & Hc).
      { simpl. by rewrite length_insert. }
      { intros ell' H'. by apply Hrange, list_elem_of_further. }
      { intros ell' r H'. by apply Hpiv, list_elem_of_further. }
      { intros ell' e H'. by apply Hent, list_elem_of_further. }
      exists Lt'. rewrite Hres. repeat split; try done.
      intros c. destruct (Hc c) as [Heq | (ell' & w' & H1 & H2 & H3 & H4)].
      * destruct (decide (c = j_ell)) as [-> | Hne].
        -- right. exists ell, w. rewrite Heq.
           rewrite mcol_set_col_eq by lia.
           repeat split; try done. apply list_elem_of_here.
        -- left. rewrite Heq. by rewrite mcol_set_col_ne.
      * right. exists ell', w'. repeat split; try done.
        by apply list_elem_of_further.
    + exists Lt. repeat split; try done. intros c. by left.
    + apply lookup_ge_None in Hi. lia.
Qed.

Lemma remap_entries_elem (idx : list (option nat)) (v : SparseVector F) :
  forall acc w,
  remap_entries idx v acc = Some w ->
  forall e, e ∈ w ->
    e ∈ acc \/ exists k, (k, e.2) ∈ v /\ idx !! k = Some (Some e.1).
Proof.
  induction v as [|[k x] v IH]; intros acc w Hw e He; simpl in Hw.
  - inversion Hw; subst. by left.
  - destruct (idx !! k) as [[r|]|] eqn:Hi; simpl in Hw; [| |done].
    + destruct (IH _ _ Hw e He) as [Hin | (k' & Hk' & Hi')].
      * apply elem_of_app in Hin as [Hin | Hin]; [by left|].
        apply list_elem_of_singleton in Hin. subst e. right. exists k.
        split; [apply list_elem_of_here | done].
      * right. exists k'. split; [by apply list_elem_of_further | done].
    + inversion Hw; subst. by left.
Qed.

Lemma mcol_fmap a b a' b' (g : SparseVector F -> SparseVector F)
    (cs : list (SparseVector F)) c :
  g [] = [] ->
  mcol (MkMat a b (g <$> cs)) c = g (mcol (MkMat a' b' cs) c).
Proof.
  intros Hg. unfold mcol. simpl.
  destruct (decide (c < length cs)%nat) as [Hc | Hc].
  - by apply list_lookup_total_fmap.
  - rewrite (list_lookup_total_alt (g <$> cs) c), (list_lookup_total_alt cs c).
    rewrite list_lookup_fmap. rewrite (lookup_ge_None_2 cs c) by lia.
    simpl. symmetry. exact Hg.
Qed.

Lemma scaled_wf (coeff : list F) m (v : SparseVector F) :
  (forall r, (r < m)%nat -> nth r coeff 0 <> 0) ->
  forall lo, sv_wf_from lo m v = true ->
             sv_wf_from lo m (scaled coeff v) = true.
Proof.
  intros Hc. induction v as [|[k x] v IH]; intros lo Hv; [done|].
  apply sv_wf_from_cons in Hv as (? & ? & ? & Hv).
  change (sv_wf_from lo m ((k, nth k coeff 0 * x) :: scaled coeff v) = true).
  apply sv_wf_from_cons. repeat split; try done.
  - apply Fmul_neq_0; [by apply Hc | done].
  - by apply IH.
Qed.

(** What [EL_L_commute] computes whenever each of its reads is in range:
    the columns of [L] it visits exist and store row indices below the
    column count of [E]. *)
Lemma EL_L_commute_spec (E L : ColumnMatrix F) :
  mat_wf E = true -> is_EL E = true ->
  (ncol E <= length (col L))%nat ->
  (forall ell e, (ell < ncol E)%nat -> e ∈ mcol L ell -> (e.1 < ncol E)%nat) ->
  exists E' coeff Lt R,
    let idx := (fun j => col_pivot (mcol E j)) <$> seq 0 (ncol E) in
    extract_row_scale E = Some (E', coeff)
    /\ commute_cols L idx (seq 0 (ncol E)) (identity (nrow E)) = Some Lt
    /\ EL_L_commute E L = Some R
    /\ length coeff = nrow E
    /\ (forall r, (r < nrow E)%nat ->
          coeff !! r = Some 1
          \/ exists c a v,
               col E !! c = Some ((r, a) :: v) /\ coeff !! r = Some a)
    /\ nrow R = nrow E /\ ncol R = nrow E /\ length (col R) = nrow E
    /\ (forall c, mcol R c = scaled coeff (mcol Lt c))
    /\ (forall c, (c < nrow E)%nat ->
          mcol Lt c = [(c, 1)]
          \/ exists ell w,
               (ell < ncol E)%nat /\ col_pivot (mcol E ell) = Some c
               /\ remap_entries idx (mcol L ell) [] = Some w
               /\ mcol Lt c = w).
Proof.
  intros Hwf HEL HLlen HLent.
  destruct (extract_row_scale_spec E Hwf HEL)
    as (E' & coeff & np & Hex & Hnr & Hnc & Hclen & Hnp & Hcols & _ & _
        & Hpc & Hrows).
  pose proof (mat_wf_length E Hwf) as HlenE.
  assert (HlenE' : length (col E') = ncol E).
  { rewrite <- HlenE. apply Nat.le_antisymm.
    - destruct (decide (length (col E') <= length (col E))%nat); [done|].
      exfalso.
      destruct (lookup_lt_is_Some_2 (col E') (length (col E)) ltac:(lia))
        as [v Hv].
      rewrite Hcols in Hv.
      rewrite (lookup_ge_None_2 (col E) (length (col E))) in Hv by lia.
      by destruct (decide (length (col E) < np)%nat).
    - destruct (decide (length (col E) <= length (col E'))%nat); [done|].
      exfalso.
      destruct (lookup_lt_is_Some_2 (col E) (length (col E')) ltac:(lia))
        as [v Hv].
      pose proof (Hcols (length (col E'))) as Hc. rewrite Hv in Hc.
      rewrite (lookup_ge_None_2 (col E') (length (col E'))) in Hc by lia.
      by destruct (decide (length (col E') < np)%nat). }
  assert (Hpiv : forall j, col_pivot (mcol E' j) = col_pivot (mcol E j)).
  { intros j. unfold mcol. rewrite !list_lookup_total_alt, Hcols.
    destruct (decide (j < np)%nat); [|done].
    destruct (col E !! j) as [v|]; simpl; [apply col_pivot_norm1 | done]. }
  set (idx := (fun j => col_pivot (mcol E j)) <$> seq 0 (ncol E)).
  assert (Hidx : mapM (pivot_ind E') (seq 0 (ncol E)) = Some idx).
  { rewrite (idx_map_spec E' (ncol E) HlenE'). f_equal. unfold idx.
    apply list_fmap_ext. intros ? j _. apply Hpiv. }
  assert (Hidxlen : length idx = ncol E).
  { unfold idx. by rewrite length_fmap, length_seq. }
  assert (Hidxl : forall k r, idx !! k = Some (Some r) ->
                    (k < ncol E)%nat /\ col_pivot (mcol E k) = Some r).
  { intros k r Hk. unfold idx in Hk. rewrite idx_map_lookup in Hk.
    destruct (decide (k < ncol E)%nat); [|done]. split; [done|]. congruence. }
  assert (Hidxm : forall k r, idx !! k = Some (Some r) -> (r < nrow E)%nat).
  { intros k r Hk. apply Hidxl in Hk as [_ Hk].
    apply col_pivot_lookup in Hk as (a & v & Hk).
    by destruct (mat_wf_pivot_lt E k r a v Hwf Hk). }
  destruct (commute_cols_spec L idx (nrow E) (seq 0 (ncol E))
              (identity (nrow E)))
    as (Lt & HLt & HLtnr & HLtnc & HLtlen & HLtcols).
  { by rewrite (mat_wf_length _ (identity_wf (nrow E))). }
  { intros ell Hell. apply elem_of_seq in Hell. lia. }
  { intros ell r _ Hk. by apply (Hidxm ell). }
  { intros ell e Hell He. apply elem_of_seq in Hell. rewrite Hidxlen.
    apply (HLent ell); [lia | done]. }
  assert (HLtcol : forall c, (c < nrow E)%nat ->
          mcol Lt c = [(c, 1)]
          \/ exists ell w,
               (ell < ncol E)%nat /\ col_pivot (mcol E ell) = Some c
               /\ remap_entries idx (mcol L ell) [] = Some w
               /\ mcol Lt c = w).
  { intros c Hc. destruct (HLtcols c) as [Heq | (ell & w & H1 & H2 & H3 & H4)].
    - left. rewrite Heq. by apply mcol_identity.
    - right. exists ell, w. apply Hidxl in H2 as [? ?]. by repeat split. }
  assert (Hrange : forall v e, v ∈ col Lt -> e ∈ v ->
                     (e.1 < length coeff)%nat).
  { intros v e Hv He. rewrite Hclen.
    apply list_elem_of_lookup in Hv as [c Hv].
    pose proof (lookup_lt_Some _ _ _ Hv) as Hc. rewrite HLtlen in Hc.
    apply mcol_lookup in Hv. subst v.
    destruct (HLtcol c Hc) as [Heq | (ell & w & H1 & H2 & H3 & H4)].
    - rewrite Heq in He. apply list_elem_of_singleton in He. by subst e.
    - rewrite H4 in He.
      destruct (remap_entries_elem _ _ _ _ H3 e He) as [Hin | (k & _ & Hk)].
      + by apply not_elem_of_nil in Hin.
      + by apply (Hidxm k). }
  exists E', coeff, Lt.
  eexists. cbv zeta. split; [exact Hex|]. split; [exact HLt|].
  unfold EL_L_commute. rewrite Hex. simpl. rewrite Hnc, Hnr, Hidx. simpl.
  rewrite HLt. simpl. rewrite (row_scale_Some coeff Lt Hrange).
  split; [reflexivity|]. simpl.
  split; [done|]. split.
  { intros r Hr. destruct (Hrows r Hr) as [H1 | (c & a & v & Hc & Hv)].
    - by left.
    - right. exists c, a, v. split; [done|]. by apply (Hpc c r a v). }
  split; [by rewrite HLtnr|]. split; [by rewrite HLtnc|].
  split; [by rewrite length_fmap|]. split; [|done].
  intros c. unfold scaled.
  rewrite (mcol_fmap _ _ (nrow Lt) (ncol Lt)) by done. by destruct Lt.
Qed.

Lemma sv_wf_from_elem lo m (v : SparseVector F) e :
  sv_wf_from lo m v = true -> e ∈ v -> (lo <= e.1 < m)%nat /\ e.2 <> 0.
Proof.
  revert lo. induction v as [|[k x] v IH]; intros lo Hv He.
  - by apply not_elem_of_nil in He.
  - apply sv_wf_from_cons in Hv as (? & ? & ? & Hv).
    apply elem_of_cons in He as [-> | He]; simpl; [split; [lia | done]|].
    destruct (IH _ Hv He). split; [lia | done].
Qed.

Lemma matching_readable (L : ColumnMatrix F) n :
  mat_wf L = true -> nrow L = n -> ncol L = n ->
  (n <= length (col L))%nat
  /\ forall ell e, (ell < n)%nat -> e ∈ mcol L ell -> (e.1 < n)%nat.
Proof.
  intros Hwf Hnr Hnc. split; [rewrite (mat_wf_length L Hwf); lia|].
  intros ell e _ He. pose proof (mat_wf_col L ell Hwf) as Hv.
  destruct (sv_wf_from_elem _ _ _ _ Hv He). lia.
Qed.

Lemma coeff_nonzero (E : ColumnMatrix F) (coeff : list F) :
  mat_wf E = true ->
  (forall r, (r < nrow E)%nat ->
     coeff !! r = Some 1
     \/ exists c a v, col E !! c = Some ((r, a) :: v) /\ coeff !! r = Some a) ->
  forall r, (r < nrow E)%nat -> nth r coeff 0 <> 0.
Proof.
  intros Hwf Hc r Hr. rewrite nth_lookup.
  destruct (Hc r Hr) as [-> | (c & a & v & Hcol & ->)]; simpl.
  - apply Fone_neq_zero.
  - by destruct (mat_wf_pivot_lt E c r a v Hwf Hcol).
Qed.

(** On matching operands [EL_L_commute] returns, and what it returns is a
    well-formed square matrix on the rows of [E]. *)
Lemma EL_L_commute_wf (E L : ColumnMatrix F) :
  mat_wf E = true -> is_EL E = true -> mat_wf L = true ->
  nrow L = ncol E -> ncol L = ncol E ->
  exists R, EL_L_commute E L = Some R /\ mat_wf R = true
            /\ nrow R = nrow E /\ ncol R = nrow E.
Proof.
  intros Hwf HEL HL Hnr Hnc.
  destruct (matching_readable L (ncol E) HL Hnr Hnc) as [Hlen Hent].
  destruct (EL_L_commute_spec E L Hwf HEL Hlen Hent)
    as (E' & coeff & Lt & R & _ & _ & HR & Hclen & Hcoeff & HRnr & HRnc
        & HRlen & HRcol & HLt).
  cbv zeta in *.
  exists R. repeat split; try done.
  apply mat_wf_iff. split; [lia|]. intros c. rewrite HRnr.
  destruct (decide (c < nrow E)%nat) as [Hc | Hc];
    [|by rewrite mcol_ge by lia].
  rewrite HRcol. apply scaled_wf; [by apply (coeff_nonzero E)|].
  destruct (HLt c Hc) as [-> | (ell & w & Hell & Hp & Hw & ->)].
  - apply sv_wf_from_cons. repeat split; try lia; try done.
    apply Fone_neq_zero.
  - pose proof (mat_wf_length E Hwf) as HlenE.
    eapply (remap_entries_wf _ (nrow E) (mcol L ell) 0 0 []);
      [ | done | lia | | | exact Hw].
    + rewrite length_fmap, length_seq, <- Hnr. apply (mat_wf_col L ell HL).
    + intros k r _ Hk. rewrite idx_map_lookup in Hk.
      destruct (decide (k < ncol E)%nat); [|done].
      assert (Hk' : col_pivot (mcol E k) = Some r) by congruence.
      apply col_pivot_lookup in Hk' as (a & v & Hk').
      destruct (mat_wf_pivot_lt E k r a v Hwf Hk'). lia.
    + intros k k' r r' Hkk Hk Hk'. rewrite idx_map_lookup in Hk, Hk'.
      destruct (decide (k < ncol E)%nat); [|done].
      destruct (decide (k' < ncol E)%nat); [|done].
      apply (proj1 (is_EL_iff E) HEL k k' r r'); [lia | congruence..].
Qed.

(** C10.  For every well-formed EL-shaped matrix E and every well-formed
    matching L (square on the columns of E; unitriangularity is not even
    needed), [EL_L_commute E L] returns, and every column of the result
    whose index is a row of E but not a pivot row of E is the standard
    basis vector at that index. *)
Theorem EL_L_commute_nonpivot_columns (E L : ColumnMatrix F) :
  mat_wf E = true -> is_EL E = true -> mat_wf L = true ->
  nrow L = ncol E -> ncol L = ncol E ->
  exists R,
    EL_L_commute E L = Some R
    /\ forall c, (c < nrow E)%nat -> c ∉ pivot_rows E ->
         mcol R c = [(c, 1)] /\ mcol R c = mcol (identity (nrow E)) c.
Proof.
  intros Hwf HEL HL Hnr Hnc.
  destruct (matching_readable L (ncol E) HL Hnr Hnc) as [Hlen Hent].
  destruct (EL_L_commute_spec E L Hwf HEL Hlen Hent)
    as (E' & coeff & Lt & R & _ & _ & HR & Hclen & Hcoeff & HRnr & HRnc
        & HRlen & HRcol & HLt).
  cbv zeta in *.
  exists R. split; [done|]. intros c Hc Hnp.
  assert (Hno : forall ell, col_pivot (mcol E ell) <> Some c).
  { intros ell Hp. apply Hnp. unfold pivot_rows.
    apply list_elem_of_omap. exists (mcol E ell). split; [|exact Hp].
    apply col_pivot_lookup in Hp as (a & v & Hp).
    rewrite (mcol_lookup _ _ _ Hp).
    by apply list_elem_of_lookup_2 in Hp. }
  rewrite mcol_identity by done.
  assert (mcol R c = [(c, 1)]) as ->; [|done].
  rewrite HRcol.
  destruct (HLt c Hc) as [-> | (ell & w & _ & Hp & _)];
    [|by destruct (Hno ell)].
  unfold scaled. simpl. rewrite nth_lookup.
  destruct (Hcoeff c Hc) as [-> | (c' & a & v & Hcol & _)].
  - simpl. do 2 f_equal. ring.
  - destruct (Hno c'). apply col_pivot_lookup. by exists a, v.
Qed.

Lemma readable_by_spec n (L : ColumnMatrix F) :
  readable_by n L = true ->
  (n <= length (col L))%nat
  /\ forall ell e, (ell < n)%nat -> e ∈ mcol L ell -> (e.1 < n)%nat.
Proof.
  unfold readable_by. intros H. apply andb_true_iff in H as [Hlen Hall].
  apply Nat.leb_le in Hlen. split; [done|]. intros ell e Hell He.
  rewrite forallb_forall in Hall.
  assert (Hin : In (mcol L ell) (take n (col L))).
  { apply list_elem_of_In, elem_of_take. exists ell. split; [|done].
    apply mcol_lookup_lt. lia. }
  pose proof (Hall _ Hin) as Hv. rewrite forallb_forall in Hv.
  apply list_elem_of_In in He. apply Hv in He. by apply Nat.ltb_lt in He.
Qed.

(** C4, as amended.  [EL_L_commute] checks no dimension: on a well-formed
    EL-shaped E it returns a square matrix on the rows of E for every L
    that stores at least as many columns as E has and whose visited columns
    hold row indices below the column count of E, whatever row and column
    counts L declares. *)
Theorem EL_L_commute_unchecked (E L : ColumnMatrix F) :
  mat_wf E = true -> is_EL E = true -> readable_by (ncol E) L = true ->
  exists R, EL_L_commute E L = Some R /\ nrow R = nrow E /\ ncol R = nrow E.
Proof.
  intros Hwf HEL Hread.
  destruct (readable_by_spec _ _ Hread) as [Hlen Hent].
  destruct (EL_L_commute_spec E L Hwf HEL Hlen Hent)
    as (E' & coeff & Lt & R & _ & _ & HR & Hclen & Hcoeff & HRnr & HRnc & _).
  cbv zeta in *. by exists R.
Qed.

Lemma LEUP_fact_wf (A : ColumnMatrix F) :
  mat_wf A = true -> fact_wf (LEUP A) = true.
Proof.
  intros HA. destruct (LEUP_has_facts A HA) as (sigma & tau & HF).
  unfold fact_wf.
  by rewrite (lf_L_wf _ _ _ _ HF), (lf_E_wf _ _ _ _ HF),
             (lf_U_wf _ _ _ _ HF), (lf_P_wf _ _ _ _ HF).
Qed.

(** C7.  Every matrix returned by LEUP, PLEU, UELP and PUEL on a
    well-formed matrix, and the matrix returned by [EL_L_commute] and by
    [L_EL_commute] on well-formed matching operands of the shape each
    expects, satisfies the sparse-vector invariant: the stored column count
    is the declared one, and in every column the row indices strictly
    increase, stay below the row count, and no stored value is zero. *)
Theorem returned_matrices_wf (A E L E2 L2 : ColumnMatrix F) :
  mat_wf A = true ->
  mat_wf E = true -> is_EL E = true -> mat_wf L = true ->
  nrow L = ncol E -> ncol L = ncol E ->
  is_EL (J_conjugation (T E2)) = true ->
  nrow L2 = nrow E2 -> ncol L2 = nrow E2 ->
  fact_wf (LEUP A) = true /\ fact_wf (PLEU A) = true
  /\ fact_wf (UELP A) = true /\ fact_wf (PUEL A) = true
  /\ (exists R, EL_L_commute E L = Some R /\ mat_wf R = true)
  /\ (exists R, L_EL_commute L2 E2 = Some R /\ mat_wf R = true).
Proof.
  intros HA HE HEL HL Hnr Hnc HEL2 Hnr2 Hnc2.
  split; [by apply LEUP_fact_wf|].
  split; [unfold fact_wf, PLEU; simpl; by rewrite !T_wf|].
  split; [unfold fact_wf, UELP; simpl; by rewrite !J_wf|].
  split; [unfold fact_wf, PUEL; simpl; by rewrite !J_wf|].
  split.
  - destruct (EL_L_commute_wf E L HE HEL HL Hnr Hnc) as (R & HR & HRwf & _).
    by exists R.
  - destruct (EL_L_commute_wf (J_conjugation (T E2)) (J_conjugation (T L2)))
      as (R & HR & _); try done; try apply J_wf.
    exists (J_conjugation (T R)). unfold L_EL_commute. rewrite HR.
    split; [done | apply J_wf].
Qed.

(** ** What [EL_L_commute] does compute *)

Lemma remap_entries_acc (idx : list (option nat)) (v : SparseVector F) :
  forall acc w e,
  remap_entries idx v acc = Some w -> e ∈ acc -> e ∈ w.
Proof.
  induction v as [|[k x] v IH]; intros acc w e Hw He; simpl in Hw.
  - by inversion Hw; subst.
  - destruct (idx !! k) as [[r|]|]; simpl in Hw; [| |done].
    + apply (IH _ _ _ Hw). apply elem_of_app. by left.
    + by inversion Hw; subst.
Qed.

Lemma remap_entries_complete (idx : list (option nat)) (m' : nat)
    (v : SparseVector F) :
  (forall k k' r, (k' < k)%nat -> idx !! k = Some (Some r) ->
                  idx !! k' <> Some None) ->
  forall lo acc w,
  sv_wf_from lo m' v = true ->
  remap_entries idx v acc = Some w ->
  forall k x r, (k, x) ∈ v -> idx !! k = Some (Some r) -> (r, x) ∈ w.
Proof.
  intros Hlast. induction v as [|[k0 x0] v IH]; intros lo' acc w Hv Hw k x r Hin Hk.
  - by apply not_elem_of_nil in Hin.
  - apply sv_wf_from_cons in Hv as (? & ? & ? & Hv). simpl in Hw.
    destruct (idx !! k0) as [[r0|]|] eqn:Hi; simpl in Hw; [| |done].
    + apply elem_of_cons in Hin as [Heq | Hin].
      * inversion Heq; subst. rewrite Hi in Hk. inversion Hk; subst.
        apply (remap_entries_acc _ _ _ _ _ Hw). apply elem_of_app. right.
        apply list_elem_of_here.
      * by apply (IH _ _ _ Hv Hw k x r).
    + exfalso. apply elem_of_cons in Hin as [Heq | Hin].
      * inversion Heq; subst. congruence.
      * destruct (sv_wf_from_elem _ _ _ _ Hv Hin) as [[? ?] _]. simpl in *.
        apply (Hlast k k0 r); [lia | done | done].
Qed.

Lemma remap_getval_nonpivot (idx : list (option nat)) (v w : SparseVector F) i :
  remap_entries idx v [] = Some w ->
  (forall k, idx !! k <> Some (Some i)) ->
  getval w i = 0.
Proof.
  intros Hw Hno. destruct (decide (getval w i = 0)) as [|Hne]; [done|].
  apply getval_nonzero_elem in Hne.
  destruct (remap_entries_elem _ _ _ _ Hw _ Hne) as [Hin | (k & _ & Hk)].
  - by apply not_elem_of_nil in Hin.
  - by destruct (Hno k).
Qed.

Lemma remap_getval_pivot (idx : list (option nat)) m (v w : SparseVector F)
    k i :
  sv_wf (length idx) v = true ->
  (forall k r, idx !! k = Some (Some r) -> (r < m)%nat) ->
  (forall k k' r r', (k < k')%nat -> idx !! k = Some (Some r) ->
                     idx !! k' = Some (Some r') -> (r < r')%nat) ->
  (forall k k' r, (k' < k)%nat -> idx !! k = Some (Some r) ->
                  idx !! k' <> Some None) ->
  remap_entries idx v [] = Some w ->
  idx !! k = Some (Some i) ->
  getval w i = getval v k.
Proof.
  intros Hv Hidx Hinc Hlast Hw Hk.
  assert (Hwwf : sv_wf m w = true).
  { apply (remap_entries_wf idx m v 0 0 [] w); try done; try lia.
    intros k' r _ H'. pose proof (Hidx _ _ H'). lia. }
  destruct (decide (getval v k = 0)) as [Hz | Hnz].
  - rewrite Hz. destruct (decide (getval w i = 0)) as [|Hne]; [done|].
    exfalso. apply getval_nonzero_elem in Hne.
    destruct (remap_entries_elem _ _ _ _ Hw _ Hne) as [Hin | (k' & Hin & Hk')].
    + by apply not_elem_of_nil in Hin.
    + simpl in Hin, Hk'.
      assert (k' = k) as ->.
      { destruct (Nat.lt_trichotomy k' k) as [Hlt | [-> | Hlt]]; [|done|].
        - pose proof (Hinc _ _ _ _ Hlt Hk' Hk). lia.
        - pose proof (Hinc _ _ _ _ Hlt Hk Hk'). lia. }
      destruct (getval_elem _ _ _ _ _ Hv Hin) as [Hg Hx].
      rewrite Hz in Hg. by rewrite <- Hg in Hx.
  - apply getval_nonzero_elem in Hnz.
    pose proof (remap_entries_complete idx (length idx) v Hlast 0 [] w
                  Hv Hw _ _ _ Hnz Hk) as Hin.
    by destruct (getval_elem _ _ _ _ _ Hwwf Hin).
Qed.

Lemma commute_cols_frame (L : ColumnMatrix F) (idx : list (option nat)) c :
  forall ells Lt Lt',
  commute_cols L idx ells Lt = Some Lt' ->
  (forall ell, ell ∈ ells -> idx !! ell <> Some (Some c)) ->
  mcol Lt' c = mcol Lt c.
Proof.
  induction ells as [|ell ells IH]; intros Lt Lt' H Hno; simpl in H.
  - by inversion H; subst.
  - destruct (idx !! ell) as [[j_ell|]|] eqn:Hi; simpl in H; [| |done].
    + destruct (col Lt !! j_ell) as [u|] eqn:Hu; simpl in H; [|done].
      destruct (col L !! ell) as [v|]; simpl in H; [|done].
      destruct (remap_entries idx v []) as [w|]; simpl in H; [|done].
      rewrite (IH _ _ H).
      * apply mcol_set_col_ne. intros ->.
        by apply (Hno ell (list_elem_of_here _ _)).
      * intros ell' H'. by apply Hno, list_elem_of_further.
    + by inversion H; subst.
Qed.

Lemma commute_cols_hit (L : ColumnMatrix F) (idx : list (option nat)) :
  (forall k k' r, idx !! k = Some (Some r) -> idx !! k' = Some (Some r) ->
                  k = k') ->
  (forall k k' r, (k' < k)%nat -> idx !! k = Some (Some r) ->
                  idx !! k' <> Some None) ->
  forall len a Lt Lt',
  commute_cols L idx (seq a len) Lt = Some Lt' ->
  forall ell c, (a <= ell < a + len)%nat -> idx !! ell = Some (Some c) ->
    exists w, remap_entries idx (mcol L ell) [] = Some w /\ mcol Lt' c = w.
Proof.
  intros Hinj Hlast. induction len as [|len IH]; intros a Lt Lt' H ell c Hell Hc;
    [lia|].
  simpl in H.
  destruct (idx !! a) as [[c0|]|] eqn:Hi; simpl in H; [| |done].
  - destruct (col Lt !! c0) as [u|] eqn:Hu; simpl in H; [|done].
    destruct (col L !! a) as [v|] eqn:Hv; simpl in H; [|done].
    destruct (remap_entries idx v []) as [w|] eqn:Hw; simpl in H; [|done].
    destruct (decide (ell = a)) as [-> | Hne].
    + rewrite Hi in Hc. inversion Hc; subst c0.
      exists w. rewrite (mcol_lookup _ _ _ Hv). split; [done|].
      rewrite (commute_cols_frame _ _ c _ _ _ H).
      * apply mcol_set_col_eq. by apply lookup_lt_Some in Hu.
      * intros ell' H' Hc'. apply elem_of_seq in H'.
        pose proof (Hinj _ _ _ Hc' Hi). lia.
    + apply (IH (S a) _ _ H ell c); [lia | done].
  - exfalso. destruct (decide (ell = a)) as [-> | Hne]; [congruence|].
    apply (Hlast ell a c); [lia | done | done].
Qed.

Lemma getval_scaled (coeff : list F) (v : SparseVector F) i :
  getval (scaled coeff v) i = nth i coeff 0 * getval v i.
Proof.
  induction v as [|[k x] v IH]; simpl; [ring|].
  destruct (k =? i) eqn:Hk; [|exact IH].
  apply Nat.eqb_eq in Hk. by subst.
Qed.

Lemma pivots_only_cols (E : ColumnMatrix F) :
  mat_wf E = true -> EL_pivots_only E = true ->
  (forall j, mcol E j = []
             \/ exists r a, mcol E j = [(r, a)] /\ (r < nrow E)%nat /\ a <> 0
                            /\ (j < ncol E)%nat)
  /\ (forall j j', (j < j')%nat -> (j < ncol E)%nat -> mcol E j = [] ->
                   mcol E j' = []).
Proof.
  intros Hwf Hpo. pose proof (mat_wf_length E Hwf) as Hlen.
  destruct (pivots_only_spec 0 (col E) Hpo) as [S1 S2]. split.
  - intros j. destruct (decide (j < length (col E))%nat) as [Hj | Hj];
      [|left; apply mcol_ge; lia].
    pose proof (mcol_lookup_lt E j Hj) as Hc.
    destruct (S1 _ _ Hc) as [-> | (r & a & Hv)]; [by left|].
    right. exists r, a. rewrite Hv in Hc.
    destruct (mat_wf_pivot_lt E j r a [] Hwf Hc). repeat split; try done; lia.
  - intros j j' Hjj Hj Hz.
    destruct (decide (j' < length (col E))%nat) as [Hj' | Hj'];
      [|apply mcol_ge; lia].
    pose proof (mcol_lookup_lt E j ltac:(lia)) as Hc. rewrite Hz in Hc.
    exact (S2 j j' _ Hjj Hc (mcol_lookup_lt E j' Hj')).
Qed.

Lemma pivot_idx_facts (E : ColumnMatrix F) :
  mat_wf E = true -> is_EL E = true -> EL_pivots_only E = true ->
  let idx := (fun j => col_pivot (mcol E j)) <$> seq 0 (ncol E) in
  (forall k r, idx !! k = Some (Some r) <->
               (k < ncol E)%nat /\ col_pivot (mcol E k) = Some r)
  /\ (forall k r, idx !! k = Some (Some r) -> (r < nrow E)%nat)
  /\ (forall k k' r r', (k < k')%nat -> idx !! k = Some (Some r) ->
                        idx !! k' = Some (Some r') -> (r < r')%nat)
  /\ (forall k k' r, idx !! k = Some (Some r) -> idx !! k' = Some (Some r) ->
                     k = k')
  /\ (forall k k' r, (k' < k)%nat -> idx !! k = Some (Some r) ->
                     idx !! k' <> Some None).
Proof.
  intros Hwf HEL Hpo idx.
  pose proof (mat_wf_length E Hwf) as Hlen.
  destruct (pivots_only_cols E Hwf Hpo) as [Hcols Hlast].
  assert (H1 : forall k r, idx !! k = Some (Some r) <->
                 (k < ncol E)%nat /\ col_pivot (mcol E k) = Some r).
  { intros k r. unfold idx. rewrite idx_map_lookup.
    destruct (decide (k < ncol E)%nat); split.
    - intros H. split; [done | congruence].
    - intros [_ ->]. done.
    - done.
    - intros [? _]. lia. }
  assert (H3 : forall k k' r r', (k < k')%nat -> idx !! k = Some (Some r) ->
                 idx !! k' = Some (Some r') -> (r < r')%nat).
  { intros k k' r r' Hkk Hk Hk'. apply H1 in Hk as [? Hk].
    apply H1 in Hk' as [? Hk'].
    apply (proj1 (is_EL_iff E) HEL k k' r r'); [lia | done | done]. }
  split; [exact H1|]. split; [|split; [exact H3|split]].
  - intros k r Hk. apply H1 in Hk as [_ Hk].
    apply col_pivot_lookup in Hk as (a & v & Hk).
    by destruct (mat_wf_pivot_lt E k r a v Hwf Hk).
  - intros k k' r Hk Hk'.
    destruct (Nat.lt_trichotomy k k') as [Hlt | [-> | Hlt]]; [|done|].
    + pose proof (H3 _ _ _ _ Hlt Hk Hk'). lia.
    + pose proof (H3 _ _ _ _ Hlt Hk' Hk). lia.
  - intros k k' r Hkk Hk Hk'. apply H1 in Hk as [Hkn Hk].
    unfold idx in Hk'. rewrite idx_map_lookup in Hk'.
    destruct (decide (k' < ncol E)%nat); [|done].
    assert (Hz : mcol E k' = []).
    { destruct (mcol E k') as [|[r' a'] v']; [done|]. by inversion Hk'. }
    rewrite (Hlast k' k Hkk ltac:(lia) Hz) in Hk. done.
Qed.

Lemma extract_cols_length (E E' : ColumnMatrix F) np :
  (forall c, col E' !! c
             = if decide (c < np)%nat then norm1 <$> col E !! c
               else col E !! c) ->
  length (col E') = length (col E).
Proof.
  intros Hcols. apply Nat.le_antisymm.
  - destruct (decide (length (col E') <= length (col E))%nat); [done|].
    exfalso.
    destruct (lookup_lt_is_Some_2 (col E') (length (col E)) ltac:(lia))
      as [v Hv].
    rewrite Hcols in Hv.
    rewrite (lookup_ge_None_2 (col E) (length (col E))) in Hv by lia.
    by destruct (decide (length (col E) < np)%nat).
  - destruct (decide (length (col E) <= length (col E'))%nat); [done|].
    exfalso.
    destruct (lookup_lt_is_Some_2 (col E) (length (col E')) ltac:(lia))
      as [v Hv].
    pose proof (Hcols (length (col E'))) as Hc. rewrite Hv in Hc.
    rewrite (lookup_ge_None_2 (col E') (length (col E'))) in Hc by lia.
    by destruct (decide (length (col E') < np)%nat).
Qed.

(** The normalized matrix and the coefficients of [extract_row_scale] on
    a pivot-only [E]. *)
Lemma extract_row_scale_pivots_only (E : ColumnMatrix F) :
  mat_wf E = true -> is_EL E = true -> EL_pivots_only E = true ->
  exists E' coeff,
    extract_row_scale E = Some (E', coeff)
    /\ mat_wf E' = true /\ nrow E' = nrow E /\ ncol E' = ncol E
    /\ (forall j, mcol E' j = norm1 (mcol E j))
    /\ (forall k r a, mcol E k = [(r, a)] -> nth r coeff 0 = a)
    /\ (forall r, (r < nrow E)%nat ->
          (forall k, col_pivot (mcol E k) <> Some r) -> nth r coeff 0 = 1).
Proof.
  intros Hwf HEL Hpo. pose proof (mat_wf_length E Hwf) as Hlen.
  destruct (pivots_only_cols E Hwf Hpo) as [Hshape Hlast].
  destruct (extract_row_scale_spec E Hwf HEL)
    as (E' & coeff & np & Hex & Hnr & Hnc & Hclen & Hnp & Hcols & Hz & _
        & Hpc & Hrows).
  assert (Hnpz : forall k, (np <= k)%nat -> mcol E k = []).
  { intros k Hk. destruct (decide (k < ncol E)%nat) as [Hkn | Hkn];
      [|apply mcol_ge; lia].
    pose proof (mcol_lookup _ _ _ (Hz ltac:(lia))) as Hnp0.
    destruct (decide (k = np)) as [-> | Hne]; [done|].
    apply (Hlast np k); [lia | lia | done]. }
  assert (Hcol' : forall j, mcol E' j = norm1 (mcol E j)).
  { intros j. unfold mcol.
    rewrite (list_lookup_total_alt (col E') j), (list_lookup_total_alt (col E) j).
    rewrite Hcols. destruct (decide (j < np)%nat) as [Hj | Hj].
    - by destruct (col E !! j).
    - pose proof (Hnpz j ltac:(lia)) as Hzj. unfold mcol in Hzj.
      rewrite (list_lookup_total_alt (col E) j) in Hzj. by rewrite Hzj. }
  exists E', coeff. split; [done|]. split; [|split; [done|split; [done|split;
    [done|split]]]].
  - apply mat_wf_iff. split.
    + rewrite (extract_cols_length E E' np Hcols). lia.
    + intros j. rewrite Hcol', Hnr.
      destruct (Hshape j) as [-> | (r & a & -> & Hr & Ha & _)]; [done|].
      simpl. apply sv_wf_from_cons. repeat split; try done; try lia.
      apply Fone_neq_zero.
  - intros k r a Hk. rewrite nth_lookup.
    destruct (decide (k < np)%nat) as [Hknp | Hknp];
      [|by rewrite Hnpz in Hk by lia].
    assert (Hkl : (k < length (col E))%nat).
    { destruct (decide (k < length (col E))%nat); [done|].
      by rewrite mcol_ge in Hk by lia. }
    pose proof (mcol_lookup_lt E k Hkl) as Hc. rewrite Hk in Hc.
    by rewrite (Hpc k r a [] Hknp Hc).
  - intros r Hr Hno. rewrite nth_lookup.
    destruct (Hrows r Hr) as [-> | (c & a & v & _ & Hc)]; [done|].
    destruct (Hno c). apply col_pivot_lookup. by exists a, v.
Qed.

Lemma col_pivot_lt (E : ColumnMatrix F) j r :
  mat_wf E = true -> col_pivot (mcol E j) = Some r ->
  (j < ncol E)%nat /\ (r < nrow E)%nat.
Proof.
  intros Hwf Hp. apply col_pivot_lookup in Hp as (a & v & Hp).
  pose proof (lookup_lt_Some _ _ _ Hp) as Hj.
  rewrite (mat_wf_length E Hwf) in Hj.
  by destruct (mat_wf_pivot_lt E j r a v Hwf Hp).
Qed.

(** The entries of the matrix [EL_L_commute] returns on a pivot-only [E]:
    the entry of [L] at the two pivot columns, multiplied by the
    coefficient of the row, and the identity off the pivot rows. *)
Lemma EL_L_commute_entries (E L : ColumnMatrix F) :
  mat_wf E = true -> is_EL E = true -> EL_pivots_only E = true ->
  mat_wf L = true -> nrow L = ncol E -> ncol L = ncol E ->
  exists E' coeff R,
    extract_row_scale E = Some (E', coeff)
    /\ EL_L_commute E L = Some R
    /\ mat_wf R = true /\ nrow R = nrow E /\ ncol R = nrow E
    /\ (forall i j k r,
          col_pivot (mcol E j) = Some r -> col_pivot (mcol E k) = Some i ->
          get R i r = nth i coeff 0 * get L k j)
    /\ (forall i j r,
          col_pivot (mcol E j) = Some r ->
          (forall k, col_pivot (mcol E k) <> Some i) -> get R i r = 0)
    /\ (forall i c,
          (c < nrow E)%nat -> (forall k, col_pivot (mcol E k) <> Some c) ->
          get R i c = if decide (i = c) then nth c coeff 0 else 0).
Proof.
  intros Hwf HEL Hpo HL Hnr Hnc.
  destruct (matching_readable L (ncol E) HL Hnr Hnc) as [Hlen Hent].
  destruct (EL_L_commute_spec E L Hwf HEL Hlen Hent)
    as (E' & coeff & Lt & R & Hex & HLt & HR & Hclen & Hcoeff & HRnr & HRnc
        & HRlen & HRcol & HLtcol).
  cbv zeta in *.
  destruct (EL_L_commute_wf E L Hwf HEL HL Hnr Hnc) as (R' & HR' & HRwf & _).
  rewrite HR in HR'. inversion HR'; subst R'. clear HR'.
  destruct (pivot_idx_facts E Hwf HEL Hpo) as (H1 & H2 & H3 & H4 & H5).
  cbv zeta in *.
  set (idx := (fun j => col_pivot (mcol E j)) <$> seq 0 (ncol E)) in *.
  assert (Hidxlen : length idx = ncol E).
  { unfold idx. by rewrite length_fmap, length_seq. }
  assert (Hhit : forall j r, col_pivot (mcol E j) = Some r ->
            exists w, remap_entries idx (mcol L j) [] = Some w
                      /\ forall i, get R i r = nth i coeff 0 * getval w i).
  { intros j r Hp. destruct (col_pivot_lt E j r Hwf Hp) as [Hj Hr].
    destruct (commute_cols_hit L idx H4 H5 (ncol E) 0 _ _ HLt j r)
      as (w & Hw & Hcol); [lia | by apply H1|].
    exists w. split; [done|]. intros i. unfold get.
    by rewrite HRcol, Hcol, getval_scaled. }
  exists E', coeff, R. repeat split; try done.
  - intros i j k r Hj Hk. destruct (Hhit j r Hj) as (w & Hw & ->).
    f_equal. destruct (col_pivot_lt E k i Hwf Hk) as [Hkn _].
    apply (remap_getval_pivot idx (nrow E) (mcol L j) w k i); try done.
    + rewrite Hidxlen, <- Hnr. apply (mat_wf_col L j HL).
    + by apply H1.
  - intros i j r Hj Hno. destruct (Hhit j r Hj) as (w & Hw & ->).
    rewrite (remap_getval_nonpivot idx (mcol L j) w i Hw); [ring|].
    intros k Hk. apply H1 in Hk as [_ Hk]. by destruct (Hno k).
  - intros i c Hc Hno. unfold get. rewrite HRcol.
    destruct (HLtcol c Hc) as [-> | (ell & w & _ & Hp & _)];
      [|by destruct (Hno ell)].
    rewrite getval_scaled, getval_single.
    destruct (decide (i = c)) as [-> | Hne]; ring.
Qed.

Lemma is_lower_elim (X : ColumnMatrix F) : is_lower X = true -> lowerP X.
Proof.
  unfold is_lower. intros H r c Hne. rewrite forallb_forall in H.
  unfold get in Hne. apply getval_nonzero_elem in Hne.
  destruct (decide (c < length (col X))%nat) as [Hc | Hc];
    [|rewrite mcol_ge in Hne by lia; by apply not_elem_of_nil in Hne].
  pose proof (mcol_lookup_lt X c Hc) as Hcol.
  apply imap_pair_elem, list_elem_of_In in Hcol.
  apply H in Hcol. simpl in Hcol. rewrite forallb_forall in Hcol.
  apply list_elem_of_In, Hcol in Hne. simpl in Hne. by apply Nat.leb_le in Hne.
Qed.

Lemma unit_diag_elim (X : ColumnMatrix F) :
  unit_diag X = true -> nrow X = ncol X /\ diagP X.
Proof.
  unfold unit_diag. intros H. apply andb_true_iff in H as [Hsq H].
  apply Nat.eqb_eq in Hsq. split; [done|]. intros c Hc.
  rewrite forallb_forall in H.
  assert (Hin : In c (seq 0 (ncol X))) by (apply in_seq; lia).
  apply H in Hin. by apply bool_decide_eq_true in Hin.
Qed.

Lemma pivot_row_dec (E : ColumnMatrix F) i :
  (exists k, col_pivot (mcol E k) = Some i)
  \/ (forall k, col_pivot (mcol E k) <> Some i).
Proof.
  destruct (decide (i ∈ pivot_rows E)) as [Hin | Hnin].
  - left. apply list_elem_of_omap in Hin as (v & Hv & Hp).
    apply list_elem_of_lookup in Hv as [k Hk]. exists k.
    by rewrite (mcol_lookup _ _ _ Hk).
  - right. intros k Hp. apply Hnin. apply list_elem_of_omap.
    exists (mcol E k). split; [|exact Hp].
    apply col_pivot_lookup in Hp as (a & v & Hp).
    rewrite (mcol_lookup _ _ _ Hp). by apply list_elem_of_lookup_2 in Hp.
Qed.

Lemma get_pivots_only (E : ColumnMatrix F) i k :
  mat_wf E = true -> EL_pivots_only E = true ->
  col_pivot (mcol E k) <> Some i -> get E i k = 0.
Proof.
  intros Hwf Hpo Hne. destruct (pivots_only_cols E Hwf Hpo) as [Hshape _].
  unfold get. destruct (Hshape k) as [-> | (r & a & Hc & _)]; [done|].
  rewrite Hc in *. rewrite getval_single.
  destruct (decide (i = r)) as [-> | ?]; [by destruct Hne | done].
Qed.

(** On a pivot-only [E] and a lower triangular [L] on the columns of [E],
    the matrix [EL_L_commute] returns commutes [L] past the normalized
    [E], up to the row scaling it carries: [R * E' = E * L]. *)
Lemma EL_L_commute_normalized (E L : ColumnMatrix F) :
  mat_wf E = true -> is_EL E = true -> EL_pivots_only E = true ->
  mat_wf L = true -> is_lower L = true ->
  nrow L = ncol E -> ncol L = ncol E ->
  commutes_normalized E L.
Proof.
  intros Hwf HEL Hpo HL Hlow Hnr Hnc.
  apply is_lower_elim in Hlow.
  destruct (pivots_only_cols E Hwf Hpo) as [Hshape Hlast].
  destruct (pivot_idx_facts E Hwf HEL Hpo) as (H1 & _ & _ & H4 & _).
  cbv zeta in *.
  destruct (EL_L_commute_entries E L Hwf HEL Hpo HL Hnr Hnc)
    as (E' & coeff & R & Hex & HR & HRwf & HRnr & HRnc & Hpp & Hpn & _).
  destruct (extract_row_scale_pivots_only E Hwf HEL Hpo)
    as (E'' & coeff' & Hex' & HE'wf & HE'nr & HE'nc & Hcol' & Hcp & _).
  rewrite Hex in Hex'. inversion Hex'; subst E'' coeff'. clear Hex'.
  exists E', coeff, R. split; [done|]. split; [done|].
  apply mat_ext.
  - apply mmul_wf; try done. lia.
  - apply mmul_wf; try done.
  - simpl. lia.
  - simpl. lia.
  - intros i j Hi Hj. simpl in Hi, Hj.
    rewrite !get_mmul by (try done; lia).
    destruct (Hshape j) as [Hz | (r & a & Hc & Hr & Ha & _)].
    + rewrite !fsum_zero; [done | |].
      * intros k Hk. destruct (decide (j <= k)%nat) as [Hjk | Hjk].
        -- assert (Hzk : mcol E k = []).
           { destruct (decide (k = j)) as [-> | ?]; [done|].
             apply (Hlast j k); [lia | lia | done]. }
           unfold get at 1. rewrite Hzk. simpl. ring.
        -- destruct (decide (get L k j = 0)) as [-> | Hne]; [ring|].
           apply Hlow in Hne. lia.
      * intros k Hk. unfold get at 2. rewrite Hcol', Hz. simpl. ring.
    + assert (Hpj : col_pivot (mcol E j) = Some r) by (by rewrite Hc).
      rewrite (fsum_single (ncol R) r); [|lia|].
      2:{ intros k Hk Hne. unfold get at 2. rewrite Hcol', Hc. unfold norm1.
          rewrite getval_single. rewrite decide_False by done. ring. }
      assert (get E' r j = 1) as ->.
      { unfold get. rewrite Hcol', Hc. unfold norm1. rewrite getval_single.
        by rewrite decide_True. }
      destruct (pivot_row_dec E i) as [[k0 Hk0] | Hno].
      * destruct (col_pivot_lt E k0 i Hwf Hk0) as [Hk0n _].
        rewrite (fsum_single (ncol E) k0); [|lia|].
        2:{ intros k Hk Hne. rewrite (get_pivots_only E i k); [ring|done..|].
            intros Hpk. apply Hne. apply (H4 k k0 i); by apply H1. }
        rewrite (Hpp i j k0 r Hpj Hk0).
        destruct (Hshape k0) as [Hz0 | (r0 & a0 & Hc0 & _)];
          [by rewrite Hz0 in Hk0|].
        assert (r0 = i) as -> by (rewrite Hc0 in Hk0; by inversion Hk0).
        rewrite (Hcp k0 i a0 Hc0).
        unfold get at 2. rewrite Hc0, getval_single, decide_True by done.
        ring.
      * rewrite (Hpn i j r Hpj Hno).
        rewrite fsum_zero; [ring|]. intros k Hk.
        rewrite (get_pivots_only E i k); [ring|done..].
Qed.

Lemma unit_pivots_spec (E : ColumnMatrix F) k r a :
  unit_pivots E = true -> mcol E k = [(r, a)] -> a = 1.
Proof.
  unfold unit_pivots. intros H Hk. rewrite forallb_forall in H.
  assert (Hkl : (k < length (col E))%nat).
  { destruct (decide (k < length (col E))%nat); [done|].
    by rewrite mcol_ge in Hk by lia. }
  pose proof (mcol_lookup_lt E k Hkl) as Hc. rewrite Hk in Hc.
  apply list_elem_of_lookup_2, list_elem_of_In, H in Hc.
  by apply bool_decide_eq_true in Hc.
Qed.

(** With every pivot of [E] equal to one nothing is scaled, and
    [EL_L_commute] meets its contract: the returned matrix is
    lower-unitriangular and commutes [L] past [E]. *)
Lemma EL_L_commute_unit_pivots (E L : ColumnMatrix F) :
  mat_wf E = true -> is_EL E = true -> EL_pivots_only E = true ->
  unit_pivots E = true ->
  mat_wf L = true -> lower_unitriangular L = true ->
  nrow L = ncol E -> ncol L = ncol E ->
  commutes_unitriangular E L.
Proof.
  intros Hwf HEL Hpo Hunit HL HLu Hnr Hnc.
  apply andb_true_iff in HLu as [Hlow Hdiag].
  destruct (EL_L_commute_normalized E L Hwf HEL Hpo HL Hlow Hnr Hnc)
    as (E' & coeff & R & Hex & HR & Hprod).
  apply is_lower_elim in Hlow. apply unit_diag_elim in Hdiag as [_ Hdiag].
  destruct (pivots_only_cols E Hwf Hpo) as [Hshape _].
  destruct (extract_row_scale_pivots_only E Hwf HEL Hpo)
    as (E'' & coeff' & Hex' & HE'wf & HE'nr & HE'nc & Hcol' & Hcp & Hcn).
  rewrite Hex in Hex'. inversion Hex'; subst E'' coeff'. clear Hex'.
  destruct (EL_L_commute_entries E L Hwf HEL Hpo HL Hnr Hnc)
    as (E'' & coeff' & R' & Hex' & HR' & HRwf & HRnr & HRnc & Hpp & Hpn & Hnp).
  rewrite Hex in Hex'. inversion Hex'; subst E'' coeff'. clear Hex'.
  rewrite HR in HR'. inversion HR'; subst R'. clear HR'.
  assert (HE' : E' = E).
  { apply mat_ext; try done. intros i j _ _. unfold get. rewrite Hcol'.
    destruct (Hshape j) as [-> | (r & a & Hc & _)]; [done|].
    rewrite Hc. unfold norm1. by rewrite (unit_pivots_spec E j r a Hunit Hc). }
  rewrite HE' in Hprod.
  exists R. split; [done|]. split; [|done].
  apply lower_unitriangular_intro; [done | lia | |].
  - intros i c Hne.
    destruct (decide (c < ncol R)%nat) as [Hc | Hc];
      [|by rewrite get_col_ge in Hne by (done || lia)].
    destruct (pivot_row_dec E c) as [[j Hj] | Hnoc].
    + destruct (pivot_row_dec E i) as [[k Hk] | Hnoi];
        [|by rewrite (Hpn i j c Hj Hnoi) in Hne].
      rewrite (Hpp i j k c Hj Hk) in Hne.
      assert (HLne : get L k j <> 0).
      { intros Hz. apply Hne. rewrite Hz. ring. }
      apply Hlow in HLne.
      destruct (decide (j = k)) as [-> | Hjk].
      * rewrite Hj in Hk. inversion Hk. lia.
      * destruct (col_pivot_lt E k i Hwf Hk) as [Hkn _].
        pose proof (proj1 (is_EL_iff E) HEL j k c i) as Hinc.
        rewrite (mat_wf_length E Hwf) in Hinc.
        pose proof (Hinc ltac:(lia) Hj Hk). lia.
    + rewrite (Hnp i c ltac:(lia) Hnoc) in Hne.
      destruct (decide (i = c)) as [-> | ?]; [lia | done].
  - intros c Hc.
    destruct (pivot_row_dec E c) as [[j Hj] | Hnoc].
    + rewrite (Hpp c j j c Hj Hj).
      destruct (col_pivot_lt E j c Hwf Hj) as [Hjn _].
      rewrite (Hdiag j ltac:(lia)).
      destruct (Hshape j) as [Hz | (r & a & Hcj & _)];
        [by rewrite Hz in Hj|].
      assert (r = c) as -> by (rewrite Hcj in Hj; by inversion Hj).
      rewrite (Hcp j c a Hcj), (unit_pivots_spec E j c a Hunit Hcj). ring.
    + rewrite (Hnp c c ltac:(lia) Hnoc), decide_True by done.
      apply Hcn; [lia | done].
Qed.

(** ** Further properties of the kernel and of the commutation routines *)

Lemma pivots_only_intro (cols : list (SparseVector F)) :
  forall (pivs : list nat) lo,
  (length pivs <= length cols)%nat ->
  (forall k k', (k < k' < length pivs)%nat ->
                (nth k pivs O < nth k' pivs O)%nat) ->
  (forall k, (k < length pivs)%nat -> (lo <= nth k pivs O)%nat) ->
  (forall c, (c < length pivs)%nat ->
             exists a, cols !! c = Some [(nth c pivs O, a)]) ->
  (forall c v, (length pivs <= c)%nat -> cols !! c = Some v -> v = []) ->
  pivots_only_from lo cols = true.
Proof.
  induction cols as [|v cols IH]; intros pivs lo Hlen Hinc Hlo Hpiv Hz; [done|].
  destruct pivs as [|p pivs].
  - rewrite (Hz 0%nat v) by (simpl; lia || done). simpl.
    apply forallb_forall. intros w Hw. apply bool_decide_eq_true.
    apply list_elem_of_In, list_elem_of_lookup in Hw as [c Hc].
    apply (Hz (S c)); [simpl; lia | done].
  - destruct (Hpiv 0%nat ltac:(simpl; lia)) as [a Ha]. simpl in Ha.
    inversion Ha; subst v. simpl.
    pose proof (Hlo 0%nat ltac:(simpl; lia)) as Hp. simpl in Hp.
    apply andb_true_iff. split; [by apply Nat.leb_le|].
    apply (IH pivs (S p)).
    + simpl in Hlen. lia.
    + intros k k' Hk. apply (Hinc (S k) (S k')). simpl. lia.
    + intros k Hk. pose proof (Hinc 0%nat (S k) ltac:(simpl; lia)) as H0.
      simpl in H0. lia.
    + intros c Hc. apply (Hpiv (S c)). simpl. lia.
    + intros c w Hc Hw. apply (Hz (S c)); [simpl; lia | done].
Qed.

Lemma LEUP_facts_pivots_only (A : ColumnMatrix F) X sigma tau :
  LEUP_facts A X sigma tau -> EL_pivots_only (fE X) = true.
Proof.
  intros HF. destruct (lf_E_cols _ _ _ _ HF) as (pivs & Hlen & Hinc & Hp & Hz).
  pose proof (mat_wf_length _ (lf_E_wf _ _ _ _ HF)) as HlenE.
  rewrite (lf_E_ncol _ _ _ _ HF) in HlenE.
  apply (pivots_only_intro (col (fE X)) pivs 0).
  - lia.
  - exact Hinc.
  - intros. lia.
  - intros c Hc. destruct (Hp c Hc) as [a Ha]. exists a.
    rewrite <- Ha. apply mcol_lookup_lt. lia.
  - intros c v Hc Hv. rewrite <- (mcol_lookup _ _ _ Hv). by apply Hz.
Qed.

(** X1.  The E factor LEUP returns for a well-formed matrix holds in each
    nonzero column one entry only, the pivot; the pivot rows increase with
    the column, and the zero columns come last.  This is the shape the
    commutation routines take for granted. *)
Theorem LEUP_E_pivots_only (A : ColumnMatrix F) :
  mat_wf A = true ->
  EL_pivots_only (fE (LEUP A)) = true /\ is_EL (fE (LEUP A)) = true
  /\ mat_wf (fE (LEUP A)) = true.
Proof.
  intros HA. destruct (LEUP_has_facts A HA) as (sigma & tau & HF).
  split; [by apply (LEUP_facts_pivots_only A _ sigma tau)|].
  split; [|by apply (lf_E_wf _ _ _ _ HF)].
  by destruct (LEUP_facts_lowerP A _ sigma tau HF) as (_ & _ & _ & _ & _ & ?).
Qed.

Lemma lbrow_zero (v : SparseVector F) : lbrow v 0 = col_pivot v.
Proof. by destruct v as [|[k x] v]. Qed.

Lemma pivot_ind_col_pivot (E : ColumnMatrix F) j r :
  pivot_ind E j = Some (Some r) <-> col_pivot (mcol E j) = Some r.
Proof.
  unfold pivot_ind.
  destruct (decide (j < length (col E))%nat) as [Hj | Hj].
  - rewrite (mcol_lookup_lt E j Hj). simpl. unfold col_pivot.
    split; [by intros [= ->] | by intros ->].
  - rewrite (lookup_ge_None_2 (col E) j) by lia.
    rewrite (mcol_ge E j) by lia. done.
Qed.

(** X2.  [pivot_ind] is the lowest row in which the column has a nonzero
    entry, and [NO_IND] exactly on a zero column; a column index at or
    beyond the column count is an out-of-range read. *)
Theorem pivot_ind_lowest_row (E : ColumnMatrix F) (j : nat) :
  mat_wf E = true ->
  (pivot_ind E j = None <-> (ncol E <= j)%nat)
  /\ (pivot_ind E j = Some None <->
      (j < ncol E)%nat /\ forall i, get E i j = 0)
  /\ (forall r, pivot_ind E j = Some (Some r) <->
        (j < ncol E)%nat /\ (r < nrow E)%nat /\ get E r j <> 0
        /\ forall i, (i < r)%nat -> get E i j = 0).
Proof.
  intros Hwf. pose proof (mat_wf_length E Hwf) as Hlen.
  pose proof (mat_wf_col E j Hwf) as Hv. unfold pivot_ind, get.
  destruct (decide (j < length (col E))%nat) as [Hj | Hj].
  2:{ rewrite (lookup_ge_None_2 (col E) j) by lia. simpl.
      split; [split; [lia | done]|].
      split; [split; [done | lia]|]. intros r. split; [done | lia]. }
  rewrite (mcol_lookup_lt E j Hj). simpl.
  split; [split; [done | lia]|].
  destruct (mcol E j) as [|[k x] v] eqn:Hc; simpl.
  - split; [split; [split; [lia | done] | done]|].
    intros r. split; [done|]. intros (_ & _ & H & _). done.
  - apply sv_wf_from_cons in Hv as (_ & Hk & Hx & Hv).
    split.
    + split; [done|]. intros [_ H]. specialize (H k).
      rewrite Nat.eqb_refl in H. done.
    + intros r. split.
      * intros Hr. inversion Hr; subst r. rewrite Nat.eqb_refl.
        split; [lia|]. split; [done|]. split; [done|].
        intros i Hi. destruct (k =? i) eqn:Hki;
          [apply Nat.eqb_eq in Hki; lia|].
        apply (getval_below _ _ _ _ Hv). lia.
      * intros (_ & _ & Hne & Hlow).
        destruct (Nat.lt_trichotomy k r) as [Hlt | [-> | Hgt]]; [|done|].
        -- specialize (Hlow k Hlt). rewrite Nat.eqb_refl in Hlow. done.
        -- destruct (k =? r) eqn:Hkr; [apply Nat.eqb_eq in Hkr; lia|].
           rewrite (getval_below _ _ _ _ Hv) in Hne by lia. done.
Qed.

(** X3.  [get_pivots] groups the columns by [pivot_ind]: the bucket of row
    [r] lists, from left to right, exactly the columns whose pivot is in
    row [r], and a row is a key of the map only when some column has its
    pivot there. *)
Theorem get_pivots_buckets (A : ColumnMatrix F) (r : nat) :
  bucket (get_pivots A) r
  = filter (fun c => pivot_ind A c = Some (Some r)) (seq 0 (ncol A))
  /\ get_pivots A !! r <> Some [].
Proof.
  split.
  - unfold get_pivots. rewrite fold_update_pivot_bucket.
    unfold bucket at 1. rewrite lookup_empty. simpl.
    apply list_filter_iff. intros c.
    by rewrite lbrow_zero, pivot_ind_col_pivot.
  - unfold get_pivots. apply fold_update_pivot_nonempty.
    intros r'. by rewrite lookup_empty.
Qed.

Lemma erase_first_snoc j (cs : list nat) :
  j ∉ cs -> erase_first j (cs ++ [j]) = cs.
Proof.
  induction cs as [|c cs IH]; intros Hn; simpl.
  - by rewrite decide_True.
  - apply not_elem_of_cons in Hn as [Hne Hn].
    rewrite decide_False by done. by rewrite IH.
Qed.

(** X4.  [delete_pivot] undoes [update_pivot]: registering column [j] and
    deleting it again leaves every bucket as it was, when [j] was not
    registered at its pivot row before.  The key itself is not removed: a
    row that gained its key by the registration keeps it, with an empty
    bucket. *)
Theorem delete_update_pivot (A : ColumnMatrix F) (p2c : gmap nat (list nat))
    (j i0 : nat) :
  (forall r, j ∉ bucket p2c r) ->
  let p2c' := delete_pivot A (update_pivot A p2c j i0) j i0 in
  (forall r, bucket p2c' r = bucket p2c r)
  /\ (forall r x, lower_bound (mcol A j) i0 = Some (r, x) ->
        p2c' !! r = Some (bucket p2c r)).
Proof.
  intros Hn. cbv zeta. unfold delete_pivot, update_pivot.
  destruct (lower_bound (mcol A j) i0) as [[r0 x0]|] eqn:Hlb; simpl.
  - split.
    + intros r. rewrite !bucket_insert.
      destruct (decide (r0 = r)) as [-> | Hne]; [|done].
      rewrite decide_True by done. by apply erase_first_snoc.
    + intros r x Hr. inversion Hr; subst. rewrite lookup_insert_eq.
      f_equal. rewrite bucket_insert, decide_True by done.
      by apply erase_first_snoc.
  - split; [done|]. intros r x Hr. done.
Qed.

Lemma norm1_norm1 (v : SparseVector F) : norm1 (norm1 v) = norm1 v.
Proof. by destruct v as [|[r a] v]. Qed.

Lemma norm1_wf lo m (v : SparseVector F) :
  sv_wf_from lo m v = true -> sv_wf_from lo m (norm1 v) = true.
Proof.
  destruct v as [|[r a] v]; [done|]. intros H.
  apply sv_wf_from_cons in H as (? & ? & ? & H). unfold norm1.
  apply sv_wf_from_cons. repeat split; try done. apply Fone_neq_zero.
Qed.

(** The loop of [extract_row_scale] on any matrix whose stored row indices
    are in range: every write falls inside [coeff]. *)
Lemma extract_loop_total m n fuel :
  forall (E : ColumnMatrix F) coeff i j,
  length (col E) = n -> length coeff = m -> (i <= m)%nat ->
  (forall c r a v, col E !! c = Some ((r, a) :: v) -> (r < m)%nat /\ a <> 0) ->
  (forall r x, (r < i)%nat -> coeff !! r = Some x -> x <> 0) ->
  exists E' coeff' i',
    extract_loop fuel m n E coeff i j = Some (E', coeff', i')
    /\ nrow E' = nrow E /\ ncol E' = ncol E
    /\ length coeff' = m /\ (i' <= m)%nat
    /\ (forall c, col E' !! c = col E !! c
                  \/ col E' !! c = norm1 <$> col E !! c)
    /\ (forall r x, (r < i')%nat -> coeff' !! r = Some x -> x <> 0).
Proof.
  induction fuel as [|fuel IH]; intros E coeff i j HlE Hlc Hi Hb Hnz.
  - simpl. exists E, coeff, i. split_and!; try done. intros c. by left.
  - simpl. destruct (Nat.ltb_spec i m) as [Him | Him]; simpl.
    2:{ exists E, coeff, i. split_and!; try done. intros c. by left. }
    destruct (Nat.ltb_spec j n) as [Hjn | Hjn]; simpl.
    2:{ exists E, coeff, i. split_and!; try done. intros c. by left. }
    destruct (col E !! j) as [[|[r0 a0] v0]|] eqn:Hcj; simpl.
    + destruct (fill_ones_spec (m - i) coeff i ltac:(lia))
        as (coeff' & Hf & Hl' & Hlk).
      rewrite Hf. simpl. exists E, coeff', (Nat.max i m).
      split_and!; try done; try lia.
      * intros c. by left.
      * intros r x Hr Hx. rewrite Hlk in Hx.
        destruct (decide (i <= r < i + (m - i))%nat).
        -- inversion Hx; subst. apply Fone_neq_zero.
        -- apply (Hnz r x); [lia | done].
    + destruct (Hb j r0 a0 v0 Hcj) as [Hr0 Ha0].
      destruct (fill_ones_spec (r0 - i) coeff i ltac:(lia))
        as (coeff1 & Hf & Hl1 & Hlk1).
      rewrite Hf. simpl. rewrite write_Some by lia. simpl.
      destruct (IH (set_col E j ((r0, 1) :: v0))
                   (<[Nat.max i r0 := a0]> coeff1) (Nat.max i r0 + 1)%nat
                   (j + 1)%nat)
        as (E' & coeff' & i' & Hloop & Hnr & Hnc & Hl' & Hi' & Hcols & Hnz').
      * simpl. by rewrite length_insert.
      * rewrite length_insert. lia.
      * lia.
      * intros c r a v Hc. simpl in Hc.
        destruct (decide (c = j)) as [-> | Hne].
        -- rewrite list_lookup_insert_eq in Hc by lia.
           inversion Hc; subst. split; [done | apply Fone_neq_zero].
        -- rewrite list_lookup_insert_ne in Hc by done. by apply (Hb c r a v).
      * intros r x Hr Hx.
        destruct (decide (r = Nat.max i r0)) as [-> | Hne].
        -- rewrite list_lookup_insert_eq in Hx by lia.
           by inversion Hx; subst.
        -- rewrite list_lookup_insert_ne in Hx by done. rewrite Hlk1 in Hx.
           destruct (decide (i <= r < i + (r0 - i))%nat).
           ++ inversion Hx; subst. apply Fone_neq_zero.
           ++ apply (Hnz r x); [lia | done].
      * exists E', coeff', i'. split_and!; try done.
        intros c. simpl in Hcols.
        destruct (decide (c = j)) as [-> | Hne].
        -- right. destruct (Hcols j) as [-> | ->];
             rewrite list_lookup_insert_eq by lia; rewrite Hcj; done.
        -- destruct (Hcols c) as [-> | ->];
             rewrite list_lookup_insert_ne by done; [by left | by right].
    + apply lookup_ge_None in Hcj. lia.
Qed.

Lemma lookup_norm1_length (cs cs' : list (SparseVector F)) :
  (forall c, cs' !! c = cs !! c \/ cs' !! c = norm1 <$> cs !! c) ->
  length cs' = length cs.
Proof.
  intros H. apply Nat.le_antisymm.
  - destruct (decide (length cs' <= length cs)%nat); [done|]. exfalso.
    destruct (lookup_lt_is_Some_2 cs' (length cs) ltac:(lia)) as [v Hv].
    destruct (H (length cs)) as [He | He]; rewrite Hv in He;
      rewrite (lookup_ge_None_2 cs (length cs)) in He by lia; done.
  - destruct (decide (length cs <= length cs')%nat); [done|]. exfalso.
    destruct (lookup_lt_is_Some_2 cs (length cs') ltac:(lia)) as [v Hv].
    destruct (H (length cs')) as [He | He]; rewrite Hv in He;
      rewrite (lookup_ge_None_2 cs' (length cs')) in He by lia; done.
Qed.

(** X5.  On every well-formed matrix, EL-shaped or not, each write
    [coeff[i++]] of [extract_row_scale] is in range: the routine returns,
    with the dimensions, the data-model invariant and the pivot row of
    every column unchanged, and with one coefficient per row, none of them
    zero. *)
Theorem extract_row_scale_total (E : ColumnMatrix F) :
  mat_wf E = true ->
  exists E' coeff,
    extract_row_scale E = Some (E', coeff)
    /\ mat_wf E' = true /\ nrow E' = nrow E /\ ncol E' = ncol E
    /\ (forall j, col_pivot (mcol E' j) = col_pivot (mcol E j))
    /\ length coeff = nrow E
    /\ (forall x, x ∈ coeff -> x <> 0).
Proof.
  intros Hwf. pose proof (mat_wf_length E Hwf) as Hlen.
  destruct (extract_loop_total (nrow E) (ncol E) (ncol E) E
              (replicate (nrow E) 0) 0 0)
    as (E' & coeff & i & Hloop & Hnr & Hnc & Hl & Hi & Hcols & Hnz).
  { done. } { by rewrite length_replicate. } { lia. }
  { intros c r a v Hc. by apply (mat_wf_pivot_lt E c r a v). }
  { intros r x Hr. lia. }
  destruct (fill_ones_spec (nrow E - i) coeff i ltac:(lia))
    as (coeff' & Hf & Hl' & Hlk).
  exists E', coeff'. unfold extract_row_scale. rewrite Hloop. simpl.
  rewrite Hf. simpl. split; [done|].
  assert (Hmcol : forall j, mcol E' j = mcol E j \/ mcol E' j = norm1 (mcol E j)).
  { intros j. unfold mcol.
    rewrite (list_lookup_total_alt (col E') j), (list_lookup_total_alt (col E) j).
    destruct (Hcols j) as [-> | ->]; [by left|]. right.
    by destruct (col E !! j). }
  split_and!; try done; try lia.
  - apply mat_wf_iff. split.
    + rewrite (lookup_norm1_length (col E) (col E') Hcols). lia.
    + intros j. rewrite Hnr.
      destruct (Hmcol j) as [-> | ->]; [|apply norm1_wf];
        apply (mat_wf_col E j Hwf).
  - intros j. destruct (Hmcol j) as [-> | ->]; [done | apply col_pivot_norm1].
  - intros x Hx. apply list_elem_of_lookup in Hx as [r Hr].
    pose proof (lookup_lt_Some _ _ _ Hr) as Hrl. rewrite Hlk in Hr.
    destruct (decide (i <= r < i + (nrow E - i))%nat).
    + inversion Hr; subst. apply Fone_neq_zero.
    + apply (Hnz r x); [lia | done].
Qed.

Lemma is_EL_same_pivots (E E' : ColumnMatrix F) :
  length (col E') = length (col E) ->
  (forall j, col_pivot (mcol E' j) = col_pivot (mcol E j)) ->
  is_EL E = true -> is_EL E' = true.
Proof.
  intros Hlen Hp HEL. apply is_EL_iff. intros c c' r r' Hc Hr Hr'.
  rewrite Hp in Hr, Hr'. rewrite Hlen in Hc.
  by apply (proj1 (is_EL_iff E) HEL c c' r r').
Qed.

(** X6.  Normalizing twice is normalizing once: on the matrix
    [extract_row_scale] returns for a well-formed EL-shaped matrix, the
    routine changes nothing more and returns the coefficient one for every
    row. *)
Theorem extract_row_scale_idempotent (E : ColumnMatrix F) :
  mat_wf E = true -> is_EL E = true ->
  exists E' coeff,
    extract_row_scale E = Some (E', coeff)
    /\ extract_row_scale E' = Some (E', replicate (nrow E) 1).
Proof.
  intros Hwf HEL.
  destruct (extract_row_scale_spec E Hwf HEL)
    as (E' & coeff & np & Hex & Hnr & Hnc & Hclen & Hnp & Hcols & Hz & Hnz
        & Hpc & Hrows).
  destruct (extract_row_scale_total E Hwf)
    as (E0 & coeff0 & Hex0 & Hwf' & _ & _ & Hpiv & _).
  rewrite Hex in Hex0. inversion Hex0; subst E0 coeff0. clear Hex0.
  pose proof (mat_wf_length E Hwf) as Hlen.
  pose proof (mat_wf_length E' Hwf') as Hlen'.
  assert (HEL' : is_EL E' = true).
  { apply (is_EL_same_pivots E E'); [lia | done | done]. }
  destruct (extract_row_scale_spec E' Hwf' HEL')
    as (E2 & coeff2 & np2 & Hex2 & Hnr2 & Hnc2 & Hclen2 & Hnp2 & Hcols2 & _
        & Hnz2 & Hpc2 & Hrows2).
  assert (Hle : (np2 <= np)%nat).
  { destruct (decide (np2 <= np)%nat) as [|Hgt]; [done|]. exfalso.
    assert (Hnpn : (np < ncol E)%nat) by lia.
    apply (Hnz2 np ltac:(lia)). rewrite Hcols.
    rewrite decide_False by lia. by apply Hz. }
  exists E', coeff. split; [done|]. rewrite Hex2. do 2 f_equal.
  - destruct E2 as [nr2 nc2 cols2], E' as [nr' nc' cols']. simpl in *.
    subst nr2 nc2. f_equal. apply list_eq. intros c. rewrite Hcols2.
    destruct (decide (c < np2)%nat) as [Hc | Hc]; [|done].
    rewrite Hcols, decide_True by lia.
    destruct (col E !! c) as [v|]; simpl; [|done]. by rewrite norm1_norm1.
  - apply list_eq. intros r.
    destruct (decide (r < nrow E)%nat) as [Hr | Hr].
    2:{ rewrite (proj1 (lookup_replicate_None (nrow E) 1 r)) by lia.
        apply lookup_ge_None. lia. }
    rewrite lookup_replicate_2 by lia.
    destruct (Hrows2 r ltac:(lia)) as [H1 | (c & a & v & Hc & Hcol)]; [done|].
    rewrite (Hpc2 c r a v Hc Hcol). f_equal.
    rewrite Hcols, decide_True in Hcol by lia.
    destruct (col E !! c) as [[|[r0 a0] v0]|]; simpl in Hcol; try done.
    by inversion Hcol.
Qed.

(** X7.  On a well-formed pivot-only EL-shaped E and a well-formed lower
    triangular L on the columns of E, [EL_L_commute] returns a matrix R
    with R * E' = E * L, where E' is E with its pivots set to one, as
    [extract_row_scale] returns it: the in-code identity
    D EL L = D Ltil EL. *)
Theorem EL_L_commute_scaled_identity (E L : ColumnMatrix F) :
  mat_wf E = true -> is_EL E = true -> EL_pivots_only E = true ->
  mat_wf L = true -> is_lower L = true ->
  nrow L = ncol E -> ncol L = ncol E ->
  exists E' coeff R,
    extract_row_scale E = Some (E', coeff)
    /\ EL_L_commute E L = Some R
    /\ mmul R E' = mmul E L.
Proof. apply EL_L_commute_normalized. Qed.

(** X8.  When every pivot of E is one, [EL_L_commute] meets the contract
    stated above it: for lower-unitriangular L on the columns of E the
    returned matrix is lower-unitriangular and Ltilde * E = E * L. *)
Theorem EL_L_commute_contract_unit_pivots (E L : ColumnMatrix F) :
  mat_wf E = true -> is_EL E = true -> EL_pivots_only E = true ->
  unit_pivots E = true ->
  mat_wf L = true -> lower_unitriangular L = true ->
  nrow L = ncol E -> ncol L = ncol E ->
  exists Lt, EL_L_commute E L = Some Lt
             /\ lower_unitriangular Lt = true
             /\ mmul Lt E = mmul E L.
Proof. apply EL_L_commute_unit_pivots. Qed.

(** X9.  The composition the tests exercise: for every well-formed A and
    every well-formed lower triangular L on the columns of A,
    [EL_L_commute] applied to the E factor of [LEUP A] returns R with
    R * E' = E * L for the normalized E'. *)
Theorem EL_L_commute_after_LEUP (A L : ColumnMatrix F) :
  mat_wf A = true -> mat_wf L = true -> is_lower L = true ->
  nrow L = ncol A -> ncol L = ncol A ->
  exists E' coeff R,
    extract_row_scale (fE (LEUP A)) = Some (E', coeff)
    /\ EL_L_commute (fE (LEUP A)) L = Some R
    /\ mmul R E' = mmul (fE (LEUP A)) L.
Proof.
  intros HA HL Hlow Hnr Hnc.
  destruct (LEUP_has_facts A HA) as (sigma & tau & HF).
  pose proof (lf_E_ncol _ _ _ _ HF) as HEn.
  apply EL_L_commute_normalized; try done; try lia.
  - by apply (lf_E_wf _ _ _ _ HF).
  - by destruct (LEUP_facts_lowerP A _ sigma tau HF) as (_ & _ & _ & _ & _ & ?).
  - by apply (LEUP_facts_pivots_only A _ sigma tau).
Qed.

Lemma identity_pivots_only n :
  EL_pivots_only (identity n : ColumnMatrix F) = true
  /\ is_EL (identity n : ColumnMatrix F) = true.
Proof.
  destruct (LEUP_has_facts (identity n) (identity_wf n)) as (sigma & tau & HF).
  rewrite LEUP_identity in HF. split.
  - exact (LEUP_facts_pivots_only _ _ sigma tau HF).
  - by destruct (LEUP_facts_lowerP _ _ sigma tau HF) as (_ & _ & _ & _ & _ & ?).
Qed.

(** X10.  Commuting past the identity changes nothing: for every
    well-formed n x n matrix L, lower triangular or not,
    [EL_L_commute (identity n) L] returns L itself. *)
Theorem EL_L_commute_identity_left (n : nat) (L : ColumnMatrix F) :
  mat_wf L = true -> nrow L = n -> ncol L = n ->
  EL_L_commute (identity n) L = Some L.
Proof.
  intros HL Hnr Hnc. destruct (identity_pivots_only n) as [Hpo HEL].
  pose proof (identity_wf n) as HI.
  destruct (EL_L_commute_entries (identity n) L HI HEL Hpo HL Hnr Hnc)
    as (E' & coeff & R & Hex & HR & HRwf & HRnr & HRnc & Hpp & _).
  destruct (extract_row_scale_pivots_only (identity n) HI HEL Hpo)
    as (E'' & coeff' & Hex' & _ & _ & _ & _ & Hcp & _).
  rewrite Hex in Hex'. inversion Hex'; subst E'' coeff'. clear Hex'.
  rewrite HR. f_equal. simpl in HRnr, HRnc.
  apply mat_ext; try done; try lia.
  intros i j Hi Hj.
  assert (Hpiv : forall k, (k < n)%nat ->
            col_pivot (mcol (identity n : ColumnMatrix F) k) = Some k).
  { intros k Hk. by rewrite mcol_identity. }
  rewrite (Hpp i j i j) by (apply Hpiv; lia).
  rewrite (Hcp i i 1) by (apply mcol_identity; lia). ring.
Qed.

(** X11.  Commuting the identity past a pivot-only E returns the row
    scaling itself: the diagonal matrix of the coefficients of
    [extract_row_scale], which is the identity when every pivot of E is
    one. *)
Theorem EL_L_commute_identity_right (E : ColumnMatrix F) :
  mat_wf E = true -> is_EL E = true -> EL_pivots_only E = true ->
  exists E' coeff R,
    extract_row_scale E = Some (E', coeff)
    /\ EL_L_commute E (identity (ncol E)) = Some R
    /\ (forall i j, get R i j
                    = if decide (i = j /\ (j < nrow E)%nat)
                      then nth i coeff 0 else 0)
    /\ (unit_pivots E = true -> R = identity (nrow E)).
Proof.
  intros Hwf HEL Hpo.
  destruct (EL_L_commute_entries E (identity (ncol E)) Hwf HEL Hpo
              (identity_wf _) eq_refl eq_refl)
    as (E' & coeff & R & Hex & HR & HRwf & HRnr & HRnc & Hpp & Hpn & Hnp).
  destruct (pivot_idx_facts E Hwf HEL Hpo) as (H1 & _ & _ & H4 & _).
  cbv zeta in *.
  assert (Hent : forall i j, get R i j
                   = if decide (i = j /\ (j < nrow E)%nat)
                     then nth i coeff 0 else 0).
  { intros i j. destruct (decide (j < nrow E)%nat) as [Hj | Hj].
    2:{ rewrite get_col_ge by (done || lia).
        rewrite decide_False by lia. done. }
    destruct (pivot_row_dec E j) as [[c Hc] | Hnoj].
    - destruct (pivot_row_dec E i) as [[k Hk] | Hnoi].
      + rewrite (Hpp i c k j Hc Hk), get_identity.
        destruct (col_pivot_lt E c j Hwf Hc) as [Hcn _].
        destruct (decide (i = j)) as [-> | Hij].
        * destruct (col_pivot_lt E k j Hwf Hk) as [Hkn _].
          assert (k = c) as -> by (apply (H4 k c j); apply H1; by split).
          rewrite !decide_True by done. ring.
        * rewrite (decide_False (P := i = j /\ _)) by tauto.
          rewrite decide_False; [ring|]. intros [-> _].
          rewrite Hk in Hc. by inversion Hc.
      + rewrite (Hpn i c j Hc Hnoi). rewrite decide_False; [done|].
        intros [-> _]. by destruct (Hnoi c).
    - rewrite (Hnp i j Hj Hnoj).
      destruct (decide (i = j)) as [-> | Hij].
      + by rewrite decide_True.
      + by rewrite decide_False by tauto. }
  exists E', coeff, R. split; [done|]. split; [done|]. split; [done|].
  intros Hunit.
  destruct (extract_row_scale_pivots_only E Hwf HEL Hpo)
    as (E'' & coeff' & Hex' & _ & _ & _ & _ & Hcp & Hcn).
  rewrite Hex in Hex'. inversion Hex'; subst E'' coeff'. clear Hex'.
  destruct (pivots_only_cols E Hwf Hpo) as [Hshape _].
  apply mat_ext; try done; try apply identity_wf.
  intros i j Hi Hj. rewrite Hent, get_identity.
  destruct (decide (i = j /\ (j < nrow E)%nat)) as [[-> _] | Hn]; [|done].
  destruct (pivot_row_dec E j) as [[c Hc] | Hnoj].
  - destruct (Hshape c) as [Hz | (r & a & Hcol & _)]; [by rewrite Hz in Hc|].
    assert (r = j) as -> by (rewrite Hcol in Hc; by inversion Hc).
    by rewrite (Hcp c j a Hcol), (unit_pivots_spec E c j a Hunit Hcol).
  - apply Hcn; [lia | done].
Qed.

Lemma JT_JT (X : ColumnMatrix F) :
  mat_wf X = true -> J_conjugation (T (J_conjugation (T X))) = X.
Proof.
  intros HX. rewrite (T_J_comm (T X)), (T_T X HX). by apply J_J.
Qed.

Lemma JT_mmul (A B : ColumnMatrix F) :
  mat_wf A = true -> mat_wf B = true -> nrow B = ncol A ->
  J_conjugation (T (mmul A B))
  = mmul (J_conjugation (T B)) (J_conjugation (T A)).
Proof.
  intros HA HB Hd. rewrite (T_mmul A B HA HB Hd).
  apply J_mmul; [apply T_wf | apply T_wf | simpl; lia].
Qed.

Lemma JT_lower_unitriangular (L : ColumnMatrix F) :
  mat_wf L = true -> lower_unitriangular L = true ->
  lower_unitriangular (J_conjugation (T L)) = true.
Proof.
  intros HL HLu. apply andb_true_iff in HLu as [Hlow Hdiag].
  apply is_lower_elim in Hlow. apply unit_diag_elim in Hdiag as [Hsq Hdiag].
  apply lower_unitriangular_intro.
  - apply J_wf.
  - simpl. lia.
  - apply lowerP_J; [simpl; lia | by apply upperP_T].
  - apply diagP_J; [simpl; lia | by apply diagP_T].
Qed.

(** X12.  The dual routine undoes its symmetries correctly: when the
    transposed conjugate of EL is a well-formed pivot-only EL-shaped matrix
    with unit pivots and L is lower-unitriangular on the rows of EL,
    [L_EL_commute L EL] returns a lower-unitriangular Ltilde with
    L * EL = EL * Ltilde. *)
Theorem L_EL_commute_contract_unit_pivots (L EL : ColumnMatrix F) :
  mat_wf EL = true -> mat_wf L = true ->
  is_EL (J_conjugation (T EL)) = true ->
  EL_pivots_only (J_conjugation (T EL)) = true ->
  unit_pivots (J_conjugation (T EL)) = true ->
  lower_unitriangular L = true ->
  nrow L = nrow EL -> ncol L = nrow EL ->
  exists Lt, L_EL_commute L EL = Some Lt
             /\ lower_unitriangular Lt = true
             /\ mmul L EL = mmul EL Lt.
Proof.
  intros HE HL HEL Hpo Hunit HLu Hnr Hnc.
  set (E2 := J_conjugation (T EL)) in *. set (L2 := J_conjugation (T L)).
  assert (HE2 : mat_wf E2 = true) by apply J_wf.
  assert (HL2 : mat_wf L2 = true) by apply J_wf.
  assert (HLu2 : lower_unitriangular L2 = true)
    by (by apply JT_lower_unitriangular).
  assert (Hd1 : nrow L2 = ncol E2) by (simpl; lia).
  assert (Hd2 : ncol L2 = ncol E2) by (simpl; lia).
  destruct (EL_L_commute_unit_pivots E2 L2 HE2 HEL Hpo Hunit HL2 HLu2 Hd1 Hd2)
    as (R & HR & HRu & Hprod).
  destruct (EL_L_commute_wf E2 L2 HE2 HEL HL2 Hd1 Hd2)
    as (R' & HR' & HRwf & HRnr & HRnc).
  rewrite HR in HR'. inversion HR'; subst R'. clear HR'.
  exists (J_conjugation (T R)). unfold L_EL_commute. fold E2 L2.
  rewrite HR. simpl. split; [done|].
  split; [by apply JT_lower_unitriangular|].
  apply (f_equal (fun X => J_conjugation (T X))) in Hprod.
  rewrite (JT_mmul R E2 HRwf HE2) in Hprod by (simpl in *; lia).
  rewrite (JT_mmul E2 L2 HE2 HL2 Hd1) in Hprod.
  unfold E2, L2 in Hprod. rewrite (JT_JT EL HE), (JT_JT L HL) in Hprod.
  by symmetry.
Qed.

Lemma LEUP_loop_checked_inv (A : ColumnMatrix F) fuel :
  forall (s : LEUP_state) sigma tau,
  Inv A sigma tau s ->
  P2C (ncol A) (sE s) (sp2c s) (si s) (sj s) ->
  length (spivs s) = sj s ->
  (si s + fuel = nrow A)%nat ->
  LEUP_loop_checked fuel (nrow A) (ncol A) s
  = Some (LEUP_loop fuel (nrow A) (ncol A) s).
Proof.
  induction fuel as [|fuel IH]; intros s sigma tau HInv HP Hnp Hfuel; simpl;
    [done|].
  destruct (Nat.ltb_spec (si s) (nrow A)) as [Hi | Hi]; simpl; [|done].
  destruct (Nat.ltb_spec (sj s) (ncol A)) as [Hj | Hj]; simpl; [|done].
  destruct (sp2c s !! si s) as [cs|] eqn:Hcs.
  - destruct (swap_pivot_inv A sigma tau s cs HInv HP Hi Hj Hcs)
      as ((sigma1 & tau1 & HInv1) & HPS & Hi1 & Hj1 & Hp1 & Hc1).
    assert (Hdef : step_defined s cs = true).
    { destruct cs as [|j2 rest]; [by destruct (p2c_nonempty _ _ _ _ _ HP (si s))|].
      assert (Hj2 : (sj s <= j2 < ncol A)%nat).
      { apply (p2c_mem _ _ _ _ _ HP (si s) j2). unfold bucket. rewrite Hcs.
        apply list_elem_of_here. }
      pose proof (mat_wf_length _ (inv_E_wf _ _ _ _ HInv)) as HlE.
      rewrite (inv_E_ncol _ _ _ _ HInv) in HlE.
      pose proof (mat_wf_length _ (inv_U_wf _ _ _ _ HInv)) as HlU.
      rewrite (inv_U_ncol _ _ _ _ HInv) in HlU.
      pose proof (mat_wf_length _ (inv_L_wf _ _ _ _ HInv)) as HlL.
      rewrite (inv_L_ncol _ _ _ _ HInv) in HlL.
      pose proof (inv_P_len _ _ _ _ HInv) as HlP.
      unfold step_defined. simpl in HPS.
      rewrite HlE, HlU, HlL, HlP.
      repeat (apply andb_true_iff; split); try (apply Nat.ltb_lt; lia).
      - apply negb_true_iff, bool_decide_eq_false.
        exact (ps_pivot _ _ _ _ _ HPS).
      - apply forallb_forall. intros c Hc. apply Nat.ltb_lt.
        apply list_elem_of_In in Hc.
        apply (ps_tl_mem _ _ _ _ _ HPS) in Hc. lia. }
    rewrite Hdef.
    unfold pivot_step. set (s1 := swap_pivot s (hd O cs)) in *.
    rewrite <- Hi1, <- Hj1 in HPS.
    assert (length (spivs s1) = sj s1) as Hnp1 by congruence.
    destruct (eliminate_inv A sigma1 tau1 s1 HInv1 HPS
                ltac:(lia) ltac:(lia) Hnp1) as (HInv2 & HP2 & Hnp2).
    apply (IH _ sigma1 tau1 HInv2); try done. simpl. lia.
  - destruct (skip_row_inv A sigma tau s HInv HP Hi Hcs) as [HInv' HP'].
    apply (IH _ sigma tau HInv'); try done. simpl. lia.
Qed.

(** X13.  On a well-formed matrix the main loop of the kernel only makes
    defined accesses: a bucket that is a key of the pivot map is never
    empty when its front is read, every column index it uses is in range,
    and the pivot it inverts is never zero. *)
Theorem LEUP_accesses_defined (A : ColumnMatrix F) :
  mat_wf A = true ->
  let s0 := MkState (identity (nrow A)) A (identity (ncol A))
                    (identity (ncol A)) (get_pivots A) [] [] 0 0 in
  LEUP_loop_checked (nrow A) (nrow A) (ncol A) s0
  = Some (LEUP_loop (nrow A) (nrow A) (ncol A) s0).
Proof.
  intros HA. cbv zeta.
  apply (LEUP_loop_checked_inv A (nrow A) _ id id (init_inv A HA)
           (get_pivots_P2C A HA) eq_refl eq_refl).
Qed.

Lemma get_pivots_zero (A : ColumnMatrix F) :
  (forall j, mcol A j = []) -> get_pivots A = ∅.
Proof.
  intros Hz. unfold get_pivots. generalize (seq 0 (ncol A)).
  intros l. induction l as [|j l IH]; [done|]. simpl.
  unfold update_pivot at 2. by rewrite Hz.
Qed.

Lemma LEUP_loop_no_pivots fuel m n :
  forall s : LEUP_state,
  sp2c s = ∅ ->
  exists i',
    LEUP_loop fuel m n s
    = MkState (sL s) (sE s) (sU s) (sP s) ∅ (spivs s) (scoeff s) i' (sj s).
Proof.
  induction fuel as [|fuel IH]; intros s Hs; simpl.
  - exists (si s). destruct s; simpl in *. by subst.
  - destruct ((si s <? m) && (sj s <? n)).
    + rewrite Hs, lookup_empty. destruct (IH (skip_row s) Hs) as [i' Hi'].
      exists i'. by rewrite Hi'.
    + exists (si s). destruct s; simpl in *. by subst.
Qed.

Lemma finish_zero (A U : ColumnMatrix F) l :
  (forall j, mcol A j = []) ->
  fold_left (finish_col [] []) l (A, U) = (A, U).
Proof.
  intros Hz. induction l as [|j l IH]; [done|]. simpl.
  unfold finish_col at 2. simpl. unfold axpy_hist. simpl.
  rewrite (set_col_id U j). rewrite <- (Hz j) at 1. by rewrite set_col_id.
Qed.

(** X14.  A matrix without entries, among them every matrix with no row
    or no column, is factored without any elimination: L, U and P are
    identities and E is the matrix itself. *)
Theorem LEUP_zero_matrix (A : ColumnMatrix F) :
  col A = replicate (ncol A) [] ->
  LEUP A
  = MkFact (identity (nrow A)) A (identity (ncol A)) (identity (ncol A)).
Proof.
  intros Hc.
  assert (Hz : forall j, mcol A j = []).
  { intros j. unfold mcol. rewrite Hc.
    rewrite (list_lookup_total_alt (replicate (ncol A) []) j).
    destruct (replicate (ncol A) [] !! j) as [v|] eqn:Hv; [|done].
    by apply lookup_replicate in Hv as [-> _]. }
  unfold LEUP, LEUP_inplace. simpl. rewrite (get_pivots_zero A Hz).
  match goal with
  | |- context [LEUP_loop ?a ?b ?c ?s] =>
      destruct (LEUP_loop_no_pivots a b c s eq_refl) as [i' ->]
  end.
  simpl. rewrite (finish_zero A _ _ Hz). by rewrite T_identity.
Qed.

Lemma mmul_identity_r (X : ColumnMatrix F) :
  mat_wf X = true -> mmul X (identity (ncol X)) = X.
Proof.
  intros HX. apply mat_ext; try done.
  - apply mmul_wf; [done | apply identity_wf | done].
  - intros i j Hi Hj. simpl in Hi, Hj.
    rewrite get_mmul by (done || apply identity_wf).
    rewrite (fsum_single (ncol X) j) by
      (done || intros k Hk Hne; rewrite get_identity;
       rewrite decide_False by tauto; ring).
    rewrite get_identity, decide_True by done. ring.
Qed.

(** X15.  The permutation factor is undone by its transpose: for the
    bundle [LEUP A] of a well-formed A, P * T(P) and T(P) * P are the
    identity, and so A * T(P) = L * E * U. *)
Theorem LEUP_P_transpose_inverse (A : ColumnMatrix F) :
  mat_wf A = true ->
  mmul (fP (LEUP A)) (T (fP (LEUP A))) = identity (ncol A)
  /\ mmul (T (fP (LEUP A))) (fP (LEUP A)) = identity (ncol A)
  /\ mmul A (T (fP (LEUP A)))
     = mmul (mmul (fL (LEUP A)) (fE (LEUP A))) (fU (LEUP A)).
Proof.
  intros HA. destruct (LEUP_has_facts A HA) as (sigma & tau & HF).
  pose proof (LEUP_prod_facts A _ sigma tau HA HF) as Hprod.
  set (X := LEUP A) in *.
  pose proof (lf_P_wf _ _ _ _ HF) as HP.
  pose proof (lf_P_nrow _ _ _ _ HF) as HPnr.
  pose proof (lf_P_ncol _ _ _ _ HF) as HPnc.
  pose proof (lf_P_get _ _ _ _ HF) as HPg.
  assert (H1 : mmul (fP X) (T (fP X)) = identity (ncol A)).
  { apply mat_ext; try (simpl; lia).
    - apply mmul_wf; [done | apply T_wf | simpl; lia].
    - apply identity_wf.
    - intros i j Hi Hj. simpl in Hi, Hj.
      rewrite get_mmul by (done || apply T_wf || simpl; lia).
      rewrite HPnc.
      pose proof (lf_tau_lt _ _ _ _ HF i ltac:(lia)) as Hti.
      rewrite (fsum_single (ncol A) (tau i)); [|done|].
      2:{ intros k Hk Hne. rewrite HPg by lia.
          rewrite decide_False; [ring|]. intros ->.
          by rewrite (lf_tau_sigma _ _ _ _ HF) in Hne by lia. }
      rewrite get_T by lia. rewrite !HPg by lia.
      rewrite (lf_sigma_tau _ _ _ _ HF) by lia.
      rewrite decide_True by done. rewrite get_identity.
      destruct (decide (j = i)) as [-> | Hne].
      + rewrite decide_True by (split; [done | lia]). ring.
      + rewrite decide_False by (intros [? _]; congruence). ring. }
  assert (H2 : mmul (T (fP X)) (fP X) = identity (ncol A)).
  { apply mat_ext; try (simpl; lia).
    - apply mmul_wf; [apply T_wf | done | simpl; lia].
    - apply identity_wf.
    - intros i j Hi Hj. simpl in Hi, Hj.
      rewrite get_mmul by (done || apply T_wf || simpl; lia).
      simpl ncol.
      pose proof (lf_sigma_lt _ _ _ _ HF j ltac:(lia)) as Hsj.
      rewrite (fsum_single (nrow (fP X)) (sigma j)); [|lia|].
      2:{ intros k Hk Hne. rewrite (HPg k j) by lia.
          rewrite decide_False by done. ring. }
      rewrite get_T by lia. rewrite !HPg by lia.
      rewrite (decide_True (P := sigma j = sigma j)) by done.
      rewrite get_identity.
      destruct (decide (i = j)) as [-> | Hne].
      + rewrite !decide_True by (done || (split; [done | lia])). ring.
      + rewrite decide_False.
        * rewrite decide_False by (intros [? _]; congruence). ring.
        * intros Heq. apply Hne.
          rewrite <- (lf_tau_sigma _ _ _ _ HF i), <- (lf_tau_sigma _ _ _ _ HF j)
            by lia. congruence. }
  split; [done|]. split; [done|].
  unfold LEUP_prod in Hprod. rewrite <- Hprod at 1.
  assert (HLEU : mat_wf (mmul (mmul (fL X) (fE X)) (fU X)) = true).
  { apply mmul_wf.
    - apply mmul_wf; [apply (lf_L_wf _ _ _ _ HF) | apply (lf_E_wf _ _ _ _ HF)|].
      rewrite (lf_E_nrow _ _ _ _ HF), (lf_L_ncol _ _ _ _ HF). done.
    - apply (lf_U_wf _ _ _ _ HF).
    - simpl. rewrite (lf_U_nrow _ _ _ _ HF), (lf_E_ncol _ _ _ _ HF). done. }
  rewrite mmul_assoc; try done; try apply T_wf.
  - rewrite H1. rewrite <- (lf_U_ncol _ _ _ _ HF).
    by apply (mmul_identity_r (mmul (mmul (fL X) (fE X)) (fU X))).
  - simpl. rewrite (lf_U_ncol _ _ _ _ HF). done.
Qed.

Lemma PLEU_inplace_PLEU (A : ColumnMatrix F) :
  PLEU_inplace
    (MkFact (identity (ncol A)) A (identity (nrow A)) (identity (nrow A)))
  = PLEU A.
Proof. reflexivity. Qed.

Lemma UELP_inplace_UELP (A : ColumnMatrix F) :
  UELP_inplace
    (MkFact (identity (nrow A)) A (identity (ncol A)) (identity (ncol A)))
  = UELP A.
Proof. reflexivity. Qed.

(** X16.  The in-place variants [PLEU_inplace] and [UELP_inplace] give the
    bundles of the wrappers, and so reconstruct A, when they are started
    on E = A with identity factors of the sizes the kernel needs for the
    transformed matrix: for [PLEU_inplace] the L slot is sized by the
    columns of A and the U and P slots by its rows. *)
Theorem inplace_variants_reconstruct (A : ColumnMatrix F) :
  mat_wf A = true ->
  let m := nrow A in
  let n := ncol A in
  PLEU_inplace (MkFact (identity n) A (identity m) (identity m)) = PLEU A
  /\ UELP_inplace (MkFact (identity m) A (identity n) (identity n)) = UELP A
  /\ PLEU_prod
       (PLEU_inplace (MkFact (identity n) A (identity m) (identity m))) = A
  /\ UELP_prod
       (UELP_inplace (MkFact (identity m) A (identity n) (identity n))) = A.
Proof.
  intros HA. cbv zeta.
  rewrite PLEU_inplace_PLEU, UELP_inplace_UELP.
  split; [done|]. split; [done|].
  split; [by apply PLEU_reconstruct | by apply UELP_reconstruct].
Qed.

End Theory.

(** * Instances over F5 *)

Lemma factorizations_reconstruct_F5 :
  mat_wf A34 = true
  /\ (LEUP_prod (LEUP A34) = A34 /\ PLEU_prod (PLEU A34) = A34
      /\ UELP_prod (UELP A34) = A34 /\ PUEL_prod (PUEL A34) = A34).
Proof.
  split; [reflexivity | apply (factorizations_reconstruct A34); reflexivity].
Defined.

Lemma factorizations_shapes_F5 :
  mat_wf A34 = true
  /\ (shape_ok is_EL (LEUP A34) = true /\ shape_ok is_EU (PLEU A34) = true
      /\ shape_ok is_ELhat (UELP A34) = true
      /\ shape_ok is_EUhat (PUEL A34) = true).
Proof.
  split; [reflexivity | apply (factorizations_shapes A34); reflexivity].
Defined.

Lemma PUEL_inplace_agrees_F5 :
  nrow A33 = 3%nat /\ ncol A33 = 3%nat
  /\ PUEL_inplace (MkFact (identity 3) A33 (identity 3) (identity 3))
     = PUEL A33.
Proof.
  split; [reflexivity|]. split; [reflexivity|].
  apply (PUEL_inplace_agrees A33 3); reflexivity.
Defined.

Lemma extract_row_scale_round_trip_F5 :
  mat_wf E34 = true /\ is_EL E34 = true /\ EL_pivots_only E34 = true
  /\ row_scale_round_trip E34.
Proof.
  split; [reflexivity|]. split; [reflexivity|]. split; [reflexivity|].
  apply (extract_row_scale_round_trip E34); reflexivity.
Defined.

(** C5, counterexample.  [E_below] is well formed and EL-shaped, yet
    [extract_row_scale] followed by row scaling does not give it back: the
    entry below the pivot of the first column lies on the pivot row of the
    second column and is multiplied by that pivot.  [E_gap] is well formed
    and EL-shaped too, and [extract_row_scale] leaves its pivot 2 as it is:
    the loop stops at the first zero column. *)
Lemma extract_row_scale_round_trip_fails :
  (mat_wf E_below = true /\ is_EL E_below = true
   /\ extract_row_scale E_below
      = Some (MkMat 2 2 [[(0, r1); (1, r1)]; [(1, r1)]]%nat, [r1; r2])
   /\ row_scale [r1; r2] (MkMat 2 2 [[(0, r1); (1, r1)]; [(1, r1)]]%nat)
      = Some (MkMat 2 2 [[(0, r1); (1, r2)]; [(1, r2)]]%nat)
   /\ ~ row_scale_round_trip E_below)
  /\ (mat_wf E_gap = true /\ is_EL E_gap = true
      /\ extract_row_scale E_gap = Some (E_gap, [r1])
      /\ ~ row_scale_round_trip E_gap).
Proof.
  split.
  - split; [reflexivity|]. split; [reflexivity|]. split; [reflexivity|].
    split; [reflexivity|].
    intros (E' & coeff & Hex & _ & _ & Hrs).
    vm_compute in Hex. inversion Hex; subst. vm_compute in Hrs. discriminate.
  - split; [reflexivity|]. split; [reflexivity|]. split; [reflexivity|].
    intros (E' & coeff & Hex & Hone & _).
    vm_compute in Hex. inversion Hex; subst.
    pose proof (Hone 1%nat 0%nat r2 [] eq_refl) as H2. discriminate.
Qed.

Lemma EL_L_commute_unchecked_F5 :
  mat_wf E21 = true /\ is_EL E21 = true
  /\ readable_by (ncol E21) (identity 3 : ColumnMatrix F5) = true
  /\ exists R, EL_L_commute E21 (identity 3) = Some R
               /\ nrow R = nrow E21 /\ ncol R = nrow E21.
Proof.
  split; [reflexivity|]. split; [reflexivity|]. split; [reflexivity|].
  apply (EL_L_commute_unchecked E21 (identity 3)); reflexivity.
Defined.

(** C4, counterexample.  A 3 x 3 identity does not match the single column
    of the 2 x 1 matrix [E21], and [EL_L_commute] returns the 2 x 2
    identity for the pair instead of rejecting it. *)
Lemma EL_L_commute_accepts_mismatch :
  mat_wf E21 = true /\ is_EL E21 = true
  /\ lower_unitriangular (identity 3 : ColumnMatrix F5) = true
  /\ nrow (identity 3 : ColumnMatrix F5) <> ncol E21
  /\ ncol (identity 3 : ColumnMatrix F5) <> ncol E21
  /\ EL_L_commute E21 (identity 3) = Some (identity 2)
  /\ ~ rejects_mismatch E21 (identity 3).
Proof.
  split; [reflexivity|]. split; [reflexivity|]. split; [reflexivity|].
  split; [discriminate|]. split; [discriminate|]. split; [reflexivity|].
  intros H. assert (Hne : nrow (identity 3 : ColumnMatrix F5) <> ncol E21
                          \/ ncol (identity 3 : ColumnMatrix F5) <> ncol E21)
    by (left; discriminate).
  apply H in Hne. vm_compute in Hne. discriminate.
Qed.

Lemma EL_L_commute_nonpivot_columns_F5 :
  mat_wf E32 = true /\ is_EL E32 = true /\ mat_wf L22 = true
  /\ nrow L22 = ncol E32 /\ ncol L22 = ncol E32
  /\ exists R,
       EL_L_commute E32 L22 = Some R
       /\ forall c, (c < nrow E32)%nat -> c ∉ pivot_rows E32 ->
            mcol R c = [(c, 1%F)] /\ mcol R c = mcol (identity (nrow E32)) c.
Proof.
  split; [reflexivity|]. split; [reflexivity|]. split; [reflexivity|].
  split; [reflexivity|]. split; [reflexivity|].
  apply (EL_L_commute_nonpivot_columns E32 L22); reflexivity.
Defined.

Lemma returned_matrices_wf_F5 :
  mat_wf A34 = true
  /\ mat_wf E32 = true /\ is_EL E32 = true /\ mat_wf L22 = true
  /\ nrow L22 = ncol E32 /\ ncol L22 = ncol E32
  /\ is_EL (J_conjugation (T E23)) = true
  /\ nrow L22 = nrow E23 /\ ncol L22 = nrow E23
  /\ (fact_wf (LEUP A34) = true /\ fact_wf (PLEU A34) = true
      /\ fact_wf (UELP A34) = true /\ fact_wf (PUEL A34) = true
      /\ (exists R, EL_L_commute E32 L22 = Some R /\ mat_wf R = true)
      /\ (exists R, L_EL_commute L22 E23 = Some R /\ mat_wf R = true)).
Proof.
  repeat (split; [reflexivity|]).
  apply (returned_matrices_wf A34 E32 L22 E23 L22); reflexivity.
Defined.

(** C3, the failing input.  On the 1 x 1 matrix (2) over the integers
    modulo five, which is EL-shaped with its pivot alone, and the 1 x 1
    identity, [EL_L_commute] returns (2): the row scaling multiplies the
    unit diagonal by the pivot.  The result is not unitriangular, and
    multiplied with E it gives (4) where E times L is (2). *)
Theorem EL_L_commute_scales_by_pivot :
  mat_wf E11 = true /\ is_EL E11 = true /\ EL_pivots_only E11 = true
  /\ mat_wf (identity 1 : ColumnMatrix F5) = true
  /\ lower_unitriangular (identity 1 : ColumnMatrix F5) = true
  /\ nrow (identity 1 : ColumnMatrix F5) = ncol E11
  /\ ncol (identity 1 : ColumnMatrix F5) = ncol E11
  /\ EL_L_commute E11 (identity 1) = Some E11
  /\ lower_unitriangular E11 = false
  /\ mmul E11 E11 = MkMat 1 1 [[(0, r4)]]%nat
  /\ mmul E11 (identity 1) = MkMat 1 1 [[(0, r2)]]%nat
  /\ ~ commutes_unitriangular E11 (identity 1).
Proof.
  repeat (split; [reflexivity|]).
  intros (Lt & HLt & Hu & _). vm_compute in HLt. inversion HLt; subst.
  vm_compute in Hu. discriminate.
Qed.

(** The same divergence on a factor the library itself produces: with E
    and L the factors of [LEUP A33], whose pivots are 2 and 3, the returned
    matrix times E differs from E times L. *)
Lemma EL_L_commute_on_LEUP_factor :
  let E := fE (LEUP A33) in
  let L := MkMat 3 3 [[(0, r1); (1, r2)]; [(1, r1)]; [(2, r1)]]%nat in
  is_EL E = true /\ EL_pivots_only E = true
  /\ lower_unitriangular L = true
  /\ exists Lt, EL_L_commute E L = Some Lt
                /\ lower_unitriangular Lt = false
                /\ mmul Lt E <> mmul E L.
Proof.
  cbv zeta. repeat (split; [reflexivity|]).
  eexists. split; [reflexivity|]. split; [reflexivity|].
  vm_compute. discriminate.
Qed.

(** What the routine does deliver: on [E32], whose pivots are 2 and 3,
    the returned matrix commutes [L22] past the normalized [E32]; on [E32]
    with its pivots set to one it meets the contract. *)
Example EL_L_commute_normalized_F5 : commutes_normalized E32 L22.
Proof. apply EL_L_commute_normalized; reflexivity. Qed.

Example EL_L_commute_unit_pivots_F5 :
  commutes_unitriangular (MkMat 3 2 [[(0, r1)]; [(2, r1)]]%nat) L22.
Proof. apply EL_L_commute_unit_pivots; reflexivity. Qed.

(** * The dense product *)

(** C8.  The product of the 3 x 3 integer matrix with rows (2 3 4),
    (1 2 3), (8 5 2) with itself is the matrix with rows (39 32 25),
    (28 22 16), (37 44 51). *)
Theorem matmul_a1_a1 : matmul a1 a1 = a2.
Proof. reflexivity. Qed.

(** * Instances of the further properties *)

Lemma LEUP_E_pivots_only_F5 :
  mat_wf A34 = true
  /\ (EL_pivots_only (fE (LEUP A34)) = true /\ is_EL (fE (LEUP A34)) = true
      /\ mat_wf (fE (LEUP A34)) = true).
Proof.
  split; [reflexivity | apply (LEUP_E_pivots_only A34); reflexivity].
Defined.

Lemma pivot_ind_lowest_row_F5 :
  mat_wf A34 = true
  /\ ((pivot_ind A34 1 = None <-> (ncol A34 <= 1)%nat)
      /\ (pivot_ind A34 1 = Some None <->
          (1 < ncol A34)%nat /\ forall i, get A34 i 1 = 0%F)
      /\ (forall r, pivot_ind A34 1 = Some (Some r) <->
            (1 < ncol A34)%nat /\ (r < nrow A34)%nat /\ get A34 r 1 <> 0%F
            /\ forall i, (i < r)%nat -> get A34 i 1 = 0%F)).
Proof.
  split; [reflexivity | apply (pivot_ind_lowest_row A34 1); reflexivity].
Defined.

Lemma delete_update_pivot_F5 :
  (forall r, 1%nat ∉ bucket (∅ : gmap nat (list nat)) r)
  /\ (let p2c' := delete_pivot A33 (update_pivot A33 ∅ 1 0) 1 0 in
      (forall r, bucket p2c' r = bucket ∅ r)
      /\ (forall r x, lower_bound (mcol A33 1) 0 = Some (r, x) ->
            p2c' !! r = Some (bucket ∅ r))).
Proof.
  assert (H : forall r, 1%nat ∉ bucket (∅ : gmap nat (list nat)) r).
  { intros r. unfold bucket. rewrite lookup_empty. apply not_elem_of_nil. }
  split; [exact H | apply (delete_update_pivot A33 ∅ 1 0 H)].
Defined.

Lemma extract_row_scale_total_F5 :
  mat_wf E_below = true
  /\ exists E' coeff,
       extract_row_scale E_below = Some (E', coeff)
       /\ mat_wf E' = true /\ nrow E' = nrow E_below
       /\ ncol E' = ncol E_below
       /\ (forall j, col_pivot (mcol E' j) = col_pivot (mcol E_below j))
       /\ length coeff = nrow E_below
       /\ (forall x, x ∈ coeff -> x <> 0%F).
Proof.
  split; [reflexivity | apply (extract_row_scale_total E_below); reflexivity].
Defined.

Lemma extract_row_scale_idempotent_F5 :
  mat_wf E32 = true /\ is_EL E32 = true
  /\ exists E' coeff,
       extract_row_scale E32 = Some (E', coeff)
       /\ extract_row_scale E' = Some (E', replicate (nrow E32) 1%F).
Proof.
  split; [reflexivity|]. split; [reflexivity|].
  apply (extract_row_scale_idempotent E32); reflexivity.
Defined.

Lemma EL_L_commute_scaled_identity_F5 :
  mat_wf E32 = true /\ is_EL E32 = true /\ EL_pivots_only E32 = true
  /\ mat_wf L22 = true /\ is_lower L22 = true
  /\ nrow L22 = ncol E32 /\ ncol L22 = ncol E32
  /\ exists E' coeff R,
       extract_row_scale E32 = Some (E', coeff)
       /\ EL_L_commute E32 L22 = Some R
       /\ mmul R E' = mmul E32 L22.
Proof.
  repeat (split; [reflexivity|]).
  apply (EL_L_commute_scaled_identity E32 L22); reflexivity.
Defined.

Lemma EL_L_commute_contract_unit_pivots_F5 :
  mat_wf E32u = true /\ is_EL E32u = true /\ EL_pivots_only E32u = true
  /\ unit_pivots E32u = true
  /\ mat_wf L22 = true /\ lower_unitriangular L22 = true
  /\ nrow L22 = ncol E32u /\ ncol L22 = ncol E32u
  /\ exists Lt, EL_L_commute E32u L22 = Some Lt
                /\ lower_unitriangular Lt = true
                /\ mmul Lt E32u = mmul E32u L22.
Proof.
  repeat (split; [reflexivity|]).
  apply (EL_L_commute_contract_unit_pivots E32u L22); reflexivity.
Defined.

Lemma EL_L_commute_after_LEUP_F5 :
  mat_wf A33 = true /\ mat_wf L33 = true /\ is_lower L33 = true
  /\ nrow L33 = ncol A33 /\ ncol L33 = ncol A33
  /\ exists E' coeff R,
       extract_row_scale (fE (LEUP A33)) = Some (E', coeff)
       /\ EL_L_commute (fE (LEUP A33)) L33 = Some R
       /\ mmul R E' = mmul (fE (LEUP A33)) L33.
Proof.
  repeat (split; [reflexivity|]).
  apply (EL_L_commute_after_LEUP A33 L33); reflexivity.
Defined.

Lemma EL_L_commute_identity_left_F5 :
  mat_wf L22 = true /\ nrow L22 = 2%nat /\ ncol L22 = 2%nat
  /\ EL_L_commute (identity 2) L22 = Some L22.
Proof.
  repeat (split; [reflexivity|]).
  apply (EL_L_commute_identity_left 2 L22); reflexivity.
Defined.

Lemma EL_L_commute_identity_right_F5 :
  mat_wf E32 = true /\ is_EL E32 = true /\ EL_pivots_only E32 = true
  /\ exists E' coeff R,
       extract_row_scale E32 = Some (E', coeff)
       /\ EL_L_commute E32 (identity (ncol E32)) = Some R
       /\ (forall i j, get R i j
                       = if decide (i = j /\ (j < nrow E32)%nat)
                         then nth i coeff 0%F else 0%F)
       /\ (unit_pivots E32 = true -> R = identity (nrow E32)).
Proof.
  repeat (split; [reflexivity|]).
  apply (EL_L_commute_identity_right E32); reflexivity.
Defined.

Lemma L_EL_commute_contract_unit_pivots_F5 :
  mat_wf E23u = true /\ mat_wf L22 = true
  /\ is_EL (J_conjugation (T E23u)) = true
  /\ EL_pivots_only (J_conjugation (T E23u)) = true
  /\ unit_pivots (J_conjugation (T E23u)) = true
  /\ lower_unitriangular L22 = true
  /\ nrow L22 = nrow E23u /\ ncol L22 = nrow E23u
  /\ exists Lt, L_EL_commute L22 E23u = Some Lt
                /\ lower_unitriangular Lt = true
                /\ mmul L22 E23u = mmul E23u Lt.
Proof.
  repeat (split; [reflexivity|]).
  apply (L_EL_commute_contract_unit_pivots L22 E23u); reflexivity.
Defined.

Lemma LEUP_accesses_defined_F5 :
  mat_wf A34 = true
  /\ (let s0 := MkState (identity (nrow A34)) A34 (identity (ncol A34))
                        (identity (ncol A34)) (get_pivots A34) [] [] 0 0 in
      LEUP_loop_checked (nrow A34) (nrow A34) (ncol A34) s0
      = Some (LEUP_loop (nrow A34) (nrow A34) (ncol A34) s0)).
Proof.
  split; [reflexivity | apply (LEUP_accesses_defined A34); reflexivity].
Defined.

Lemma LEUP_zero_matrix_F5 :
  col Z23 = replicate (ncol Z23) []
  /\ LEUP Z23
     = MkFact (identity (nrow Z23)) Z23 (identity (ncol Z23))
              (identity (ncol Z23)).
Proof.
  split; [reflexivity | apply (LEUP_zero_matrix Z23); reflexivity].
Defined.

Lemma LEUP_P_transpose_inverse_F5 :
  mat_wf A34 = true
  /\ (mmul (fP (LEUP A34)) (T (fP (LEUP A34))) = identity (ncol A34)
      /\ mmul (T (fP (LEUP A34))) (fP (LEUP A34)) = identity (ncol A34)
      /\ mmul A34 (T (fP (LEUP A34)))
         = mmul (mmul (fL (LEUP A34)) (fE (LEUP A34))) (fU (LEUP A34))).
Proof.
  split; [reflexivity | apply (LEUP_P_transpose_inverse A34); reflexivity].
Defined.

(** * Simplicial complexes *)

Lemma sort_Sorted (s : list N) : Sorted N.le (Simplicial.sort s).
Proof. apply Sorted_merge_sort. apply _. Qed.

Lemma sort_Permutation (s : list N) : Simplicial.sort s ≡ₚ s.
Proof. apply merge_sort_Permutation. Qed.

Lemma sort_length (s : list N) : length (Simplicial.sort s) = length s.
Proof. apply Permutation_length, sort_Permutation. Qed.

Lemma sort_perm_eq (s s' : list N) :
  s ≡ₚ s' -> Simplicial.sort s = Simplicial.sort s'.
Proof.
  intros H. apply (Sorted_unique N.le); try apply sort_Sorted.
  by rewrite !sort_Permutation.
Qed.

Lemma new_ok maxdim : Simplicial.cpx_ok (Simplicial.new maxdim).
Proof.
  split; [simpl; by rewrite !length_replicate|].
  intros d l m Hl Hm. simpl in Hl, Hm.
  apply lookup_replicate in Hl as [-> _].
  apply lookup_replicate in Hm as [-> _]. split.
  - intros s i. rewrite lookup_empty, lookup_nil. done.
  - intros s Hs. by apply not_elem_of_nil in Hs.
Qed.

Lemma grow_lookup dim (X : Simplicial.SimplicialComplex) d :
  length (Simplicial.spx_to_idx X) = length (Simplicial.spx_list X) ->
  let X1 := Simplicial.grow dim X in
  Simplicial.spx_list X1 !! d
  = (if decide (d < length (Simplicial.spx_list X))%nat
     then Simplicial.spx_list X !! d
     else if decide (d < dim)%nat then Some [] else None)
  /\ Simplicial.spx_to_idx X1 !! d
     = (if decide (d < length (Simplicial.spx_list X))%nat
        then Simplicial.spx_to_idx X !! d
        else if decide (d < dim)%nat then Some ∅ else None).
Proof.
  intros Hlen. simpl.
  destruct (decide (d < length (Simplicial.spx_list X))%nat) as [Hd | Hd].
  - rewrite !lookup_app_l by lia. done.
  - rewrite !lookup_app_r by lia. rewrite Hlen.
    destruct (decide (d < dim)%nat) as [Hd' | Hd'].
    + rewrite !lookup_replicate_2 by lia. done.
    + split; apply lookup_replicate_None; lia.
Qed.

Lemma grow_ok dim (X : Simplicial.SimplicialComplex) :
  Simplicial.cpx_ok X -> Simplicial.cpx_ok (Simplicial.grow dim X).
Proof.
  intros [Hlen Hok]. split.
  - simpl. rewrite !length_app, !length_replicate. lia.
  - intros d l m Hl Hm.
    destruct (grow_lookup dim X d Hlen) as [H1 H2]. cbv zeta in *.
    rewrite H1 in Hl. rewrite H2 in Hm.
    destruct (decide (d < length (Simplicial.spx_list X))%nat);
      [by apply (Hok d)|].
    destruct (decide (d < dim)%nat); [|done].
    inversion Hl; inversion Hm; subst. split.
    + intros s i. rewrite lookup_empty, lookup_nil. done.
    + intros s Hs. by apply not_elem_of_nil in Hs.
Qed.

(** What [add_unsafe] does with a sorted simplex of dimension at least one
    that the reverse map does not hold yet. *)
Lemma add_unsafe_new (X : Simplicial.SimplicialComplex) (s : list N) l m :
  Simplicial.cpx_ok X -> (2 <= length s)%nat -> Sorted N.le s ->
  Simplicial.spx_list X !! (length s - 2)%nat = Some l ->
  Simplicial.spx_to_idx X !! (length s - 2)%nat = Some m ->
  m !! s = None ->
  exists X',
    Simplicial.add_unsafe X s = Some (true, X')
    /\ Simplicial.cpx_ok X'
    /\ Simplicial.ncells0 X' = Simplicial.ncells0 X
    /\ Simplicial.find_idx X' s = Some (Some (N.of_nat (length l)))
    /\ Simplicial.skeleton0 X' (length s - 1) (N.of_nat (length l)) = Some s
    /\ Simplicial.ncells X' (length s - 1) = Some (N.of_nat (length l) + 1)%N.
Proof.
  intros [Hlen Hok] Hs Hsort Hl Hm Hnone.
  destruct s as [|a [|b t]]; simpl in Hs; try lia.
  set (s := a :: b :: t) in *.
  assert (Hd : (length s - 2 = length t)%nat) by (simpl; lia).
  pose proof (lookup_lt_Some _ _ _ Hl) as Hdl.
  pose proof (lookup_lt_Some _ _ _ Hm) as Hdm.
  destruct (Hok _ l m Hl Hm) as [Hiff Helem].
  eexists. split.
  { unfold Simplicial.add_unsafe. fold s. cbv zeta. rewrite Hl, Hm. done. }
  split; [|split; [done|split; [|split]]].
  - split; [simpl; by rewrite !length_insert|].
    intros d l' m' Hl' Hm'. simpl in Hl', Hm'.
    destruct (decide (d = length s - 2)%nat) as [-> | Hne].
    + rewrite list_lookup_insert_eq in Hl' by lia.
      rewrite list_lookup_insert_eq in Hm' by lia.
      inversion Hl'; inversion Hm'; subst l' m'. split.
      * intros s0 i. destruct (decide (s0 = s)) as [-> | Hs0].
        -- rewrite lookup_insert_eq. split.
           ++ intros [= <-]. rewrite Nnat.Nat2N.id.
              rewrite lookup_app_r by lia. by rewrite Nat.sub_diag.
           ++ intros Hi.
              destruct (decide (N.to_nat i < length l)%nat) as [Hlt | Hge].
              ** rewrite lookup_app_l in Hi by lia.
                 apply Hiff in Hi. congruence.
              ** f_equal. apply lookup_lt_Some in Hi.
                 rewrite length_app in Hi. simpl in Hi.
                 assert (N.to_nat i = length l) as <- by lia.
                 by rewrite Nnat.N2Nat.id.
        -- rewrite lookup_insert_ne by done. rewrite Hiff. split.
           ++ intros Hi. rewrite lookup_app_l; [done|].
              by apply lookup_lt_Some in Hi.
           ++ intros Hi.
              destruct (decide (N.to_nat i < length l)%nat) as [Hlt | Hge].
              ** by rewrite lookup_app_l in Hi by lia.
              ** rewrite lookup_app_r in Hi by lia.
                 destruct (N.to_nat i - length l)%nat; simpl in Hi;
                   [congruence | by rewrite lookup_nil in Hi].
      * intros s0 Hs0. apply elem_of_app in Hs0 as [Hs0 | Hs0].
        -- by apply Helem.
        -- apply list_elem_of_singleton in Hs0. subst s0.
           split; [simpl; lia | done].
    + rewrite list_lookup_insert_ne in Hl' by done.
      rewrite list_lookup_insert_ne in Hm' by done.
      by apply (Hok d).
  - unfold Simplicial.find_idx. fold s. simpl Simplicial.spx_to_idx.
    rewrite list_lookup_insert_eq by lia. simpl.
    by rewrite lookup_insert_eq.
  - replace (length s - 1)%nat with (S (length s - 2)) by (simpl; lia).
    simpl Simplicial.skeleton0. simpl Simplicial.spx_list.
    rewrite list_lookup_insert_eq by lia. simpl.
    rewrite Nnat.Nat2N.id. rewrite lookup_app_r by lia.
    by rewrite Nat.sub_diag.
  - replace (length s - 1)%nat with (S (length s - 2)) by (simpl; lia).
    simpl Simplicial.ncells. simpl Simplicial.spx_list.
    rewrite list_lookup_insert_eq by lia. simpl.
    rewrite length_app. simpl. f_equal. lia.
Qed.

Lemma skeleton0_S (X : Simplicial.SimplicialComplex) d i :
  Simplicial.skeleton0 X (S d) i
  = (l ← Simplicial.spx_list X !! d; l !! N.to_nat i).
Proof. reflexivity. Qed.

Lemma grow_id dim (X : Simplicial.SimplicialComplex) :
  (dim <= length (Simplicial.spx_list X))%nat -> Simplicial.grow dim X = X.
Proof.
  intros H. destruct X as [n l m]. unfold Simplicial.grow. simpl in *.
  replace (dim - length l)%nat with 0%nat by lia. simpl.
  by rewrite !app_nil_r.
Qed.

Lemma sort_two (s : list N) :
  (2 <= length s)%nat -> exists a b t, Simplicial.sort s = a :: b :: t.
Proof.
  intros H. rewrite <- sort_length in H.
  destruct (Simplicial.sort s) as [|a [|b t]]; simpl in H; try lia.
  by exists a, b, t.
Qed.

(** [add] on a simplex of dimension at least one: the dimensions are
    grown, and the sorted simplex is either found in the reverse map, or
    appended with the next free index. *)
Lemma add_spec (X : Simplicial.SimplicialComplex) (s : list N) :
  Simplicial.cpx_ok X -> (2 <= length s)%nat ->
  let s' := Simplicial.sort s in
  let dim := (length s - 1)%nat in
  let X1 := Simplicial.grow dim X in
  exists l m,
    Simplicial.spx_list X1 !! (dim - 1)%nat = Some l
    /\ Simplicial.spx_to_idx X1 !! (dim - 1)%nat = Some m
    /\ Simplicial.cpx_ok X1
    /\ match m !! s' with
       | Some i => Simplicial.add X s = Some (false, X1)
       | None =>
           exists X',
             Simplicial.add X s = Some (true, X')
             /\ Simplicial.cpx_ok X'
             /\ Simplicial.ncells0 X' = Simplicial.ncells0 X
             /\ Simplicial.find_idx X' s' = Some (Some (N.of_nat (length l)))
             /\ Simplicial.skeleton0 X' dim (N.of_nat (length l)) = Some s'
             /\ Simplicial.ncells X' dim = Some (N.of_nat (length l) + 1)%N
       end.
Proof.
  intros HX Hs s' dim X1.
  pose proof (grow_ok dim X HX) as HX1. fold X1 in HX1.
  destruct HX as [Hlen Hok].
  destruct (grow_lookup dim X (dim - 1) Hlen) as [H1 H2]. cbv zeta in *.
  fold X1 in H1, H2.
  assert (Hex : exists l m,
            Simplicial.spx_list X1 !! (dim - 1)%nat = Some l
            /\ Simplicial.spx_to_idx X1 !! (dim - 1)%nat = Some m).
  { destruct (decide (dim - 1 < length (Simplicial.spx_list X))%nat) as [Hd|Hd].
    - destruct (lookup_lt_is_Some_2 (Simplicial.spx_list X) (dim - 1) Hd)
        as [l Hl].
      destruct (lookup_lt_is_Some_2 (Simplicial.spx_to_idx X) (dim - 1)
                  ltac:(lia)) as [m Hm].
      exists l, m. by rewrite H1, H2.
    - rewrite decide_True in H1 by (unfold dim; lia).
      rewrite decide_True in H2 by (unfold dim; lia).
      by exists [], ∅. }
  destruct Hex as (l & m & Hl & Hm). exists l, m.
  split; [done|]. split; [done|]. split; [done|].
  assert (Hadd : Simplicial.add X s
                 = match m !! s' with
                   | Some _ => Some (false, X1)
                   | None => Simplicial.add_unsafe X1 s'
                   end).
  { destruct s as [|a [|b t]]; simpl in Hs; try lia.
    unfold Simplicial.add. cbv zeta. fold dim s' X1. rewrite Hm. done. }
  destruct (m !! s') as [i|] eqn:Hms; [done|].
  destruct (add_unsafe_new X1 s' l m HX1) as (X' & Ha & Hr);
    try done.
  - unfold s'. rewrite sort_length. lia.
  - apply sort_Sorted.
  - unfold s'. rewrite sort_length. by replace (length s - 2)%nat with (dim - 1)%nat
      by (unfold dim; lia).
  - unfold s'. rewrite sort_length. by replace (length s - 2)%nat with (dim - 1)%nat
      by (unfold dim; lia).
  - exists X'. rewrite Hadd. split; [done|].
    unfold s' in Hr. rewrite sort_length in Hr. fold s' dim in Hr.
    destruct Hr as (? & Hn0 & ? & ? & ?). unfold X1 in Hn0. simpl in Hn0.
    do 4 (split; [done|]). done.
Qed.

(** X17.  The checked [add] never fails on a nonempty simplex and keeps
    the representation invariant: the reverse maps stay the inverses of
    the simplex lists, without duplicates, every stored simplex sorted
    and of the size of its dimension. *)
Theorem add_keeps_invariant (X : Simplicial.SimplicialComplex) (s : list N) :
  Simplicial.cpx_ok X -> s <> [] ->
  exists b X', Simplicial.add X s = Some (b, X') /\ Simplicial.cpx_ok X'.
Proof.
  intros HX Hs. destruct s as [|a [|b t]]; [done| |].
  - eexists _, _. split; [reflexivity|]. exact HX.
  - destruct (add_spec X (a :: b :: t) HX ltac:(simpl; lia))
      as (l & m & _ & _ & HX1 & Hcase).
    destruct (m !! Simplicial.sort (a :: b :: t)) as [i|].
    + by eexists _, _.
    + destruct Hcase as (X' & Ha & HX' & _). by exists true, X'.
Qed.

(** After [add] of a simplex of dimension at least one the complex is
    well formed, [find_idx] finds the sorted simplex and [skeleton0] reads
    it back. *)
Lemma add_find_idx_aux (X : Simplicial.SimplicialComplex) (s : list N) :
  Simplicial.cpx_ok X -> (2 <= length s)%nat ->
  exists b X' i,
    Simplicial.add X s = Some (b, X')
    /\ Simplicial.cpx_ok X'
    /\ Simplicial.find_idx X' (Simplicial.sort s) = Some (Some i)
    /\ Simplicial.skeleton0 X' (length s - 1) i = Some (Simplicial.sort s)
    /\ (b = true ->
        Simplicial.ncells X' (length s - 1) = Some (i + 1)%N).
Proof.
  intros HX Hs.
  destruct (add_spec X s HX Hs) as (l & m & Hl & Hm & HX1 & Hcase).
  cbv zeta in *.
  destruct (m !! Simplicial.sort s) as [i|] eqn:Hms.
  - exists false, (Simplicial.grow (length s - 1) X), i.
    split; [done|]. split; [done|].
    destruct (sort_two s Hs) as (a & b & t & Hst).
    assert (Hlen : (length (Simplicial.sort s) - 2 = length s - 1 - 1)%nat)
      by (rewrite sort_length; lia).
    split; [|split; [|done]].
    + unfold Simplicial.find_idx. rewrite Hst. rewrite <- Hst.
      rewrite Hlen, Hm. simpl. by rewrite Hms.
    + replace (length s - 1)%nat with (S (length s - 1 - 1)) at 2 by lia.
      rewrite skeleton0_S, Hl. simpl.
      destruct HX1 as [_ Hok]. by apply (Hok _ l m Hl Hm).
  - destruct Hcase as (X' & Ha & HX' & _ & Hf & Hsk & Hn).
    by exists true, X', (N.of_nat (length l)).
Qed.

(** X18.  After [add] of a simplex of dimension at least one, whether it
    was new or not, [find_idx] finds the sorted simplex and [skeleton0]
    reads it back at that index; when [add] returned true the simplex got
    the last index of its dimension. *)
Theorem add_find_idx (X : Simplicial.SimplicialComplex) (s : list N) :
  Simplicial.cpx_ok X -> (2 <= length s)%nat ->
  exists b X' i,
    Simplicial.add X s = Some (b, X')
    /\ Simplicial.find_idx X' (Simplicial.sort s) = Some (Some i)
    /\ Simplicial.skeleton0 X' (length s - 1) i = Some (Simplicial.sort s)
    /\ (b = true ->
        Simplicial.ncells X' (length s - 1) = Some (i + 1)%N).
Proof.
  intros HX Hs.
  destruct (add_find_idx_aux X s HX Hs) as (b & X' & i & Ha & _ & Hr).
  by exists b, X', i.
Qed.

Lemma find_idx_lookup (X : Simplicial.SimplicialComplex) (s : list N) i :
  (2 <= length s)%nat ->
  Simplicial.find_idx X s = Some (Some i) <->
  exists m, Simplicial.spx_to_idx X !! (length s - 2)%nat = Some m
            /\ m !! s = Some i.
Proof.
  intros Hs. destruct s as [|a [|b t]]; simpl in Hs; try lia.
  unfold Simplicial.find_idx.
  destruct (Simplicial.spx_to_idx X !! (length (a :: b :: t) - 2)%nat)
    as [m|]; simpl.
  - split.
    + intros [= H]. by exists m.
    + intros (m' & [= <-] & H). by rewrite H.
  - split; [done|]. by intros (m' & H & _).
Qed.

Lemma add_found (X : Simplicial.SimplicialComplex) (s : list N) i :
  Simplicial.cpx_ok X -> (2 <= length s)%nat ->
  Simplicial.find_idx X (Simplicial.sort s) = Some (Some i) ->
  Simplicial.add X s = Some (false, X).
Proof.
  intros HX Hs Hf.
  apply find_idx_lookup in Hf as (m & Hm & Hi);
    [|rewrite sort_length; lia].
  rewrite sort_length in Hm.
  pose proof (lookup_lt_Some _ _ _ Hm) as Hd.
  destruct HX as [Hlen Hok]. rewrite Hlen in Hd.
  destruct s as [|a [|b t]]; simpl in Hs; try lia.
  unfold Simplicial.add. cbv zeta.
  rewrite grow_id by lia.
  replace (length (a :: b :: t) - 1 - 1)%nat
    with (length (a :: b :: t) - 2)%nat by lia.
  rewrite Hm. simpl. by rewrite Hi.
Qed.

(** X19.  A simplex is stored once, whatever the order of its vertices:
    after [add] of a simplex of dimension at least one, [add] of any
    rearrangement of its vertices returns false and leaves the complex as
    it is. *)
Theorem add_again_rejected (X : Simplicial.SimplicialComplex)
    (s s2 : list N) (b : bool) (X' : Simplicial.SimplicialComplex) :
  Simplicial.cpx_ok X -> (2 <= length s)%nat -> s2 ≡ₚ s ->
  Simplicial.add X s = Some (b, X') ->
  Simplicial.add X' s2 = Some (false, X').
Proof.
  intros HX Hs Hperm Hadd.
  destruct (add_find_idx_aux X s HX Hs) as (b0 & X0 & i & Ha & HX0 & Hf).
  rewrite Hadd in Ha. inversion Ha; subst b0 X0.
  apply (add_found X' s2 i HX0).
  - rewrite (Permutation_length Hperm). done.
  - rewrite (sort_perm_eq s2 s Hperm). by destruct Hf as [? _].
Qed.

(** X20.  On a complex that satisfies the representation invariant, as
    every complex built with [add] does, [find_idx] and [skeleton0] are
    inverse to each other in every dimension from one on. *)
Theorem find_idx_skeleton0 (X : Simplicial.SimplicialComplex)
    (s : list N) (i : N) :
  Simplicial.cpx_ok X -> (2 <= length s)%nat ->
  Simplicial.find_idx X s = Some (Some i)
  <-> Simplicial.skeleton0 X (length s - 1) i = Some s.
Proof.
  intros [Hlen Hok] Hs. rewrite (find_idx_lookup X s i Hs).
  replace (length s - 1)%nat with (S (length s - 2)) by lia.
  rewrite skeleton0_S. split.
  - intros (m & Hm & Hi).
    destruct (lookup_lt_is_Some_2 (Simplicial.spx_list X) (length s - 2))
      as [l Hl]; [rewrite <- Hlen; by apply lookup_lt_Some in Hm|].
    rewrite Hl. simpl. by apply (Hok _ l m Hl Hm).
  - intros Hsk.
    destruct (Simplicial.spx_list X !! (length s - 2)%nat) as [l|] eqn:Hl;
      [|done]. simpl in Hsk.
    destruct (lookup_lt_is_Some_2 (Simplicial.spx_to_idx X) (length s - 2))
      as [m Hm]; [rewrite Hlen; by apply lookup_lt_Some in Hl|].
    exists m. split; [done|]. by apply (Hok _ l m Hl Hm).
Qed.

(** X21.  [add] of a vertex below [SIZE_MAX] makes it a 0-cell that
    [find_idx] finds, keeps every 0-cell found before and touches no
    other dimension; the vertex [SIZE_MAX] itself is dropped silently,
    since [s[0] + 1] wraps to zero. *)
Theorem add_vertex (X : Simplicial.SimplicialComplex) (v : N) :
  (v < Simplicial.SIZE_MAX)%N ->
  (exists X',
     Simplicial.add X [v] = Some (true, X')
     /\ Simplicial.find_idx X' [v] = Some (Some v)
     /\ (forall u, Simplicial.find_idx X [u] = Some (Some u) ->
                   Simplicial.find_idx X' [u] = Some (Some u))
     /\ Simplicial.spx_list X' = Simplicial.spx_list X
     /\ Simplicial.spx_to_idx X' = Simplicial.spx_to_idx X)
  /\ Simplicial.add X [Simplicial.SIZE_MAX] = Some (true, X).
Proof.
  intros Hv. unfold Simplicial.SIZE_MAX in *. split.
  - eexists. split; [reflexivity|]. simpl.
    assert (Hs : Simplicial.size_succ v = (v + 1)%N).
    { unfold Simplicial.size_succ. apply N.mod_small. lia. }
    rewrite Hs. split; [|split; [|done]].
    + destruct (N.ltb_spec v (N.max (v + 1) (Simplicial.ncells0 X)));
        [done | lia].
    + intros u Hu.
      destruct (N.ltb_spec u (Simplicial.ncells0 X)) as [Hlt|]; [|done].
      destruct (N.ltb_spec u (N.max (v + 1) (Simplicial.ncells0 X)));
        [done | lia].
  - destruct X as [n l m]. unfold Simplicial.add. simpl. do 3 f_equal.
    unfold Simplicial.size_succ.
    replace ((2 ^ 64 - 1 + 1) mod 2 ^ 64)%N with 0%N by reflexivity.
    lia.
Qed.

(** * Cellular maps *)

Section CellularMapTheory.

Context {M : Type} (empty_matrix : M).

(** X22.  The non-const [operator[]] of [CellularMap] yields a reference
    inside the vector exactly for [k] below the size, and then changes
    nothing.  For [k] at or beyond the size it resizes the vector to [k]
    entries, one fewer than index [k] needs, so the reference it returns
    is past the end. *)
Theorem at_reference (cell_map : list M) (k : nat) :
  Cellular.at_ empty_matrix cell_map k
  = (if decide (k < length cell_map)%nat then (cell_map, cell_map !! k)
     else (cell_map ++ replicate (k - length cell_map) empty_matrix, None))
  /\ (is_Some (Cellular.at_ empty_matrix cell_map k).2
      <-> (k < length cell_map)%nat).
Proof.
  unfold Cellular.at_, Cellular._safe_resize, Cellular._resize.
  destruct (Nat.leb_spec (length cell_map) k) as [Hle | Hlt].
  - rewrite decide_False by lia. rewrite resize_ge by done. simpl.
    rewrite (lookup_ge_None_2 (cell_map ++ _) k)
      by (rewrite length_app, length_replicate; lia).
    split; [done|]. split; [by intros [? ?] | lia].
  - rewrite decide_True by lia. simpl. split; [done|].
    split; [done|]. intros _. by apply lookup_lt_is_Some_2.
Qed.




End CellularMapTheory.

(** * Instances for complexes and in-place variants *)

Lemma edge_cpx_ok : Simplicial.cpx_ok edge_cpx.
Proof.
  destruct (add_find_idx_aux (Simplicial.new 1) [2; 1]%N (new_ok 1)
              ltac:(simpl; lia)) as (b & X' & i & Ha & Hok & _).
  vm_compute in Ha. inversion Ha; subst. exact Hok.
Qed.

Lemma inplace_variants_reconstruct_F5 :
  mat_wf A34 = true
  /\ (let m := nrow A34 in
      let n := ncol A34 in
      PLEU_inplace (MkFact (identity n) A34 (identity m) (identity m))
      = PLEU A34
      /\ UELP_inplace (MkFact (identity m) A34 (identity n) (identity n))
         = UELP A34
      /\ PLEU_prod
           (PLEU_inplace (MkFact (identity n) A34 (identity m) (identity m)))
         = A34
      /\ UELP_prod
           (UELP_inplace (MkFact (identity m) A34 (identity n) (identity n)))
         = A34).
Proof.
  split; [reflexivity | apply (inplace_variants_reconstruct A34); reflexivity].
Defined.

Lemma add_keeps_invariant_ex :
  Simplicial.cpx_ok edge_cpx /\ [3; 1; 2]%N <> []
  /\ exists b X',
       Simplicial.add edge_cpx [3; 1; 2]%N = Some (b, X')
       /\ Simplicial.cpx_ok X'.
Proof.
  split; [apply edge_cpx_ok|]. split; [discriminate|].
  apply (add_keeps_invariant edge_cpx [3; 1; 2]%N);
    [apply edge_cpx_ok | discriminate].
Defined.

Lemma add_find_idx_ex :
  Simplicial.cpx_ok edge_cpx /\ (2 <= length [3; 1; 2]%N)%nat
  /\ exists b X' i,
       Simplicial.add edge_cpx [3; 1; 2]%N = Some (b, X')
       /\ Simplicial.find_idx X' (Simplicial.sort [3; 1; 2]%N)
          = Some (Some i)
       /\ Simplicial.skeleton0 X' (length [3; 1; 2]%N - 1) i
          = Some (Simplicial.sort [3; 1; 2]%N)
       /\ (b = true ->
           Simplicial.ncells X' (length [3; 1; 2]%N - 1) = Some (i + 1)%N).
Proof.
  split; [apply edge_cpx_ok|]. split; [simpl; lia|].
  apply (add_find_idx edge_cpx [3; 1; 2]%N); [apply edge_cpx_ok | simpl; lia].
Defined.

Lemma add_again_rejected_ex :
  Simplicial.cpx_ok (Simplicial.new 1) /\ (2 <= length [2; 1]%N)%nat
  /\ [1; 2]%N ≡ₚ [2; 1]%N
  /\ Simplicial.add (Simplicial.new 1) [2; 1]%N = Some (true, edge_cpx)
  /\ Simplicial.add edge_cpx [1; 2]%N = Some (false, edge_cpx).
Proof.
  split; [apply new_ok|]. split; [simpl; lia|].
  split; [apply perm_swap|]. split; [reflexivity|].
  apply (add_again_rejected (Simplicial.new 1) [2; 1]%N [1; 2]%N true edge_cpx);
    [apply new_ok | simpl; lia | apply perm_swap | reflexivity].
Defined.

Lemma find_idx_skeleton0_ex :
  Simplicial.cpx_ok edge_cpx /\ (2 <= length [1; 2]%N)%nat
  /\ (Simplicial.find_idx edge_cpx [1; 2]%N = Some (Some 0%N)
      <-> Simplicial.skeleton0 edge_cpx (length [1; 2]%N - 1) 0%N
          = Some [1; 2]%N).
Proof.
  split; [apply edge_cpx_ok|]. split; [simpl; lia|].
  apply (find_idx_skeleton0 edge_cpx [1; 2]%N 0%N);
    [apply edge_cpx_ok | simpl; lia].
Defined.

Lemma add_vertex_ex :
  (4 < Simplicial.SIZE_MAX)%N
  /\ ((exists X',
         Simplicial.add edge_cpx [4%N] = Some (true, X')
         /\ Simplicial.find_idx X' [4%N] = Some (Some 4%N)
         /\ (forall u, Simplicial.find_idx edge_cpx [u] = Some (Some u) ->
                       Simplicial.find_idx X' [u] = Some (Some u))
         /\ Simplicial.spx_list X' = Simplicial.spx_list edge_cpx
         /\ Simplicial.spx_to_idx X' = Simplicial.spx_to_idx edge_cpx)
      /\ Simplicial.add edge_cpx [Simplicial.SIZE_MAX] = Some (true, edge_cpx)).
Proof.
  split; [reflexivity | apply (add_vertex edge_cpx 4%N); reflexivity].
Defined.

(** * The boundary of a simplex *)

Lemma sign_S k : Simplicial.sign (S k) = (- Simplicial.sign k)%Z.
Proof.
  unfold Simplicial.sign. rewrite Nat.even_succ, <- Nat.negb_even.
  by destruct (Nat.even k).
Qed.

Lemma boundary_loop_map dim (s : list N) cnt :
  forall k,
  Simplicial.boundary_loop dim s k cnt (Simplicial.sign k)
  = map (fun j => (Simplicial.face dim s (dim - j), Simplicial.sign j))
        (seq k cnt).
Proof.
  induction cnt as [|cnt IH]; intros k; [done|]. simpl. f_equal.
  rewrite <- sign_S. replace (k + 1)%nat with (S k) by lia. apply IH.
Qed.

Lemma boundary_faces_map dim (s : list N) :
  Simplicial.boundary_faces dim s
  = map (fun j => (Simplicial.face dim s (dim - j), Simplicial.sign j))
        (seq 0 (dim + 1)).
Proof. apply (boundary_loop_map dim s (dim + 1) 0). Qed.

Lemma boundary_faces_length dim (s : list N) f c :
  length s = (dim + 1)%nat -> (f, c) ∈ Simplicial.boundary_faces dim s ->
  length f = dim.
Proof.
  intros Hs Hin. rewrite boundary_faces_map in Hin.
  apply list_elem_of_In, in_map_iff in Hin as (j & Heq & Hj).
  apply in_seq in Hj. inversion Heq; subst. unfold Simplicial.face.
  rewrite length_app, !length_take, length_drop. lia.
Qed.

Lemma boundary_faces_cons dim a (t : list N) :
  length t = dim -> (1 <= dim)%nat ->
  Simplicial.boundary_faces dim (a :: t)
  = map (fun fc : list N * Z => (a :: fc.1, fc.2))
        (Simplicial.boundary_faces (dim - 1) t)
    ++ [(t, Simplicial.sign dim)].
Proof.
  intros Ht Hd. rewrite !boundary_faces_map.
  replace (dim - 1 + 1)%nat with dim by lia.
  replace (dim + 1)%nat with (S dim) by lia.
  rewrite seq_S, map_app. simpl. f_equal.
  - rewrite map_map. apply map_ext_in. intros j Hj. apply in_seq in Hj.
    simpl. f_equal. unfold Simplicial.face.
    replace (dim - j)%nat with (S (dim - 1 - j)) by lia. simpl.
    do 3 f_equal. lia.
  - rewrite Nat.sub_diag. unfold Simplicial.face. simpl.
    rewrite Nat.sub_0_r, drop_0. by rewrite take_ge by lia.
Qed.

Lemma coef_app g (L1 L2 : list (list N * Z)) :
  Simplicial.coef g (L1 ++ L2)
  = (Simplicial.coef g L1 + Simplicial.coef g L2)%Z.
Proof.
  induction L1 as [|[f c] L1 IH]; simpl; [done|]. rewrite IH. lia.
Qed.

Lemma coef_scale g c (L : list (list N * Z)) :
  Simplicial.coef g (map (fun gc : list N * Z => (gc.1, (c * gc.2)%Z)) L)
  = (c * Simplicial.coef g L)%Z.
Proof.
  induction L as [|[f c'] L IH]; simpl; [lia|]. rewrite IH.
  destruct (decide (f = g)); lia.
Qed.

Lemma coef_cons_map a g (L : list (list N * Z)) :
  Simplicial.coef g (map (fun fc : list N * Z => (a :: fc.1, fc.2)) L)
  = match g with
    | a' :: g' => if decide (a' = a) then Simplicial.coef g' L else 0%Z
    | [] => 0%Z
    end.
Proof.
  induction L as [|[f c] L IH]; simpl.
  - destruct g as [|a' g']; [done|]. by destruct (decide (a' = a)).
  - rewrite IH. destruct g as [|a' g']; repeat case_decide; simplify_eq; lia.
Qed.

(** The boundary of the cone [a :: f] over each simplex [f] of a formal
    sum: the cone over the boundary, and the base with the sign of the
    dimension. *)
Lemma boundary_sum_cone a dim (L : list (list N * Z)) :
  (forall f c, (f, c) ∈ L -> length f = dim) -> (1 <= dim)%nat ->
  forall g,
  Simplicial.coef g
    (Simplicial.boundary_sum dim
       (map (fun fc : list N * Z => (a :: fc.1, fc.2)) L))
  = ((match g with
      | a' :: g' =>
          if decide (a' = a)
          then Simplicial.coef g' (Simplicial.boundary_sum (dim - 1) L)
          else 0
      | [] => 0
      end)
     + Simplicial.sign dim * Simplicial.coef g L)%Z.
Proof.
  intros Hlen Hd g. induction L as [|[f c] L IH].
  - simpl. destruct g as [|a' g']; [lia|]. destruct (decide (a' = a)); lia.
  - unfold Simplicial.boundary_sum in *. simpl.
    rewrite !coef_app, IH
      by (intros f' c' H'; apply (Hlen f' c'); by apply list_elem_of_further).
    rewrite (boundary_faces_cons dim a f)
      by (done || apply (Hlen f c), list_elem_of_here).
    rewrite map_app, coef_app. simpl.
    rewrite !coef_scale, coef_cons_map.
    destruct g as [|a' g']; rewrite ?coef_app, ?coef_scale;
      repeat case_decide; simplify_eq; ring.
Qed.

Lemma boundary_sum_zero (s : list N) :
  (2 <= length s)%nat ->
  forall g,
  Simplicial.coef g
    (Simplicial.boundary_sum (length s - 2)
       (Simplicial.boundary_faces (length s - 1) s)) = 0%Z.
Proof.
  induction s as [|a t IH]; intros Hs g; [simpl in Hs; lia|].
  destruct t as [|b [|b2 t2]]; [simpl in Hs; lia | |].
  - vm_compute Simplicial.boundary_sum. simpl.
    destruct (decide ([] = g)); lia.
  - set (t := b :: b2 :: t2) in *.
    assert (Ht : (2 <= length t)%nat) by (simpl; lia).
    replace (length (a :: t) - 1)%nat with (length t) by (simpl; lia).
    replace (length (a :: t) - 2)%nat with (length t - 1)%nat by (simpl; lia).
    rewrite (boundary_faces_cons (length t) a t) by (done || lia).
    unfold Simplicial.boundary_sum. rewrite flat_map_app, coef_app.
    fold (Simplicial.boundary_sum (length t - 1)
            (map (fun fc : list N * Z => (a :: fc.1, fc.2))
                 (Simplicial.boundary_faces (length t - 1) t))).
    rewrite (boundary_sum_cone a (length t - 1)); [| |lia].
    2:{ intros f c Hin.
        apply (boundary_faces_length (length t - 1) t f c); [lia | done]. }
    cbn [flat_map fst snd]. rewrite app_nil_r, coef_scale.
    replace (length t - 1 - 1)%nat with (length t - 2)%nat by lia.
    assert (Hsg : Simplicial.sign (length t)
                  = (- Simplicial.sign (length t - 1))%Z).
    { replace (length t) with (S (length t - 1)) at 1 by lia. apply sign_S. }
    rewrite Hsg.
    destruct g as [|a' g']; [lia|].
    destruct (decide (a' = a)); [rewrite (IH Ht g')|]; lia.
Qed.

(** X24.  The faces and coefficients [boundary] lists compose to zero:
    for a simplex of dimension at least two, in the boundary of its
    boundary every simplex has coefficient zero. *)
Theorem boundary_boundary_zero (dim : nat) (s g : list N) :
  length s = (dim + 1)%nat -> (2 <= dim)%nat ->
  Simplicial.coef g
    (Simplicial.boundary_sum (dim - 1) (Simplicial.boundary_faces dim s))
  = 0%Z.
Proof.
  intros Hs Hd. pose proof (boundary_sum_zero s ltac:(lia) g) as H.
  rewrite Hs in H. by replace (dim + 1 - 2)%nat with (dim - 1)%nat in H by lia;
    replace (dim + 1 - 1)%nat with dim in H by lia.
Qed.

Lemma find_idx_defined (X : Simplicial.SimplicialComplex) (f : list N) :
  (1 <= length f)%nat ->
  (length f - 1 <= length (Simplicial.spx_to_idx X))%nat ->
  Simplicial.find_idx X f
  = Some (default None (Simplicial.find_idx X f)).
Proof.
  intros Hf Hd. destruct f as [|a [|b t]]; simpl in Hf; [lia|done|].
  unfold Simplicial.find_idx.
  destruct (lookup_lt_is_Some_2 (Simplicial.spx_to_idx X)
              (length (a :: b :: t) - 2)) as [m Hm]; [simpl in *; lia|].
  by rewrite Hm.
Qed.

Lemma boundary_faces_snd dim (s : list N) :
  (Simplicial.boundary_faces dim s).*2
  = map Simplicial.sign (seq 0 (dim + 1)).
Proof.
  rewrite boundary_faces_map.
  induction (seq 0 (dim + 1)) as [|j l IH]; [done|].
  simpl. by rewrite <- IH.
Qed.

Lemma boundary_faces_count dim (s : list N) :
  length (Simplicial.boundary_faces dim s) = (dim + 1)%nat.
Proof. by rewrite boundary_faces_map, length_map, length_seq. Qed.

(** X25.  On a complex that satisfies the representation invariant every
    access of [boundary] is in range in each dimension from one up to the
    top one: the boundary columns of all cells are produced, each with one
    index and one coefficient per face, the coefficients alternating from
    minus one. *)
Theorem boundary_matrix_defined (X : Simplicial.SimplicialComplex)
    (dim : nat) :
  Simplicial.cpx_ok X -> (1 <= dim)%nat -> (dim <= Simplicial.maxdim X)%nat ->
  exists n cols,
    Simplicial.ncells X dim = Some n
    /\ Simplicial.boundary_matrix X dim = Some cols
    /\ length cols = N.to_nat n
    /\ forall c, c ∈ cols ->
         length c.1 = (dim + 1)%nat
         /\ c.2 = map Simplicial.sign (seq 0 (dim + 1)).
Proof.
  intros [Hlen Hok] Hd Hmax. unfold Simplicial.maxdim in Hmax.
  destruct dim as [|d]; [lia|].
  destruct (lookup_lt_is_Some_2 (Simplicial.spx_list X) d ltac:(lia))
    as [l Hl].
  destruct (lookup_lt_is_Some_2 (Simplicial.spx_to_idx X) d ltac:(lia))
    as [m Hm].
  destruct (Hok d l m Hl Hm) as [_ Helem].
  set (g := fun i : nat =>
    (map (fun fc : list N * Z =>
            default Simplicial.SIZE_MAX
              (default None (Simplicial.find_idx X fc.1)))
         (Simplicial.boundary_faces (S d) (l !!! i)),
     (Simplicial.boundary_faces (S d) (l !!! i)).*2)).
  exists (N.of_nat (length l)), (g <$> seq 0 (length l)).
  split; [simpl; by rewrite Hl|]. split; [|split].
  - unfold Simplicial.boundary_matrix. simpl Simplicial.ncells.
    rewrite Hl. simpl. rewrite Nnat.Nat2N.id.
    apply mapM_total. intros i Hi. apply elem_of_seq in Hi.
    destruct (lookup_lt_is_Some_2 l i ltac:(lia)) as [s Hs].
    pose proof (list_elem_of_lookup_2 _ _ _ Hs) as Hin.
    destruct (Helem s Hin) as [Hsl _].
    unfold Simplicial.boundary. rewrite Hl. cbn [mbind option_bind].
    rewrite Nnat.Nat2N.id, Hs. cbn [mbind option_bind].
    destruct (Nat.ltb_spec (length s) (S d + 1)) as [|_]; [lia|].
    cbn [mbind option_bind]. unfold g. rewrite (list_lookup_total_correct l i s Hs).
    rewrite (mapM_total _
               (fun fc : list N * Z =>
                  default Simplicial.SIZE_MAX
                    (default None (Simplicial.find_idx X fc.1)))).
    + done.
    + intros [f c] Hfc. simpl.
      pose proof (boundary_faces_length (S d) s f c ltac:(lia) Hfc) as Hfl.
      rewrite (find_idx_defined X f) by lia. done.
  - by rewrite length_fmap, length_seq, Nnat.Nat2N.id.
  - intros c Hc. apply list_elem_of_fmap in Hc as (i & -> & _).
    unfold g. cbn [fst snd]. split.
    + by rewrite length_map, boundary_faces_count.
    + apply boundary_faces_snd.
Qed.

(** ** Instances for the boundary *)

Lemma boundary_boundary_zero_ex :
  length [1; 2; 3; 4]%N = (3 + 1)%nat /\ (2 <= 3)%nat
  /\ Simplicial.coef [1; 4]%N
       (Simplicial.boundary_sum (3 - 1)
          (Simplicial.boundary_faces 3 [1; 2; 3; 4]%N)) = 0%Z.
Proof.
  split; [reflexivity|]. split; [lia|].
  apply (boundary_boundary_zero 3 [1; 2; 3; 4]%N [1; 4]%N); [reflexivity | lia].
Defined.

Lemma boundary_matrix_defined_ex :
  Simplicial.cpx_ok edge_cpx /\ (1 <= 1)%nat
  /\ (1 <= Simplicial.maxdim edge_cpx)%nat
  /\ exists n cols,
       Simplicial.ncells edge_cpx 1 = Some n
       /\ Simplicial.boundary_matrix edge_cpx 1 = Some cols
       /\ length cols = N.to_nat n
       /\ forall c, c ∈ cols ->
            length c.1 = (1 + 1)%nat
            /\ c.2 = map Simplicial.sign (seq 0 (1 + 1)).
Proof.
  split; [apply edge_cpx_ok|]. split; [lia|]. split; [vm_compute; lia|].
  apply (boundary_matrix_defined edge_cpx 1);
    [apply edge_cpx_ok | lia | vm_compute; lia].
Defined.
